(** * ncon: a tensor-network contraction planner

    A shallow embedding of [src/ncon_torch/ncon.py] and the verification of
    its index validator, connectivity repairer, contraction scheduler and
    output arranger.  The numeric kernels ([con], [trace], [permute],
    [expand_dims]) live in the backend module and are taken as an interface. *)

From stdpp Require Import gmap strings list sorting relations.
From Stdlib Require Import ZArith Lia.

Open Scope Z_scope.
Open Scope nat_scope.

(** ** Index labels

    Python labels are hashable objects: integers or strings. *)

Inductive label :=
| LInt (z : Z)
| LStr (s : string).

#[global] Instance label_eq_dec : EqDecision label.
Proof. solve_decision. Defined.

#[global] Instance label_countable : Countable label.
Proof.
  refine (inj_countable'
    (λ l, match l with LInt z => inl z | LStr s => inr s end)
    (λ x, match x with inl z => LInt z | inr s => LStr s end) _).
  by intros [].
Defined.

(** [isinstance(element, int)] *)
Definition is_int (l : label) : bool :=
  match l with LInt _ => true | LStr _ => false end.

(** ** Exceptions

    One constructor per [raise] site of the module, plus the exceptions of
    the Python primitives it uses.  [E_fuel] is not a Python exception: it
    marks a loop of the model that ran out of its iteration budget, and is
    shown below never to occur. *)

Inductive error :=
| E_num_tensors (nL nv : nat)            (* do_check_indices, check 1 *)
| E_num_indices (i : nat)                (* do_check_indices, check 2 *)
| E_not_twice (e : label)                (* do_check_indices, check 3 *)
| E_incompatible (e : label) (ind0 A0 ind1 A1 : nat) (* check 4 *)
| E_free_not_once (e : label)            (* do_check_indices, check 3 *)
| E_tcon_many                            (* get_tcon, l > 2 *)
| E_tcon_none                            (* get_tcon, l < 1 *)
| E_tcon_trace                           (* get_tcon, trace index *)
| E_must_specify (name : string)         (* preprocess_forder_order *)
| E_not_iterable (name : string)         (* preprocess_forder_order *)
| E_index                                (* IndexError: list index out of range *)
| E_key                                  (* KeyError: pop from an empty set *)
| E_not_in_list (x : label)              (* ValueError of list.index *)
| E_type                                 (* TypeError: str compared with int *)
| E_backend                              (* the backend raised *)
| E_fuel.

Inductive res (A : Type) :=
| Ok (a : A)
| Err (e : error).
Arguments Ok {A} a.
Arguments Err {A} e.

#[global] Instance res_ret : MRet res := λ A a, Ok a.
#[global] Instance res_bind : MBind res := λ A B f m,
  match m with Ok a => f a | Err e => Err e end.

#[global] Instance res_fmap : FMap res := λ A B f m,
  match m with Ok a => Ok (f a) | Err e => Err e end.

Definition raises {A} (r : res A) : Prop := ∃ e, r = Err e.

(** ** Python list primitives *)

(** [l[i]] for a non-negative [i] *)
Definition py_get {A} (l : list A) (i : nat) : res A :=
  match l !! i with Some x => Ok x | None => Err E_index end.

(** [del l[i]] *)
Definition py_del {A} (i : nat) (l : list A) : res (list A) :=
  if decide (i < length l) then Ok (delete i l) else Err E_index.

(** [l[i] = x] *)
Definition py_set {A} (i : nat) (x : A) (l : list A) : res (list A) :=
  if decide (i < length l) then Ok (<[i:=x]> l) else Err E_index.

(** [enumerate(l)] *)
Definition enumerate {A} (l : list A) : list (nat * A) := imap pair l.

(** [l.count(x)] *)
Definition count `{EqDecision A} (x : A) (l : list A) : nat :=
  length (filter (λ y, y = x) l).

(** [l.index(x)]: the first position holding [x], [ValueError] if none *)
Fixpoint list_index (x : label) (l : list label) : res nat :=
  match l with
  | [] => Err (E_not_in_list x)
  | y :: l' => if decide (y = x) then Ok 0 else S <$> list_index x l'
  end.

(** a [for] loop whose body may raise *)
Fixpoint for_each {A} (body : A → res unit) (l : list A) : res unit :=
  match l with
  | [] => Ok ()
  | x :: l' => body x ≫= λ _, for_each body l'
  end.

(** a list comprehension whose element expression may raise *)
Fixpoint map_res {A B} (f : A → res B) (l : list A) : res (list B) :=
  match l with
  | [] => Ok []
  | x :: l' => y ← f x; ys ← map_res f l'; Ok (y :: ys)
  end.

(** ** The tensor backend

    [shape] and the optional [compatible_indices] method are what the
    planner reads of a tensor; the four operations are the imports of
    [.backend].  An operation returns [None] when the backend raises. *)

Class Backend (Tensor : Type) := {
  shape : Tensor → list nat;
  compatible_indices : Tensor → option (Tensor → nat → nat → bool);
  con : Tensor → Tensor → list nat * list nat → option Tensor;
  trace : Tensor → nat → nat → option Tensor;
  permute : Tensor → list nat → option Tensor;
  expand_dims : Tensor → nat → option Tensor
}.

Definition rank `{Backend Tensor} (A : Tensor) : nat := length (shape A).

(** ** The index validator *)

Section validator.
Context `{Backend Tensor}.

(** [compatible] of check 4: the custom predicate of [L[A0]] when it has
    one ([AttributeError] otherwise), else equality of the axis sizes *)
Definition compatible (L : list Tensor) (A0 ind0 A1 ind1 : nat) : res bool :=
  T0 ← py_get L A0;
  match compatible_indices T0 with
  | Some p => T1 ← py_get L A1; Ok (p T1 ind0 ind1)
  | None =>
      s0 ← py_get (shape T0) ind0;
      T1 ← py_get L A1;
      s1 ← py_get (shape T1) ind1;
      Ok (bool_decide (s0 = s1))
  end.

Definition v_pairs (v : list (list label)) : list (nat * nat) :=
  mjoin (imap (λ i s, (λ j, (i, j)) <$> seq 0 (length s)) v).

Definition order_group (v : list (list label)) (e : label) : list (nat * nat) :=
  (filter (λ to, to.2 = e) (zip (v_pairs v) (mjoin v))).*1.

Definition forder_group (v : list (list label)) (e : label) : list nat :=
  (λ _, 1) <$> filter (λ fo, fo = e) (mjoin v).

Definition check_order_group (L : list Tensor) (e : label)
    (o : list (nat * nat)) : res unit :=
  if decide (length o ≠ 2) then Err (E_not_twice e)
  else
    '(A0, ind0) ← py_get o 0;
    '(A1, ind1) ← py_get o 1;
    c ← compatible L A0 ind0 A1 ind1;
    if negb c then Err (E_incompatible e ind0 A0 ind1 A1) else Ok ().

Definition do_check_indices (L : list Tensor) (v : list (list label))
    (order forder : list label) : res bool :=
  (* 1) *)
  if decide (length L ≠ length v) then Err (E_num_tensors (length L) (length v))
  else
    (* 2) *)
    let shapes := shape <$> L in
    for_each (λ '(i, inds),
        s ← py_get shapes i;
        if decide (length inds ≠ length s) then Err (E_num_indices i) else Ok ())
      (enumerate v);;
    (* 3) and 4) *)
    let order_groups := order_group v <$> order in
    let forder_groups := forder_group v <$> forder in
    for_each (λ '(i, o), e ← py_get order i; check_order_group L e o)
      (enumerate order_groups);;
    for_each (λ '(i, fo),
        if decide (length fo ≠ 1) then e ← py_get forder i; Err (E_free_not_once e)
        else Ok ())
      (enumerate forder_groups);;
    Ok true.
End validator.

(** ** Argument preparation *)

(** An optional [order]/[forder] argument as the caller passes it: omitted,
    something that is not a non-string iterable, or a sequence of labels. *)
Inductive py_arg :=
| PyNone
| PyAtom
| PySeq (l : list label).

(** [indices_are_ints] *)
Definition indices_are_ints (v : list (list label)) : bool :=
  forallb (forallb is_int) v.

(** [[i for i in flat_v if i > 0]] and [[i for i in flat_v if i < 0]]:
    comparing a string with [0] raises [TypeError]. *)
Fixpoint select_ints (keep : Z → bool) (flat_v : list label) : res (list Z) :=
  match flat_v with
  | [] => Ok []
  | LInt z :: l => x ← select_ints keep l; Ok (if keep z then z :: x else x)
  | LStr _ :: _ => Err E_type
  end.

(** [create_order]: [sorted(list(set(x)))] *)
Definition create_order (v : list (list label)) : res (list label) :=
  let flat_v := mjoin v in
  x ← select_ints (λ i, 0 <? i)%Z flat_v;
  let x := elements (list_to_set x : gset Z) in
  Ok (LInt <$> merge_sort Z.le x).

(** [create_forder]: [sorted(list(set(x)), reverse=True)] *)
Definition create_forder (v : list (list label)) : res (list label) :=
  let flat_v := mjoin v in
  x ← select_ints (λ i, i <? 0)%Z flat_v;
  let x := elements (list_to_set x : gset Z) in
  Ok (LInt <$> merge_sort (flip Z.le) x).

Definition preprocess_forder_order (arg : py_arg) (v : list (list label))
    (name : string) : res (list label) :=
  let int_indices := indices_are_ints v in
  match arg with
  | PyNone =>
      if negb int_indices then Err (E_must_specify name)
      else
        let default_creator :=
          if decide (name = "order") then Some create_order
          else if decide (name = "forder") then Some create_forder
          else None in
        match default_creator with
        | Some creator => creator v
        | None => Err E_type
        end
  | PyAtom => Err (E_not_iterable name)
  | PySeq l => Ok l
  end.

(** [preprocess_indices] on a nested list: [v[0]] is read, so an empty [v]
    raises [IndexError]; otherwise every leg list is copied. *)
Definition preprocess_indices (v : list (list label)) : res (list (list label)) :=
  _ ← py_get v 0; Ok v.

(** ** Helper functions of the scheduler *)

(** [get_tcon] *)
Definition get_tcon (v : list (list label)) (index : label) : res (list nat) :=
  let tcon := (filter (λ p, index ∈ p.2) (enumerate v)).*1 in
  let l := length tcon in
  if decide (2 < l) then Err E_tcon_many
  else if decide (l < 1) then Err E_tcon_none
  else if decide (l = 1) then
    t0 ← py_get tcon 0;
    inds ← py_get v t0;
    let how_many := count index inds in
    if decide (how_many ≠ 2) then Err E_tcon_trace else Ok tcon
  else Ok tcon.

(** [get_icon]: the iteration order of a Python set is unspecified; it is
    modelled by the order of [elements]. *)
Definition get_icon (v : list (list label)) (tcon : list nat) : res (list label) :=
  t0 ← py_get tcon 0;
  inds1 ← py_get v t0;
  t1 ← py_get tcon 1;
  inds2 ← py_get v t1;
  let icon : gset label := list_to_set inds1 ∩ list_to_set inds2 in
  Ok (elements icon).

(** [[i for i, x in enumerate(inds) if x == e]] *)
Definition positions (e : label) (inds : list label) : list nat :=
  (filter (λ p, p.2 = e) (enumerate inds)).*1.

(** [get_pos] *)
Definition get_pos (v : list (list label)) (tcon : list nat) (icon : list label)
    : res (list nat * list nat) :=
  pos1 ← map_res (λ e, t0 ← py_get tcon 0; inds ← py_get v t0;
                       Ok (positions e inds)) icon;
  let pos1 : list nat := mjoin pos1 in
  pos2 ← (if decide (length tcon < 2) then Ok []
          else
            pos2 ← map_res (λ e, t1 ← py_get tcon 1; inds ← py_get v t1;
                                 Ok (positions e inds)) icon;
            Ok (mjoin (pos2 : list (list nat))));
  Ok (pos1, pos2).

(** [find_newv] *)
Definition find_newv (v : list (list label)) (tcon : list nat) (icon : list label)
    : res (list label) :=
  newv ← (if decide (length tcon = 2) then
            t0 ← py_get tcon 0; a ← py_get v t0;
            t1 ← py_get tcon 1; b ← py_get v t1;
            Ok (a ++ b)
          else
            t0 ← py_get tcon 0; py_get v t0);
  Ok (filter (λ i, i ∉ icon) newv).

(** [renew_order] *)
Definition renew_order (order icon : list label) : list label :=
  filter (λ i, i ∉ icon) order.

(** ** Connected components

    [set.pop()] removes and returns an arbitrary element: which one is left
    to the implementation, so the choice is a parameter. *)

Class SetPop := {
  set_pop : gset nat → option nat;
  set_pop_Some s x : set_pop s = Some x → x ∈ s;
  set_pop_None s : set_pop s = None → s = ∅
}.

(** the generator [neighs] of [connect_graph] *)
Definition neighs (v : list (list label)) (i_inds : gset label) : list nat :=
  (filter (λ p, i_inds ∩ list_to_set p.2 ≠ ∅) (enumerate v)).*1.

Record bfs := Bfs {
  bfs_unvisited : gset nat;
  bfs_visited : gset nat;
  bfs_component : gset nat;
  bfs_to_visit : gset nat
}.

Section components.
Context `{SetPop}.

(** the inner [while to_visit] loop *)
Fixpoint visit (fuel : nat) (v : list (list label)) (b : bfs) : res bfs :=
  match set_pop (bfs_to_visit b) with
  | None => Ok b
  | Some i =>
      match fuel with
      | 0 => Err E_fuel
      | S fuel =>
          let to_visit := bfs_to_visit b ∖ {[i]} in
          let unvisited := bfs_unvisited b ∖ {[i]} in
          let component := bfs_component b ∪ {[i]} in
          let visited := bfs_visited b ∪ {[i]} in
          inds ← py_get v i;
          let i_inds : gset label := list_to_set inds in
          let new := filter (λ neigh, neigh ∉ visited) (neighs v i_inds) in
          visit fuel v (Bfs unvisited visited component (to_visit ∪ list_to_set new))
      end
  end.

(** the outer [while unvisited] loop; returns [ccomponents] *)
Fixpoint components (fuel : nat) (v : list (list label))
    (unvisited visited : gset nat) (ccomponents : list (gset nat))
    : res (list (gset nat)) :=
  match set_pop unvisited with
  | None => Ok ccomponents
  | Some next_visit =>
      match fuel with
      | 0 => Err E_fuel
      | S fuel =>
          b ← visit (S (length v)) v
                 (Bfs (unvisited ∖ {[next_visit]}) visited ∅ {[next_visit]});
          components fuel v (bfs_unvisited b) (bfs_visited b)
            (ccomponents ++ [bfs_component b])
      end
  end.

End components.

(** [dim_num = 1; while dim_num in order: dim_num += 1] *)
Fixpoint next_dim (fuel : nat) (order : list label) (dim_num : Z) : res Z :=
  if decide (LInt dim_num ∈ order) then
    match fuel with
    | 0 => Err E_fuel
    | S fuel => next_dim fuel order (dim_num + 1)
    end
  else Ok dim_num.

Definition fresh_dim (order : list label) : res Z :=
  next_dim (length order) order 1.

(** ** The network state and the backend calls

    [ncon] owns the lists [L], [v] and [order] and mutates them in place;
    [calls] records every invocation of a backend operation, oldest first. *)

Inductive call {Tensor : Type} :=
| CallCon (A B : Tensor) (pos : list nat * list nat)
| CallTrace (A : Tensor) (axis1 axis2 : nat)
| CallPermute (A : Tensor) (perm : list nat)
| CallExpandDims (A : Tensor) (axis : nat).
Arguments call : clear implicits.

Record state {Tensor : Type} := State {
  st_L : list Tensor;
  st_v : list (list label);
  st_order : list label;
  st_calls : list (call Tensor)
}.
Arguments state : clear implicits.
Arguments State {Tensor} _ _ _ _.

(** Computations over the network state that may raise. *)
Definition M (Tensor A : Type) : Type := state Tensor → res A * state Tensor.

#[global] Instance M_ret {Tensor} : MRet (M Tensor) := λ A a s, (Ok a, s).
#[global] Instance M_bind {Tensor} : MBind (M Tensor) := λ A B f m s,
  match m s with
  | (Ok a, s') => f a s'
  | (Err e, s') => (Err e, s')
  end.

Section planner.
Context `{Backend Tensor} `{SetPop}.

Definition lift {A} (r : res A) : M Tensor A := λ s, (r, s).
Definition get_L : M Tensor (list Tensor) := λ s, (Ok (st_L s), s).
Definition get_v : M Tensor (list (list label)) := λ s, (Ok (st_v s), s).
Definition get_order : M Tensor (list label) := λ s, (Ok (st_order s), s).
Definition put_L (L : list Tensor) : M Tensor unit :=
  λ s, (Ok (), State L (st_v s) (st_order s) (st_calls s)).
Definition put_v (v : list (list label)) : M Tensor unit :=
  λ s, (Ok (), State (st_L s) v (st_order s) (st_calls s)).
Definition put_order (order : list label) : M Tensor unit :=
  λ s, (Ok (), State (st_L s) (st_v s) order (st_calls s)).

(** invoking a backend operation: the call is recorded, then its outcome
    is returned or raised *)
Definition invoke (c : call Tensor) (r : option Tensor) : M Tensor Tensor :=
  λ s, (match r with Some T => Ok T | None => Err E_backend end,
        State (st_L s) (st_v s) (st_order s) (st_calls s ++ [c])).

Definition call_con (A B : Tensor) (pos : list nat * list nat) : M Tensor Tensor :=
  invoke (CallCon A B pos) (con A B pos).
Definition call_trace (A : Tensor) (axis1 axis2 : nat) : M Tensor Tensor :=
  invoke (CallTrace A axis1 axis2) (trace A axis1 axis2).
Definition call_permute (A : Tensor) (perm : list nat) : M Tensor Tensor :=
  invoke (CallPermute A perm) (permute A perm).
Definition call_expand_dims (A : Tensor) (axis : nat) : M Tensor Tensor :=
  invoke (CallExpandDims A axis) (expand_dims A axis).

(** [v[i].append(x)] *)
Definition append_leg (i : nat) (x : label) : M Tensor unit :=
  v ← get_v;
  inds ← lift (py_get v i);
  put_v (<[i := inds ++ [x]]> v).

(** the body of the [while ccomponents] loop of [connect_graph], for the
    component [comp] just popped from [ccomponents] *)
Definition link (c : nat) (comp : gset nat) : M Tensor unit :=
  d ← lift (match set_pop comp with Some d => Ok d | None => Err E_key end);
  L ← get_L;
  v ← get_v;
  A_c ← lift (py_get L c);
  A_d ← lift (py_get L d);
  c_axis ← lift (length <$> py_get v c);
  d_axis ← lift (length <$> py_get v d);
  A_c' ← call_expand_dims A_c c_axis;
  L ← get_L;
  L ← lift (py_set c A_c' L);
  put_L L;;
  A_d' ← call_expand_dims A_d d_axis;
  L ← get_L;
  L ← lift (py_set d A_d' L);
  put_L L;;
  order ← get_order;
  dim_num ← lift (fresh_dim order);
  append_leg c (LInt dim_num);;
  append_leg d (LInt dim_num);;
  order ← get_order;
  put_order (order ++ [LInt dim_num]).

Fixpoint link_all (c : nat) (ccomponents : list (gset nat)) : M Tensor unit :=
  match ccomponents with
  | [] => mret ()
  | comp :: rest => link c comp;; link_all c rest
  end.

(** [connect_graph]: [ccomponents.pop()] takes the last component, so the
    components are linked from the last one backwards. *)
Definition connect_graph : M Tensor unit :=
  L ← get_L;
  v ← get_v;
  let unvisited : gset nat := list_to_set (seq 0 (length L)) in
  ccomponents ← lift (components (length L) v unvisited ∅ []);
  match reverse ccomponents with
  | [] => lift (Err E_index)
  | last :: rest =>
      c ← lift (match set_pop last with Some c => Ok c | None => Err E_key end);
      link_all c rest
  end.

(** [sorted(tcon, reverse=True)] *)
Definition sorted_reverse (tcon : list nat) : list nat :=
  merge_sort (flip le) tcon.

(** [del L[i]; del v[i]] *)
Definition del_tensor (i : nat) : M Tensor unit :=
  L ← get_L;
  L ← lift (py_del i L);
  put_L L;;
  v ← get_v;
  v ← lift (py_del i v);
  put_v v.

Fixpoint del_tensors (l : list nat) : M Tensor unit :=
  match l with
  | [] => mret ()
  | i :: l' => del_tensor i;; del_tensors l'
  end.

(** One iteration of the [while len(order) > 0] loop of [ncon]. *)
Definition step : M Tensor unit :=
  order ← get_order;
  v ← get_v;
  order0 ← lift (py_get order 0);
  tcon ← lift (get_tcon v order0);
  icon ← lift (if decide (length tcon = 1) then Ok [order0] else get_icon v tcon);
  let tracing := bool_decide (length tcon = 1) in
  '(pos1, pos2) ← lift (get_pos v tcon icon);
  L ← get_L;
  new_A ← (if tracing then
             t0 ← lift (py_get tcon 0);
             A ← lift (py_get L t0);
             axis1 ← lift (py_get pos1 0);
             axis2 ← lift (py_get pos1 1);
             call_trace A axis1 axis2
           else
             t0 ← lift (py_get tcon 0);
             A ← lift (py_get L t0);
             t1 ← lift (py_get tcon 1);
             B ← lift (py_get L t1);
             call_con A B (pos1, pos2));
  L ← get_L;
  put_L (L ++ [new_A]);;
  v ← get_v;
  newv ← lift (find_newv v tcon icon);
  put_v (v ++ [newv]);;
  del_tensors (sorted_reverse tcon);;
  order ← get_order;
  put_order (renew_order order icon).

(** The scheduler loop, with an iteration budget. *)
Fixpoint contract (fuel : nat) : M Tensor unit := λ s,
  match st_order s with
  | [] => (Ok (), s)
  | _ :: _ =>
      match fuel with
      | 0 => (Err E_fuel, s)
      | S fuel => (step;; contract fuel) s
      end
  end.

(** [permute_final] *)
Definition permute_final (A : Tensor) (v forder : list label) : M Tensor Tensor :=
  perm ← lift (map_res (λ i, list_index i v) forder);
  call_permute A perm.

(** [do_check_indices] on the network state *)
Definition validate (forder : list label) : M Tensor bool :=
  L ← get_L; v ← get_v; order ← get_order;
  lift (do_check_indices L v order forder).

(** [ncon] after the argument preparation *)
Definition ncon_body (forder : list label) (check_indices : bool) : M Tensor Tensor :=
  (if check_indices then validate forder else mret true);;
  connect_graph;;
  order ← get_order;
  contract (length order);;
  v ← get_v;
  vlast ← lift (py_get v 0);
  L ← get_L;
  A ← lift (py_get L 0);
  permute_final A vlast forder.

(** [ncon]: the result or exception, and the final network state (with the
    backend calls made) when the argument preparation succeeded.  The
    arguments are typed: [L] is a list of tensors, on which
    [preprocess_tensors] is a copy, and [v] is a list of leg lists. *)
Definition ncon (L : list Tensor) (v : list (list label)) (order forder : py_arg)
    (check_indices : bool) : res Tensor * option (state Tensor) :=
  match
    v ← preprocess_indices v;
    order ← preprocess_forder_order order v "order";
    forder ← preprocess_forder_order forder v "forder";
    Ok (v, order, forder)
  with
  | Err e => (Err e, None)
  | Ok (v, order, forder) =>
      let '(r, s) := ncon_body forder check_indices (State L v order []) in
      (r, Some s)
  end.

End planner.

(** ** A shape-level backend

    Tensors are represented by their shapes alone; the four operations
    compute the shape of the result and raise when their precondition
    fails.  No tensor has a custom [compatible_indices]. *)

Module ShapeBackend.

Definition remove_axes (pos : list nat) (A : list nat) : list nat :=
  (filter (λ p, p.1 ∉ pos) (enumerate A)).*2.

Definition axes_ok (pos : list nat) (A : list nat) : bool :=
  bool_decide (NoDup pos ∧ Forall (λ i, i < length A) pos).

Definition sizes (pos : list nat) (A : list nat) : list (option nat) :=
  (λ i, A !! i) <$> pos.

Definition shape_con (A B : list nat) (pos : list nat * list nat) : option (list nat) :=
  if axes_ok pos.1 A && axes_ok pos.2 B
     && bool_decide (sizes pos.1 A = sizes pos.2 B)
  then Some (remove_axes pos.1 A ++ remove_axes pos.2 B) else None.

Definition shape_trace (A : list nat) (axis1 axis2 : nat) : option (list nat) :=
  if axes_ok [axis1; axis2] A && bool_decide (A !! axis1 = A !! axis2)
  then Some (remove_axes [axis1; axis2] A) else None.

Definition shape_permute (A : list nat) (perm : list nat) : option (list nat) :=
  if axes_ok perm A && bool_decide (length perm = length A)
  then Some (omap (λ i, A !! i) perm) else None.

Definition shape_expand_dims (A : list nat) (axis : nat) : option (list nat) :=
  if bool_decide (axis = length A) then Some (A ++ [1]) else None.

#[export] Instance backend : Backend (list nat) := {|
  shape A := A;
  compatible_indices _ := None;
  con := shape_con;
  trace := shape_trace;
  permute := shape_permute;
  expand_dims := shape_expand_dims
|}.

(** [set.pop()] taking the smallest element *)
Definition pop_min (s : gset nat) : option nat := head (merge_sort le (elements s)).

End ShapeBackend.

(** ** The arguments as the caller may pass them

    [ncon] accepts for [L] a single tensor (anything with the attribute
    [shape]) or an iterable of tensors, and for [v] a flat iterable of
    labels or an iterable of iterables of labels.  A flat [v] is one whose
    elements are labels, a nested one has leg lists as elements.  The
    [ValueError] "v must be a non-string Iterable." is [E_not_iterable "v"]. *)

Module Dynamic.

Inductive py_tensors (Tensor : Type) :=
| PyTensor (A : Tensor)
| PyTensors (L : list Tensor).
Arguments PyTensor {Tensor} A.
Arguments PyTensors {Tensor} L.

Inductive py_indices :=
| PyScalar                            (* not an iterable, or a string *)
| PyFlat (l : list label)
| PyNested (l : list (list label)).

(** [is_non_string_iterable] *)
Definition is_non_string_iterable (v : py_indices) : bool :=
  match v with PyScalar => false | PyFlat _ | PyNested _ => true end.

(** [preprocess_tensors] *)
Definition preprocess_tensors {Tensor} (L : py_tensors Tensor) : list Tensor :=
  match L with PyTensor A => [A] | PyTensors L => L end.

(** [preprocess_indices]: [v[0]] is read to tell a flat [v] from a nested
    one, so an empty [v] raises [IndexError] *)
Definition preprocess_indices (v : py_indices) : res (list (list label)) :=
  if negb (is_non_string_iterable v) then Err (E_not_iterable "v")
  else
    match v with
    | PyScalar => Err (E_not_iterable "v")
    | PyFlat l => _ ← py_get l 0; Ok [l]
    | PyNested l => _ ← py_get l 0; Ok l
    end.

(** [ncon] *)
Definition ncon `{Backend Tensor} `{SetPop} (L : py_tensors Tensor)
    (v : py_indices) (order forder : py_arg) (check_indices : bool)
    : res Tensor * option (state Tensor) :=
  let L := preprocess_tensors L in
  match
    v ← preprocess_indices v;
    order ← preprocess_forder_order order v "order";
    forder ← preprocess_forder_order forder v "forder";
    Ok (v, order, forder)
  with
  | Err e => (Err e, None)
  | Ok (v, order, forder) =>
      let '(r, s) := ncon_body forder check_indices (State L v order []) in
      (r, Some s)
  end.

End Dynamic.

(** * Specification

    The notions in which the properties of the planner are stated. *)

(** ** Legs

    A leg is an axis [ind] of the tensor number [A]; [leg v A ind] is the
    label it carries. *)
Definition leg (v : list (list label)) (A ind : nat) : option label :=
  v !! A ≫= λ inds, inds !! ind.

(** the order in which the legs are met when reading [v] from left to right *)
Definition leg_before (p q : nat * nat) : Prop :=
  p.1 < q.1 ∨ (p.1 = q.1 ∧ p.2 < q.2).

(** [v_pairs] for the leg lists numbered from [k] on *)
Definition pairs_from (k : nat) (v : list (list label)) : list (nat * nat) :=
  mjoin (imap (λ i s, (λ j, (k + i, j)) <$> seq 0 (length s)) v).

(** [[i for i, x in enumerate(l) if P x]] *)
Definition select {A : Type} (P : A → Prop) `{!∀ x, Decision (P x)}
    (l : list A) : list nat :=
  (filter (λ p : nat * A, P p.2) (enumerate l)).*1.

(** the leg lists that carry [index] *)
Definition carriers (v : list (list label)) (index : label) : list (list label) :=
  filter (λ inds, index ∈ inds) v.

(** [p] is the position of the first occurrence of [x] in [l] *)
Definition first_occurrence (x : label) (l : list label) (p : nat) : Prop :=
  l !! p = Some x ∧ ∀ q, q < p → l !! q ≠ Some x.

(** every label of the network is an integer *)
Definition all_ints (v : list (list label)) : Prop :=
  ∀ x, x ∈ mjoin v → ∃ z, x = LInt z.

(** the default order: the distinct positive labels, ascending *)
Definition is_default_order (v : list (list label)) (zs : list Z) : Prop :=
  StronglySorted Z.lt zs ∧ ∀ z, z ∈ zs ↔ (0 < z)%Z ∧ LInt z ∈ mjoin v.

(** the default free order: the distinct negative labels, -1 first *)
Definition is_default_forder (v : list (list label)) (zs : list Z) : Prop :=
  StronglySorted Z.gt zs ∧ ∀ z, z ∈ zs ↔ (z < 0)%Z ∧ LInt z ∈ mjoin v.

(** [dim_num] is the smallest positive integer that is not in [order] *)
Definition smallest_unused (order : list label) (dim_num : Z) : Prop :=
  (0 < dim_num)%Z ∧ (LInt dim_num ∉ order)
  ∧ ∀ k, (0 < k < dim_num)%Z → LInt k ∈ order.

(** the positions of the legs of [inds] labelled by an index of [icon],
    grouped by index, as [get_pos] lists them *)
Definition icon_positions (icon inds : list label) : list nat :=
  mjoin ((λ e, positions e inds) <$> icon).

(** ** The tensor graph *)

(** two tensors are adjacent when their leg lists share a label *)
Definition adjacent (v : list (list label)) (i j : nat) : Prop :=
  ∃ x inds_i inds_j,
    v !! i = Some inds_i ∧ v !! j = Some inds_j ∧ x ∈ inds_i ∧ x ∈ inds_j.

(** the graph is connected: any two tensors are joined by a path *)
Definition connected (v : list (list label)) : Prop :=
  ∀ i j, i < length v → j < length v → rtc (adjacent v) i j.

(** the nodes of [v] *)
Definition nodes (v : list (list label)) : gset nat :=
  list_to_set (seq 0 (length v)).

(** the invariant of the inner loop of [connect_graph]: the traversal that
    started at [start] when the visited set was [V0] *)
Record visit_inv (v : list (list label)) (start : nat)
    (V0 universe unvisited0 : gset nat) (b : bfs) : Prop := {
  vi_fresh : bfs_to_visit b ## bfs_visited b;
  vi_visited : bfs_visited b = V0 ∪ bfs_component b;
  vi_new : bfs_component b ## V0;
  vi_reach i : i ∈ bfs_component b ∪ bfs_to_visit b → rtc (adjacent v) start i;
  vi_range i : i ∈ bfs_component b ∪ bfs_to_visit b → i < length v;
  vi_cover : universe ⊆ bfs_unvisited b ∪ bfs_visited b ∪ bfs_to_visit b;
  vi_disj : bfs_unvisited b ## bfs_visited b;
  vi_unvisited : bfs_unvisited b ⊆ unvisited0;
  vi_start : start ∈ bfs_component b ∪ bfs_to_visit b
}.

(** the invariant of the outer loop of [connect_graph] *)
Record components_inv (v : list (list label))
    (universe unvisited visited : gset nat) (ccomponents : list (gset nat))
    : Prop := {
  ci_disj : unvisited ## visited;
  ci_visited : visited = ⋃ ccomponents;
  ci_cover : universe ⊆ unvisited ∪ visited;
  ci_unvisited : unvisited ⊆ universe;
  ci_connected comp i j :
    comp ∈ ccomponents → i ∈ comp → j ∈ comp → rtc (adjacent v) i j;
  ci_range comp i : comp ∈ ccomponents → i ∈ comp → i < length v;
  ci_separate a b A B :
    ccomponents !! a = Some A → ccomponents !! b = Some B → a ≠ b → A ## B;
  ci_nonempty comp : comp ∈ ccomponents → comp ≠ ∅
}.

(** the leg lists after a link of [c] and [d] by the label [x] *)
Definition linked_v (c d : nat) (x : label) (v : list (list label))
    : list (list label) :=
  let v1 := alter (λ inds, inds ++ [x]) c v in
  alter (λ inds, inds ++ [x]) d v1.

(** [v'] has the leg lists of [v], each possibly with further labels *)
Definition extends (v v' : list (list label)) : Prop :=
  length v = length v'
  ∧ ∀ i inds, v !! i = Some inds → ∃ inds', v' !! i = Some inds' ∧ inds ⊆ inds'.

(** a computation that does not stop for lack of budget *)
Definition in_budget {A} (r : res A) : Prop := r ≠ Err E_fuel.

(** [for i in ps: del l[i]] *)
Definition del_positions {A} (ps : list nat) (l : list A) : list A :=
  foldl (λ acc i, delete i acc) l ps.

(** ** Degrees of the labels *)

(** every label is carried by at most two legs, and [order] lists exactly
    the labels carried by two *)
Definition degrees_ok (v : list (list label)) (order : list label) : Prop :=
  ∀ x, count x (mjoin v) ≤ 2 ∧ (x ∈ order ↔ count x (mjoin v) = 2).

(** every positive integer label of the network is in [order] *)
Definition positives_listed (v : list (list label)) (order : list label) : Prop :=
  ∀ z, (0 < z)%Z → LInt z ∈ mjoin v → LInt z ∈ order.

(** what the validator leaves to the caller: [order] lists every label
    carried by more than one leg, and every positive integer label *)
Definition order_covers (v : list (list label)) (order : list label) : Prop :=
  (∀ x, 2 ≤ count x (mjoin v) → x ∈ order) ∧ positives_listed v order.

(** the position, after [del l[a]], of the element that was at [i ≠ a] *)
Definition shift (a i : nat) : nat := if decide (i < a) then i else pred i.

(** the position, before [del l[a]], of the element now at [k] *)
Definition unshift (a k : nat) : nat := if decide (k < a) then k else S k.

(** ** Properties of the network state *)

Section network_spec.
Context `{Backend Tensor}.
Implicit Types s : state Tensor.

(** The two ends of a contracted index do not fit: the custom predicate of
    the first tensor rejects them, or, without such a predicate, the axis
    sizes differ. *)
Definition incompatible (L : list Tensor) (p0 p1 : nat * nat) : Prop :=
  ∃ T0 T1, L !! p0.1 = Some T0 ∧ L !! p1.1 = Some T1 ∧
    match compatible_indices T0 with
    | Some compatible_with => compatible_with T1 p0.2 p1.2 = false
    | None => shape T0 !! p0.2 ≠ shape T1 !! p1.2
    end.

(** The malformed-input classes of the validator. *)
Definition malformed (L : list Tensor) (v : list (list label))
    (order forder : list label) : Prop :=
  length L ≠ length v
  ∨ (∃ i T inds, L !! i = Some T ∧ v !! i = Some inds ∧ length inds ≠ rank T)
  ∨ (∃ e, e ∈ order ∧ count e (mjoin v) ≠ 2)
  ∨ (∃ e p0 p1, e ∈ order ∧ leg v p0.1 p0.2 = Some e ∧ leg v p1.1 p1.2 = Some e
       ∧ leg_before p0 p1 ∧ incompatible L p0 p1)
  ∨ (∃ e, e ∈ forder ∧ count e (mjoin v) ≠ 1).

(** what checks 1 and 2 establish *)
Definition ranks_ok (L : list Tensor) (v : list (list label)) : Prop :=
  ∀ i inds, v !! i = Some inds → ∃ T, L !! i = Some T ∧ length inds = rank T.

(** the network state after one more backend call *)
Definition record_call (c : call Tensor) (s : state Tensor) : state Tensor :=
  State (st_L s) (st_v s) (st_order s) (st_calls s ++ [c]).

(** The network-state invariant: as many leg lists as tensors, and each
    leg list as long as the rank of its tensor. *)
Definition network_inv (L : list Tensor) (v : list (list label)) : Prop :=
  length L = length v
  ∧ ∀ i A inds, L !! i = Some A → v !! i = Some inds → length inds = rank A.

(** The contracts of the backend operations that the invariant relies on:
    [con] rejects axis lists of different lengths and returns a tensor of
    rank [rank A + rank B - 2 * len(axes)]; [trace] returns a tensor of rank
    [rank A - 2]; [expand_dims] returns a tensor of rank [rank A + 1]. *)
Class BackendLaws : Prop := {
  con_rank A B pos C :
    con A B pos = Some C →
    length pos.1 = length pos.2 ∧ rank C + 2 * length pos.1 = rank A + rank B;
  trace_rank A axis1 axis2 C :
    trace A axis1 axis2 = Some C → rank C + 2 = rank A;
  expand_dims_rank A axis C :
    expand_dims A axis = Some C → rank C = S (rank A)
}.

(** a computation on the network state that does not stop for lack of
    budget, in any state *)
Definition runs_in_budget {A} (m : M Tensor A) : Prop :=
  ∀ s, in_budget (m s).1.

(** One link made by [connect_graph] between the tensors [c] and [d]: both
    get a trailing axis from [expand_dims], and the smallest positive
    integer that is not in [order] becomes the last label of both leg lists
    and the last entry of [order]. *)
Definition is_link (c : nat) s s' : Prop :=
  ∃ d A_c A_d vc vd A_c' A_d' dim_num,
    c ≠ d
    ∧ st_L s !! c = Some A_c ∧ st_L s !! d = Some A_d
    ∧ st_v s !! c = Some vc ∧ st_v s !! d = Some vd
    ∧ expand_dims A_c (length vc) = Some A_c'
    ∧ expand_dims A_d (length vd) = Some A_d'
    ∧ smallest_unused (st_order s) dim_num
    ∧ st_calls s' = st_calls s ++ [CallExpandDims A_c (length vc);
                                   CallExpandDims A_d (length vd)]
    ∧ st_L s' = <[d := A_d']> (<[c := A_c']> (st_L s))
    ∧ st_v s' = <[d := vd ++ [LInt dim_num]]>
                  (<[c := vc ++ [LInt dim_num]]> (st_v s))
    ∧ st_order s' = st_order s ++ [LInt dim_num].

(** what the scheduler loop maintains on an input that the validator
    accepted and whose [order] covers the repeated labels *)
Definition loop_inv s : Prop :=
  length (st_L s) = length (st_v s)
  ∧ st_v s ≠ []
  ∧ degrees_ok (st_v s) (st_order s)
  ∧ connected (st_v s).

End network_spec.

Arguments runs_in_budget Tensor {A} m.

(** ** Concrete networks, on the shape-level backend *)

(** the leg lists [[1, -1], [1, -2]] *)
Definition matmul_v : list (list label) :=
  [[LInt 1; LInt (-1)]; [LInt 1; LInt (-2)]].

(** two tensors whose first axes have different sizes *)
Definition mismatched_L : list (list nat) := [[2; 3]; [5; 4]].

(** two tensors whose first axes fit, before and after their contraction *)
Definition matmul_L : list (list nat) := [[2; 3]; [2; 4]].
Definition matmul_state : state (list nat) :=
  State matmul_L matmul_v [LInt 1] [].
Definition matmul_result : state (list nat) :=
  State [[3; 4]] [[LInt (-1); LInt (-2)]] []
        [CallCon [2; 3] [2; 4] ([0], [0])].

(** two vectors that share the label 0, which is neither positive nor
    negative: the default order and the default free order are empty *)
Definition zero_L : list (list nat) := [[2]; [2]].
Definition zero_v : list (list label) := [[LInt 0]; [LInt 0]].
Definition zero_state : state (list nat) := State zero_L zero_v [] [].

(** a vector and a matrix contracted over label 9, and a separate vector;
    the matrix carries the positive label 1 as a free index of size 1 *)
Definition collision_L : list (list nat) := [[3]; [1; 3]; [4]].
Definition collision_v : list (list label) :=
  [[LInt 9]; [LInt 1; LInt 9]; [LInt 8]].
Definition collision_state : state (list nat) :=
  State collision_L collision_v [LInt 9] [].
Definition collision_result : state (list nat) :=
  State [[4; 1]; []] [[LInt 8; LInt 1]; []] []
        [CallExpandDims [4] 1; CallExpandDims [3] 1;
         CallCon [3; 1] [1; 3] ([0; 1], [1; 0])].

(** two matrices without a common label *)
Definition outer_state : state (list nat) :=
  State [[2; 3]; [5; 4]]
        [[LInt (-3); LInt (-1)]; [LInt (-4); LInt (-2)]] [] [].

(** ** Exceptions of the pipeline *)

(** a computation that raises nothing but what the backend raised *)
Definition raises_only_backend {A} (r : res A) : Prop :=
  ∀ e, r = Err e → e = E_backend.

Section pipeline_spec.
Context `{Backend Tensor}.

(** what the backend answers to a call *)
Definition answer (c : call Tensor) : option Tensor :=
  match c with
  | CallCon A B pos => con A B pos
  | CallTrace A axis1 axis2 => trace A axis1 axis2
  | CallPermute A perm => permute A perm
  | CallExpandDims A axis => expand_dims A axis
  end.

Definition is_con_call (c : call Tensor) : bool :=
  match c with CallCon _ _ _ => true | _ => false end.

Definition is_trace_call (c : call Tensor) : bool :=
  match c with CallTrace _ _ _ => true | _ => false end.

Definition is_expand_dims_call (c : call Tensor) : bool :=
  match c with CallExpandDims _ _ => true | _ => false end.

(** the axes passed to the backend exist and are distinct: [con] gets as
    many axes of one tensor as of the other, [trace] two different axes,
    [permute] a permutation of all axes, [expand_dims] the position after
    the last axis *)
Definition axes_valid (c : call Tensor) : Prop :=
  match c with
  | CallCon A B pos =>
      length pos.1 = length pos.2 ∧ NoDup pos.1 ∧ NoDup pos.2
      ∧ Forall (λ p, p < rank A) pos.1 ∧ Forall (λ q, q < rank B) pos.2
  | CallTrace A axis1 axis2 => axis1 < axis2 < rank A
  | CallPermute A perm => perm ≡ₚ seq 0 (rank A)
  | CallExpandDims A axis => axis = rank A
  end.

End pipeline_spec.

(** ** Connected components *)

(** no edge of the tensor graph leaves [comp] *)
Definition closed_component (v : list (list label)) (comp : gset nat) : Prop :=
  ∀ i j, i ∈ comp → adjacent v i j → j ∈ comp.

(** the neighbours of the tensors already put into the component have all
    been met *)
Definition visit_closed (v : list (list label)) (b : bfs) : Prop :=
  ∀ i j, i ∈ bfs_component b → adjacent v i j →
         j ∈ bfs_visited b ∪ bfs_to_visit b.

(** ** Free labels *)

(** every label of [forder] is carried by exactly one leg *)
Definition free_once (v : list (list label)) (forder : list label) : Prop :=
  ∀ x, x ∈ forder → count x (mjoin v) = 1.

(** every label of the network is listed, as contracted or as free *)
Definition labels_listed (v : list (list label)) (order forder : list label)
    : Prop :=
  ∀ x, x ∈ mjoin v → x ∈ order ∨ x ∈ forder.

(** ** A contracted index that passes checks 3 and 4 *)

Section validator_spec.
Context `{Backend Tensor}.


End validator_spec.

(** ** Another choice of [set.pop()] *)

(** [set.pop()] taking the largest element *)
Definition pop_max (s : gset nat) : option nat :=
  head (merge_sort (flip le) (elements s)).

(** * Verification *)

Import ShapeBackend.

Lemma pop_min_Some s x : pop_min s = Some x → x ∈ s.
Proof.
  unfold pop_min. intros Hx.
  apply head_Some_elem_of in Hx. rewrite merge_sort_Permutation in Hx.
  by apply elem_of_elements in Hx.
Qed.

Lemma pop_min_None s : pop_min s = None → s = ∅.
Proof.
  unfold pop_min. intros Hs. apply head_None in Hs.
  apply leibniz_equiv, elements_empty_inv.
  apply Permutation_nil_r. rewrite <- Hs. by rewrite merge_sort_Permutation.
Qed.

#[global] Instance pop_min_SetPop : SetPop := {|
  set_pop := pop_min;
  set_pop_Some := pop_min_Some;
  set_pop_None := pop_min_None
|}.

(** ** The exception monad and the list primitives *)

Lemma py_get_Ok {A} (l : list A) i x : py_get l i = Ok x ↔ l !! i = Some x.
Proof. unfold py_get. destruct (l !! i); naive_solver. Qed.

Lemma py_get_Err {A} (l : list A) i e :
  py_get l i = Err e ↔ e = E_index ∧ length l ≤ i.
Proof.
  unfold py_get. destruct (l !! i) eqn:E.
  - apply lookup_lt_Some in E. split; [done | lia].
  - apply lookup_ge_None in E. naive_solver.
Qed.

Lemma bind_Ok {A B} (m : res A) (f : A → res B) b :
  m ≫= f = Ok b ↔ ∃ a, m = Ok a ∧ f a = Ok b.
Proof. destruct m; simpl; naive_solver. Qed.

Lemma bind_Err {A B} (m : res A) (f : A → res B) e :
  m ≫= f = Err e ↔ m = Err e ∨ ∃ a, m = Ok a ∧ f a = Err e.
Proof. destruct m; simpl; naive_solver. Qed.

Lemma fmap_Ok {A B} (m : res A) (f : A → B) b :
  f <$> m = Ok b ↔ ∃ a, m = Ok a ∧ b = f a.
Proof. destruct m; simpl; naive_solver. Qed.

Lemma for_each_Ok {A} (body : A → res unit) l :
  for_each body l = Ok () ↔ Forall (λ x, body x = Ok ()) l.
Proof.
  induction l as [|x l IH]; simpl.
  - split; [constructor | done].
  - rewrite bind_Ok, Forall_cons, <- IH. split.
    + by intros [[] [? ?]].
    + intros [? ?]. by exists ().
Qed.

Lemma for_each_Err {A} (body : A → res unit) l e :
  for_each body l = Err e → Exists (λ x, body x = Err e) l.
Proof.
  induction l as [|x l IH]; simpl; [done|].
  rewrite bind_Err. intros [?|[[] [? ?]]]; [by left | right; auto].
Qed.

Lemma for_each_cases {A} (body : A → res unit) l :
  for_each body l = Ok () ∨ ∃ e, for_each body l = Err e.
Proof. destruct (for_each body l) as [[]|e]; eauto. Qed.

Lemma map_res_Ok {A B} (f : A → res B) l k :
  map_res f l = Ok k ↔ Forall2 (λ x y, f x = Ok y) l k.
Proof.
  revert k. induction l as [|x l IH]; intros k; simpl.
  - split; [intros [= <-]; constructor | by inversion 1].
  - rewrite bind_Ok. split.
    + intros (y & Hy & Hr). apply bind_Ok in Hr as (ys & Hys & [= <-]).
      constructor; [done | by apply IH].
    + inversion 1 as [|? y ? ys Hy Hys]; subst. exists y. split; [done|].
      apply bind_Ok. exists ys. split; [by apply IH | done].
Qed.

Lemma map_res_Err {A B} (f : A → res B) l e :
  map_res f l = Err e → Exists (λ x, f x = Err e) l.
Proof.
  induction l as [|x l IH]; simpl; [done|].
  rewrite bind_Err. intros [?|(y & Hy & Hr)]; [by left|].
  apply bind_Err in Hr as [?|(? & ? & ?)]; [right; auto | done].
Qed.

Lemma elem_of_enumerate {A} (l : list A) i x :
  (i, x) ∈ enumerate l ↔ l !! i = Some x.
Proof.
  unfold enumerate. rewrite elem_of_lookup_imap. split.
  - by intros (? & ? & [= -> ->] & ?).
  - eauto.
Qed.

Lemma enumerate_lookup {A} (l : list A) i :
  enumerate l !! i = pair i <$> l !! i.
Proof. apply list_lookup_imap. Qed.

Lemma length_enumerate {A} (l : list A) : length (enumerate l) = length l.
Proof. apply length_imap. Qed.

Lemma count_nil `{EqDecision A} (x : A) : count x [] = 0.
Proof. done. Qed.

Lemma count_cons `{EqDecision A} (x y : A) l :
  count x (y :: l) = (if decide (y = x) then 1 else 0) + count x l.
Proof. unfold count. rewrite filter_cons. by case_decide. Qed.

Lemma count_app `{EqDecision A} (x : A) l1 l2 :
  count x (l1 ++ l2) = count x l1 + count x l2.
Proof. unfold count. by rewrite filter_app, length_app. Qed.

Lemma count_pos `{EqDecision A} (x : A) l : 0 < count x l ↔ x ∈ l.
Proof.
  induction l as [|y l IH]; [rewrite elem_of_nil, count_nil; lia|].
  rewrite count_cons, elem_of_cons. case_decide; [naive_solver lia|].
  rewrite <- IH. naive_solver lia.
Qed.

Lemma count_Permutation `{EqDecision A} (x : A) l1 l2 :
  l1 ≡ₚ l2 → count x l1 = count x l2.
Proof. intros E. unfold count. by rewrite E. Qed.

Lemma StronglySorted_sublist {A} (R : relation A) (k l : list A) :
  k `sublist_of` l → StronglySorted R l → StronglySorted R k.
Proof.
  induction 1 as [|x k l Hkl IH|x k l Hkl IH]; intros Hs; [done| |].
  - apply StronglySorted_inv in Hs as [Hs Hall]. constructor; [auto|].
    rewrite Forall_forall in *. intros y Hy. apply Hall.
    by eapply elem_of_sublist.
  - apply StronglySorted_inv in Hs as [Hs _]. auto.
Qed.

Lemma StronglySorted_weaken {A} (R R' : relation A) (l : list A) :
  (∀ a b, R a b → R' a b) → StronglySorted R l → StronglySorted R' l.
Proof.
  intros HR. induction 1 as [|x l Hs IH Hall]; constructor; [done|].
  eapply Forall_impl; [exact Hall | auto].
Qed.

(** ** The legs of a network *)

Lemma v_pairs_from v : v_pairs v = pairs_from 0 v.
Proof. done. Qed.

Lemma pairs_from_cons k s v :
  pairs_from k (s :: v) = ((λ j, (k, j)) <$> seq 0 (length s)) ++ pairs_from (S k) v.
Proof.
  unfold pairs_from. rewrite imap_cons. simpl. rewrite Nat.add_0_r.
  f_equal. f_equal. apply imap_ext. intros i x _. simpl.
  by replace (k + S i) with (S (k + i)) by lia.
Qed.

Lemma length_pairs_from k v : length (pairs_from k v) = length (mjoin v).
Proof.
  revert k. induction v as [|s v IH]; intros k; [done|].
  rewrite pairs_from_cons. simpl.
  by rewrite !length_app, length_fmap, length_seq, IH.
Qed.

Lemma legs_from_cons k s v :
  zip (pairs_from k (s :: v)) (mjoin (s :: v)) =
  zip ((λ j, (k, j)) <$> seq 0 (length s)) s ++ zip (pairs_from (S k) v) (mjoin v).
Proof.
  rewrite pairs_from_cons. simpl. apply zip_with_app.
  by rewrite length_fmap, length_seq.
Qed.

Lemma elem_of_row k (s : list label) (p : nat * nat) x :
  (p, x) ∈ zip ((λ j, (k, j)) <$> seq 0 (length s)) s ↔
  p.1 = k ∧ s !! p.2 = Some x.
Proof.
  rewrite elem_of_lookup_zip_with. split.
  - intros (i & q & y & [= -> ->] & Hq & Hy).
    rewrite list_lookup_fmap in Hq.
    destruct (seq 0 (length s) !! i) as [j|] eqn:Ej; [|done].
    apply lookup_seq in Ej as [-> _]. by injection Hq as <-.
  - destruct p as [a j]. simpl. intros [-> Hx]. exists j, (k, j), x.
    split_and!; [done| |done].
    rewrite list_lookup_fmap, lookup_seq_lt; [done|].
    by eapply lookup_lt_Some.
Qed.

Lemma elem_of_legs_from k v (p : nat * nat) x :
  (p, x) ∈ zip (pairs_from k v) (mjoin v) ↔
  ∃ i, p.1 = k + i ∧ leg v i p.2 = Some x.
Proof.
  revert k. induction v as [|s v IH]; intros k.
  - simpl. rewrite elem_of_nil. split; [done|]. by intros (i & _ & ?).
  - rewrite legs_from_cons, elem_of_app, elem_of_row, IH. split.
    + intros [[-> Hx]|(i & -> & Hx)].
      * exists 0. split; [lia | done].
      * exists (S i). split; [lia | done].
    + intros ([|i] & -> & Hx).
      * left. split; [lia | done].
      * right. exists i. split; [lia | done].
Qed.

Lemma elem_of_legs v (p : nat * nat) x :
  (p, x) ∈ zip (v_pairs v) (mjoin v) ↔ leg v p.1 p.2 = Some x.
Proof.
  rewrite v_pairs_from, elem_of_legs_from. split.
  - by intros (i & -> & ?).
  - intros ?. by exists p.1.
Qed.

Lemma row_sorted k (s : list label) :
  StronglySorted (λ a b : nat * nat * label, leg_before a.1 b.1)
    (zip ((λ j, (k, j)) <$> seq 0 (length s)) s).
Proof.
  assert (∀ o (s : list label),
    StronglySorted (λ a b : nat * nat * label, leg_before a.1 b.1)
      (zip ((λ j, (k, j)) <$> seq o (length s)) s) ∧
    Forall (λ a : nat * nat * label, a.1.1 = k ∧ o ≤ a.1.2)
      (zip ((λ j, (k, j)) <$> seq o (length s)) s)) as Hgen.
  { intros o s'. revert o. induction s' as [|x s' IH]; intros o; simpl.
    - split; constructor.
    - destruct (IH (S o)) as [Hs Hall]. split.
      + constructor; [done|]. eapply Forall_impl; [exact Hall|].
        intros [[a j] y]. simpl. intros [-> ?]. right. simpl. lia.
      + constructor; [simpl; lia|]. eapply Forall_impl; [exact Hall|].
        intros [[a j] y]. simpl. lia. }
  apply Hgen.
Qed.

Lemma legs_from_sorted k v :
  StronglySorted (λ a b : nat * nat * label, leg_before a.1 b.1)
    (zip (pairs_from k v) (mjoin v)).
Proof.
  revert k. induction v as [|s v IH]; intros k; [constructor|].
  rewrite legs_from_cons.
  apply StronglySorted_app_2; [| apply row_sorted | apply IH].
  intros [p x] [q y]. rewrite elem_of_row, elem_of_legs_from.
  simpl. intros [Hp _] (i & Hq & _). left. lia.
Qed.

Lemma length_order_group v e : length (order_group v e) = count e (mjoin v).
Proof.
  unfold order_group, count. rewrite length_fmap.
  assert (length (v_pairs v) = length (mjoin v)) as Hlen
    by (rewrite v_pairs_from; apply length_pairs_from).
  revert Hlen. generalize (v_pairs v) (mjoin v). intros ps xs. revert ps.
  induction xs as [|x xs IH]; intros [|p ps] Hlen; try done.
  simpl in *. rewrite !filter_cons. simpl.
  case_decide; simpl; auto.
Qed.

Lemma length_forder_group v e : length (forder_group v e) = count e (mjoin v).
Proof. unfold forder_group, count. by rewrite length_fmap. Qed.

(** When [e] is carried by exactly two legs, [order_group] returns them, in
    reading order. *)
Lemma order_group_pair v e p0 p1 :
  order_group v e = [p0; p1] →
  leg_before p0 p1 ∧ leg v p0.1 p0.2 = Some e ∧ leg v p1.1 p1.2 = Some e ∧
  ∀ q0 q1, leg v q0.1 q0.2 = Some e → leg v q1.1 q1.2 = Some e →
           leg_before q0 q1 → q0 = p0 ∧ q1 = p1.
Proof.
  unfold order_group. intros Hg.
  set (F := filter (λ to : nat * nat * label, to.2 = e)
              (zip (v_pairs v) (mjoin v))) in *.
  assert (StronglySorted (λ a b : nat * nat * label, leg_before a.1 b.1) F)
    as Hsorted.
  { eapply StronglySorted_sublist; [apply sublist_filter; apply _|].
    rewrite v_pairs_from. apply legs_from_sorted. }
  assert (∀ q, leg v q.1 q.2 = Some e ↔ (q, e) ∈ F) as HF.
  { intros q. unfold F. rewrite list_elem_of_filter, elem_of_legs. naive_solver. }
  assert (Forall (λ to : nat * nat * label, to.2 = e) F) as HFe.
  { apply Forall_forall. intros x Hx. unfold F in Hx.
    by apply list_elem_of_filter in Hx as [? _]. }
  clearbody F.
  destruct F as [|[a0 x0] [|[a1 x1] [|? ?]]]; try done.
  injection Hg as -> ->.
  apply Forall_cons in HFe as [E0 HFe]. apply Forall_cons in HFe as [E1 _].
  simpl in E0, E1. subst x0 x1.
  apply StronglySorted_inv in Hsorted as [_ Hlt].
  apply Forall_cons in Hlt as [Hlt _]. simpl in Hlt.
  split_and!; [done | apply HF; set_solver | apply HF; set_solver |].
  intros q0 q1 H0 H1 Hq. apply HF in H0, H1.
  rewrite !elem_of_cons, elem_of_nil in H0, H1.
  unfold leg_before in *.
  destruct H0 as [[= ->]|[[= ->]|[]]], H1 as [[= ->]|[[= ->]|[]]];
    try done; lia.
Qed.

(** ** The index validator *)

Section validator_correct.
Context `{Backend Tensor}.

Lemma check_ranks_Ok (L : list Tensor) v :
  for_each (λ '(i, inds),
      s ← py_get (shape <$> L) i;
      if decide (length inds ≠ length s) then Err (E_num_indices i) else Ok ())
    (enumerate v) = Ok () ↔ ranks_ok L v.
Proof.
  rewrite for_each_Ok, Forall_forall. unfold ranks_ok. split.
  - intros Hall i inds Hi. specialize (Hall (i, inds)). simpl in Hall.
    apply bind_Ok in Hall as (s & Hs & Hd); [|by apply elem_of_enumerate].
    apply py_get_Ok in Hs. rewrite list_lookup_fmap in Hs.
    destruct (L !! i) as [T|]; [|done]. injection Hs as <-.
    exists T. split; [done|]. case_decide; [done | unfold rank; lia].
  - intros Hr [i inds] Hi. apply elem_of_enumerate in Hi.
    destruct (Hr _ _ Hi) as (T & HT & Hlen). apply bind_Ok. exists (shape T).
    split; [apply py_get_Ok; by rewrite list_lookup_fmap, HT|].
    by case_decide.
Qed.

Lemma compatible_spec (L : list Tensor) v p0 p1 e0 e1 :
  ranks_ok L v →
  leg v p0.1 p0.2 = Some e0 → leg v p1.1 p1.2 = Some e1 →
  ∃ b, compatible L p0.1 p0.2 p1.1 p1.2 = Ok b ∧ (b = false ↔ incompatible L p0 p1).
Proof.
  intros Hr H0 H1. unfold leg in H0, H1.
  destruct (v !! p0.1) as [inds0|] eqn:E0; [|done].
  destruct (v !! p1.1) as [inds1|] eqn:E1; [|done]. simpl in H0, H1.
  destruct (Hr _ _ E0) as (T0 & HT0 & Hlen0).
  destruct (Hr _ _ E1) as (T1 & HT1 & Hlen1).
  apply lookup_lt_Some in H0, H1. unfold rank in *.
  destruct (lookup_lt_is_Some_2 (shape T0) p0.2) as [s0 Hs0]; [lia|].
  destruct (lookup_lt_is_Some_2 (shape T1) p1.2) as [s1 Hs1]; [lia|].
  unfold compatible, incompatible, py_get. rewrite HT0. simpl.
  destruct (compatible_indices T0) as [pred|] eqn:Ec.
  - rewrite HT1. simpl. eexists. split; [done|]. split.
    + intros Hb. exists T0, T1. by rewrite Ec.
    + intros (T0' & T1' & ? & ? & Hm). simplify_eq. by rewrite Ec in Hm.
  - rewrite Hs0. simpl. rewrite HT1. simpl. rewrite Hs1. simpl.
    eexists. split; [done|]. rewrite bool_decide_eq_false. split.
    + intros Hne. exists T0, T1. rewrite Ec, Hs0, Hs1. naive_solver.
    + intros (T0' & T1' & ? & ? & Hm). simplify_eq.
      rewrite Ec, Hs0, Hs1 in Hm. naive_solver.
Qed.

Lemma check_order_group_spec (L : list Tensor) v e :
  ranks_ok L v →
  (check_order_group L e (order_group v e) = Ok () ∧ count e (mjoin v) = 2 ∧
     ¬ ∃ p0 p1, leg v p0.1 p0.2 = Some e ∧ leg v p1.1 p1.2 = Some e
                ∧ leg_before p0 p1 ∧ incompatible L p0 p1)
  ∨ ((∃ err, check_order_group L e (order_group v e) = Err err) ∧
     (count e (mjoin v) ≠ 2 ∨
      ∃ p0 p1, leg v p0.1 p0.2 = Some e ∧ leg v p1.1 p1.2 = Some e
               ∧ leg_before p0 p1 ∧ incompatible L p0 p1)).
Proof.
  intros Hr. unfold check_order_group. rewrite length_order_group.
  case_decide as Hc; [right; eauto|].
  rewrite <- length_order_group in Hc.
  destruct (order_group v e) as [|p0 [|p1 [|? ?]]] eqn:Hg; try done.
  destruct (order_group_pair _ _ _ _ Hg) as (Hlt & H0 & H1 & Huniq).
  destruct (compatible_spec L v p0 p1 e e Hr H0 H1) as (b & Hb & Hinc).
  destruct p0 as [A0 ind0], p1 as [A1 ind1]. simpl in *. rewrite Hb. simpl.
  destruct b; simpl.
  - left. split_and!; [done | by rewrite <- length_order_group, Hg |].
    intros (q0 & q1 & Hq0 & Hq1 & Hq & Hi).
    destruct (Huniq q0 q1 Hq0 Hq1 Hq) as [-> ->].
    by apply Hinc in Hi.
  - right. split; [eauto|]. right. exists (A0, ind0), (A1, ind1).
    split_and!; [done..|]. by apply Hinc.
Qed.

Lemma do_check_indices_Ok L v order forder b :
  do_check_indices L v order forder = Ok b → b = true ∧ ¬ malformed L v order forder.
Proof.
  unfold do_check_indices. case_decide as Hlen; [done|].
  intros Hb.
  apply bind_Ok in Hb as ([] & Hranks & Hb). apply check_ranks_Ok in Hranks.
  apply bind_Ok in Hb as ([] & Horder & Hb).
  apply bind_Ok in Hb as ([] & Hforder & [= <-]).
  split; [done|].
  rewrite for_each_Ok, Forall_forall in Horder.
  rewrite for_each_Ok, Forall_forall in Hforder.
  intros [?|[(i & T & inds & HT & Hi & Hne)|[(e & He & Hc)|[(e & p0 & p1 & He & Hm)|(e & He & Hc)]]]].
  - done.
  - destruct (Hranks _ _ Hi) as (T' & ? & ?). naive_solver.
  - apply list_elem_of_lookup in He as [i Hi].
    specialize (Horder (i, order_group v e)). simpl in Horder.
    rewrite (proj2 (py_get_Ok order i e) Hi) in Horder. simpl in Horder.
    destruct (check_order_group_spec L v e Hranks) as [(_ & ? & _)|[[err Herr] _]];
      [done|].
    rewrite Horder in Herr; [done|].
    apply elem_of_enumerate. by rewrite list_lookup_fmap, Hi.
  - apply list_elem_of_lookup in He as [i Hi].
    specialize (Horder (i, order_group v e)). simpl in Horder.
    rewrite (proj2 (py_get_Ok order i e) Hi) in Horder. simpl in Horder.
    destruct (check_order_group_spec L v e Hranks) as [(_ & _ & Hno)|[[err Herr] _]].
    + apply Hno. eauto.
    + rewrite Horder in Herr; [done|].
      apply elem_of_enumerate. by rewrite list_lookup_fmap, Hi.
  - apply list_elem_of_lookup in He as [i Hi].
    specialize (Hforder (i, forder_group v e)). simpl in Hforder.
    rewrite length_forder_group in Hforder.
    case_decide; [|done].
    rewrite (proj2 (py_get_Ok forder i e) Hi) in Hforder. simpl in Hforder.
    discriminate Hforder.
    apply elem_of_enumerate. by rewrite list_lookup_fmap, Hi.
Qed.

Lemma do_check_indices_Err L v order forder err :
  do_check_indices L v order forder = Err err → malformed L v order forder.
Proof.
  unfold do_check_indices. case_decide as Hlen; [by left|].
  intros Hb.
  destruct (for_each_cases (λ '(i, inds),
      s ← py_get (shape <$> L) i;
      if decide (length inds ≠ length s) then Err (E_num_indices i) else Ok ())
    (enumerate v)) as [Hranks|[e1 Hranks]].
  2:{ right. left. apply for_each_Err, Exists_exists in Hranks
        as ([i inds] & Hi & Hbody).
      apply elem_of_enumerate in Hi.
      destruct (lookup_lt_is_Some_2 L i) as [T HT];
        [rewrite Hlen; by eapply lookup_lt_Some|].
      unfold py_get in Hbody. rewrite list_lookup_fmap, HT in Hbody.
      simpl in Hbody. case_decide; [|done]. by exists i, T, inds. }
  rewrite Hranks in Hb. simpl in Hb. apply check_ranks_Ok in Hranks.
  apply bind_Err in Hb as [Hb|([] & _ & Hb)].
  - apply for_each_Err, Exists_exists in Hb as ([i o] & Hi & Hbody).
    apply elem_of_enumerate in Hi. rewrite list_lookup_fmap in Hi.
    destruct (order !! i) as [e|] eqn:Ee; [|done]. injection Hi as <-.
    rewrite (proj2 (py_get_Ok order i e) Ee) in Hbody. simpl in Hbody.
    assert (e ∈ order) by (by eapply list_elem_of_lookup_2).
    destruct (check_order_group_spec L v e Hranks) as [(Hok & _)|[_ [?|Hm]]].
    + by rewrite Hok in Hbody.
    + right. right. left. eauto.
    + right. right. right. left. destruct Hm as (p0 & p1 & ?). eauto 10.
  - apply bind_Err in Hb as [Hb|([] & _ & ?)]; [|done].
    apply for_each_Err, Exists_exists in Hb as ([i o] & Hi & Hbody).
    apply elem_of_enumerate in Hi. rewrite list_lookup_fmap in Hi.
    destruct (forder !! i) as [e|] eqn:Ee; [|done]. injection Hi as <-.
    rewrite length_forder_group in Hbody. case_decide; [|done].
    right. right. right. right. exists e. split; [|done].
    by eapply list_elem_of_lookup_2.
Qed.

(** C1: [do_check_indices] raises exactly on the malformed inputs (the
    numbers of tensors and of leg lists differ; a leg list whose length is
    not the rank of its tensor; an index of [order] not carried by exactly
    two legs; two legs carrying an index of [order] that are incompatible;
    an index of [forder] not carried by exactly one leg), and returns
    [True] on all others. *)
Theorem do_check_indices_raises_iff L v order forder :
  (raises (do_check_indices L v order forder) ↔ malformed L v order forder)
  ∧ (¬ malformed L v order forder → do_check_indices L v order forder = Ok true).
Proof.
  destruct (do_check_indices L v order forder) as [b|err] eqn:E.
  - apply do_check_indices_Ok in E as [-> Hno]. split; [|done].
    split; [by intros [? ?] | done].
  - apply do_check_indices_Err in E. split; [|done].
    split; [done | intros _; by eexists].
Qed.

End validator_correct.

(** ** Positions selected from an enumeration *)

Lemma fst_enumerate_from {A} (g : nat → nat) (l : list A) :
  (imap (λ i x, (g i, x)) l).*1 = g <$> seq 0 (length l).
Proof.
  revert g. induction l as [|x l IH]; intros g; [done|].
  rewrite imap_cons. simpl. f_equal.
  rewrite <- fmap_S_seq, <- list_fmap_compose. apply (IH (g ∘ S)).
Qed.

Lemma fst_enumerate {A} (l : list A) : (enumerate l).*1 = seq 0 (length l).
Proof.
  unfold enumerate. rewrite (fst_enumerate_from id). apply list_fmap_id.
Qed.

Lemma snd_enumerate {A} (l : list A) : (enumerate l).*2 = l.
Proof.
  apply list_eq. intros i.
  rewrite list_lookup_fmap, enumerate_lookup. by destruct (l !! i).
Qed.

Lemma seq_sorted a n : StronglySorted lt (seq a n).
Proof.
  revert a. induction n as [|n IH]; intros a; simpl; constructor; [done|].
  apply Forall_forall. intros x Hx. apply elem_of_seq in Hx. lia.
Qed.

Section selection.
Context {A : Type} (P : A → Prop) `{!∀ x, Decision (P x)}.

Lemma select_sorted l : StronglySorted lt (select P l).
Proof.
  unfold select. eapply StronglySorted_sublist; [|apply (seq_sorted 0 (length l))].
  rewrite <- fst_enumerate. apply fmap_sublist, sublist_filter; apply _.
Qed.

Lemma elem_of_select l i : i ∈ select P l ↔ ∃ x, l !! i = Some x ∧ P x.
Proof.
  unfold select. rewrite list_elem_of_fmap. split.
  - intros ([j x] & -> & Hin). apply list_elem_of_filter in Hin as [HP Hin].
    apply elem_of_enumerate in Hin. eauto.
  - intros (x & Hx & HP). exists (i, x). split; [done|].
    apply list_elem_of_filter. split; [done | by apply elem_of_enumerate].
Qed.

Lemma selected_values l :
  (filter (λ p : nat * A, P p.2) (enumerate l)).*2 = filter P l.
Proof.
  rewrite <- (snd_enumerate l) at 2. generalize (enumerate l). intros k.
  induction k as [|[i x] k IH]; [done|].
  rewrite fmap_cons, !filter_cons. simpl.
  case_decide; [rewrite fmap_cons; simpl|]; by rewrite IH.
Qed.

Lemma length_select l : length (select P l) = length (filter P l).
Proof. unfold select. by rewrite <- selected_values, !length_fmap. Qed.

Lemma select_singleton l i :
  select P l = [i] → ∃ x, l !! i = Some x ∧ filter P l = [x].
Proof.
  unfold select. intros Hs. rewrite <- selected_values.
  destruct (filter _ (enumerate l)) as [|[j x] [|? ?]] eqn:E; try done.
  injection Hs as ->. exists x. split; [|done].
  apply elem_of_enumerate.
  eapply (list_elem_of_filter (λ p : nat * A, P p.2)). rewrite E. set_solver.
Qed.

End selection.

(** ** The participant lookup [get_tcon] *)

Lemma get_tcon_select v index :
  (filter (λ p : nat * list label, index ∈ p.2) (enumerate v)).*1
  = select (λ inds, index ∈ inds) v.
Proof. done. Qed.

(** C7: [get_tcon] raises when no leg list, or more than two leg lists,
    carry the index, or when a single leg list carries it and not exactly
    twice; otherwise it returns the positions of the one or two leg lists
    carrying the index, in increasing order. *)
Theorem get_tcon_spec v index :
  (raises (get_tcon v index) ↔
     length (carriers v index) = 0 ∨ 2 < length (carriers v index)
     ∨ ∃ inds, carriers v index = [inds] ∧ count index inds ≠ 2)
  ∧ (∀ tcon, get_tcon v index = Ok tcon →
       length tcon = length (carriers v index)
       ∧ StronglySorted lt tcon
       ∧ ∀ i, i ∈ tcon ↔ ∃ inds, v !! i = Some inds ∧ index ∈ inds).
Proof.
  unfold get_tcon, carriers. rewrite get_tcon_select.
  pose proof (length_select (λ inds, index ∈ inds) v) as Hlen.
  pose proof (select_sorted (λ inds, index ∈ inds) v) as Hsorted.
  pose proof (elem_of_select (λ inds, index ∈ inds) v) as Hin.
  pose proof (select_singleton (λ inds, index ∈ inds) v) as Hone.
  set (tcon := select (λ inds, index ∈ inds) v) in *.
  set (cs := filter (λ inds, index ∈ inds) v) in *.
  unfold raises.
  repeat case_decide.
  - split; [|done]. split; [intros _; right; left; lia | by eexists].
  - split; [|done]. split; [intros _; left; lia | by eexists].
  - destruct tcon as [|t0 [|? ?]] eqn:Et; try done.
    destruct (Hone t0 eq_refl) as (inds & Hi & Hcs).
    simpl. unfold py_get. rewrite Hi. simpl. case_decide as Hc.
    + split; [|done]. split; [intros _ | by eexists].
      right. right. exists inds. by rewrite Hcs.
    + split.
      * split; [by intros [? ?]|]. rewrite Hcs.
        intros [?|[?|(inds' & [= <-] & ?)]]; simpl in *; [lia..|done].
      * intros ? [= <-]. auto.
  - split.
    + split; [by intros [? ?]|].
      intros [?|[?|(inds' & Hcs & ?)]]; [lia..|].
      rewrite Hcs in Hlen. simpl in Hlen. lia.
    + intros ? [= <-]. auto.
Qed.

(** The two shapes of a successful participant lookup: a self-trace on one
    tensor, or a contraction of two different tensors. *)
Lemma get_tcon_Ok_cases v index tcon :
  get_tcon v index = Ok tcon →
  (∃ a va, tcon = [a] ∧ v !! a = Some va ∧ count index va = 2
           ∧ ∀ i inds, v !! i = Some inds → index ∈ inds → i = a)
  ∨ (∃ a b va vb, tcon = [a; b] ∧ a < b ∧ v !! a = Some va ∧ v !! b = Some vb
           ∧ index ∈ va ∧ index ∈ vb
           ∧ ∀ i inds, v !! i = Some inds → index ∈ inds → i = a ∨ i = b).
Proof.
  unfold get_tcon. rewrite get_tcon_select.
  pose proof (select_sorted (λ inds, index ∈ inds) v) as Hsorted.
  pose proof (elem_of_select (λ inds, index ∈ inds) v) as Hin.
  destruct (select (λ inds, index ∈ inds) v) as [|a [|b [|? ?]]] eqn:Et;
    simpl; repeat case_decide; try done; try lia.
  - destruct (proj1 (Hin a)) as (va & Ha & Hva); [set_solver|].
    unfold py_get. rewrite Ha. simpl. case_decide as Hc; [done|].
    intros [= <-]. left. exists a, va. split_and!; [done..|].
    intros i inds Hi Hx. assert (i ∈ [a]) by (apply Hin; eauto). set_solver.
  - intros [= <-]. right.
    destruct (proj1 (Hin a)) as (va & Ha & Hva); [set_solver|].
    destruct (proj1 (Hin b)) as (vb & Hb & Hvb); [set_solver|].
    exists a, b, va, vb. split_and!; try done.
    + apply StronglySorted_inv in Hsorted as [_ Hall].
      by apply Forall_cons in Hall as [? _].
    + intros i inds Hi Hx. assert (i ∈ [a; b]) by (apply Hin; eauto). set_solver.
Qed.

(** ** The leg list of a contraction result *)

(** C5: in a contraction step the leg list computed by [find_newv] is, for
    two participants, the leg list of the first followed by the leg list of
    the second, and for a self-trace the leg list of the participant, in
    both cases with the labels of [icon] removed and the other labels kept
    in their order. *)
Theorem find_newv_spec v index tcon icon :
  get_tcon v index = Ok tcon →
  (∃ a va, tcon = [a] ∧ v !! a = Some va
     ∧ find_newv v tcon icon = Ok (filter (λ i, i ∉ icon) va))
  ∨ (∃ a b va vb, tcon = [a; b] ∧ v !! a = Some va ∧ v !! b = Some vb
     ∧ find_newv v tcon icon
       = Ok (filter (λ i, i ∉ icon) va ++ filter (λ i, i ∉ icon) vb)).
Proof.
  intros Ht.
  destruct (get_tcon_Ok_cases _ _ _ Ht)
    as [(a & va & -> & Ha & _)|(a & b & va & vb & -> & _ & Ha & Hb & _)].
  - left. exists a, va. split_and!; [done..|].
    unfold find_newv, py_get. simpl. by rewrite Ha.
  - right. exists a, b, va, vb. split_and!; [done..|].
    unfold find_newv, py_get. simpl. rewrite Ha, Hb. simpl.
    by rewrite filter_app.
Qed.

Lemma find_newv_spec_witness :
  get_tcon matmul_v (LInt 1) = Ok [0; 1]
  ∧ ((∃ a va, [0; 1] = [a] ∧ matmul_v !! a = Some va
        ∧ find_newv matmul_v [0; 1] [LInt 1] = Ok (filter (λ i, i ∉ [LInt 1]) va))
     ∨ (∃ a b va vb, [0; 1] = [a; b] ∧ matmul_v !! a = Some va
        ∧ matmul_v !! b = Some vb
        ∧ find_newv matmul_v [0; 1] [LInt 1]
          = Ok (filter (λ i, i ∉ [LInt 1]) va ++ filter (λ i, i ∉ [LInt 1]) vb))).
Proof.
  split; [vm_compute; reflexivity|].
  apply (find_newv_spec matmul_v (LInt 1)). vm_compute. reflexivity.
Defined.

(** ** The output arranger *)

Lemma list_index_Ok x l p : list_index x l = Ok p ↔ first_occurrence x l p.
Proof.
  unfold first_occurrence. revert p. induction l as [|y l IH]; intros p; simpl.
  - split; [done | by intros [? _]].
  - case_decide as Hy.
    + subst y. split.
      * intros [= <-]. split; [done | lia].
      * intros [Hp Hfirst]. destruct p as [|p]; [done|].
        destruct (Hfirst 0); [lia | done].
    + rewrite fmap_Ok. split.
      * intros (p' & Hp' & ->). apply IH in Hp' as [? Hfirst]. split; [done|].
        intros [|q] ?; simpl; [congruence | apply Hfirst; lia].
      * intros [Hp Hfirst]. destruct p as [|p]; [simpl in Hp; congruence|].
        exists p. split; [|done]. apply IH. split; [done|].
        intros q ?. apply (Hfirst (S q)). lia.
Qed.

Lemma list_index_Err x l e : list_index x l = Err e ↔ e = E_not_in_list x ∧ x ∉ l.
Proof.
  induction l as [|y l IH]; simpl.
  - rewrite elem_of_nil. naive_solver.
  - rewrite not_elem_of_cons. case_decide; [naive_solver|].
    destruct (list_index x l); simpl in *; naive_solver.
Qed.

Section arranger.
Context `{Backend Tensor}.

(** C8: [permute_final] calls the backend [permute] with the permutation
    whose [k]-th entry is the position of the first occurrence of
    [forder[k]] in the leg list [v], and raises "not in list", without
    calling the backend, when a label of [forder] is absent from [v]. *)
Theorem permute_final_spec (A : Tensor) (v forder : list label) (s : state Tensor) :
  (Forall (λ x, x ∈ v) forder →
     ∃ perm, Forall2 (λ x p, first_occurrence x v p) forder perm
       ∧ permute_final A v forder s
         = (match permute A perm with Some T => Ok T | None => Err E_backend end,
            record_call (CallPermute A perm) s))
  ∧ (¬ Forall (λ x, x ∈ v) forder →
     ∃ x, x ∈ forder ∧ (x ∉ v)
       ∧ permute_final A v forder s = (Err (E_not_in_list x), s)).
Proof.
  unfold permute_final.
  destruct (map_res (λ i, list_index i v) forder) as [perm|e] eqn:E.
  - apply map_res_Ok in E. split.
    + intros _. exists perm. split; [|done].
      eapply Forall2_impl; [exact E|]. intros x p. by rewrite list_index_Ok.
    + intros Hno. destruct Hno. apply Forall_forall. intros x Hx.
      apply list_elem_of_lookup in Hx as [k Hk].
      destruct (Forall2_lookup_l _ _ _ _ _ E Hk) as (p & _ & Hp).
      apply list_index_Ok in Hp as [Hp _]. by eapply list_elem_of_lookup_2.
  - apply map_res_Err, Exists_exists in E as (x & Hx & Hex).
    apply list_index_Err in Hex as [-> Hnot]. split.
    + intros Hall. rewrite Forall_forall in Hall. by destruct (Hnot (Hall _ Hx)).
    + intros _. by exists x.
Qed.

End arranger.

Lemma permute_final_spec_witness :
  Forall (λ x, x ∈ [LInt (-2); LInt (-1)]) [LInt (-1); LInt (-2)]
  ∧ ∃ perm,
      Forall2 (λ x p, first_occurrence x [LInt (-2); LInt (-1)] p)
        [LInt (-1); LInt (-2)] perm
      ∧ permute_final [3; 4]
          [LInt (-2); LInt (-1)] [LInt (-1); LInt (-2)] (State [] [] [] [])
        = (match permute (Tensor := list nat) [3; 4] perm with
           | Some T => Ok T | None => Err E_backend end,
           record_call (CallPermute [3; 4] perm) (State [] [] [] [])).
Proof.
  assert (Forall (λ x, x ∈ [LInt (-2); LInt (-1)]) [LInt (-1); LInt (-2)]) as Hall
    by (repeat constructor).
  split; [exact Hall|].
  exact (proj1 (permute_final_spec (Tensor := list nat) [3; 4]
                  [LInt (-2); LInt (-1)] [LInt (-1); LInt (-2)]
                  (State [] [] [] [])) Hall).
Defined.

(** ** Default contraction order and default free order *)

Lemma indices_are_ints_true v : indices_are_ints v = true ↔ all_ints v.
Proof.
  unfold indices_are_ints, all_ints. rewrite forallb_forall. split.
  - intros Hall x Hx. apply list_elem_of_join in Hx as (inds & Hx & Hinds).
    apply list_elem_of_In in Hinds. specialize (Hall _ Hinds).
    rewrite forallb_forall in Hall. apply list_elem_of_In in Hx.
    specialize (Hall _ Hx). destruct x; [eauto | done].
  - intros Hall inds Hinds. apply forallb_forall. intros x Hx.
    apply list_elem_of_In in Hinds, Hx.
    destruct (Hall x) as [z ->]; [|done].
    apply list_elem_of_join. eauto.
Qed.

Lemma select_ints_spec keep flat_v :
  (∀ x, x ∈ flat_v → ∃ z, x = LInt z) →
  ∃ x, select_ints keep flat_v = Ok x
       ∧ ∀ z, z ∈ x ↔ keep z = true ∧ LInt z ∈ flat_v.
Proof.
  induction flat_v as [|y l IH]; intros Hint.
  - exists []. split; [done|]. intros z. rewrite !elem_of_nil. naive_solver.
  - destruct IH as (x & Hx & Hin); [intros; apply Hint; by right|].
    destruct (Hint y) as [z0 ->]; [by left|]. simpl. rewrite Hx. simpl.
    eexists. split; [done|]. intros z. rewrite elem_of_cons.
    destruct (keep z0) eqn:Ek.
    + rewrite elem_of_cons, Hin. split.
      * intros [->|[? ?]]; auto.
      * intros [? [[= ->]|?]]; auto.
    + rewrite Hin. split.
      * intros [? ?]; auto.
      * intros [? [[= ->]|?]]; [congruence | auto].
Qed.

Lemma sorted_distinct (R : relation Z) (l : list Z) :
  StronglySorted R l → NoDup l → StronglySorted (λ a b, R a b ∧ a ≠ b) l.
Proof.
  induction 1 as [|x l Hs IH Hall]; intros Hnd; [constructor|].
  apply NoDup_cons in Hnd as [Hx Hnd]. constructor; [auto|].
  rewrite Forall_forall in *. intros y Hy. split; [auto|]. set_solver.
Qed.

#[local] Instance flip_Zle_total : Total (flip Z.le).
Proof. intros x y. unfold flip. lia. Qed.

Lemma sorted_set_spec (R : relation Z) `{!∀ x y, Decision (R x y)}
    `{!Transitive R, !Total R} (x : list Z) :
  StronglySorted (λ a b, R a b ∧ a ≠ b)
    (merge_sort R (elements (list_to_set x : gset Z)))
  ∧ ∀ z, z ∈ merge_sort R (elements (list_to_set x : gset Z)) ↔ z ∈ x.
Proof.
  split.
  - apply sorted_distinct; [by apply StronglySorted_merge_sort|].
    rewrite merge_sort_Permutation. apply NoDup_elements.
  - intros z. by rewrite merge_sort_Permutation, elem_of_elements,
      elem_of_list_to_set.
Qed.

Lemma create_order_spec v :
  all_ints v → ∃ zs, create_order v = Ok (LInt <$> zs) ∧ is_default_order v zs.
Proof.
  intros Hint. unfold create_order.
  destruct (select_ints_spec (λ i, 0 <? i)%Z (mjoin v) Hint) as (x & -> & Hx).
  simpl. eexists. split; [done|].
  destruct (sorted_set_spec Z.le x) as [Hs Hin]. split.
  - eapply StronglySorted_weaken; [|exact Hs]. intros a b. simpl. lia.
  - intros z. rewrite Hin, Hx. by rewrite Z.ltb_lt.
Qed.

Lemma create_forder_spec v :
  all_ints v → ∃ zs, create_forder v = Ok (LInt <$> zs) ∧ is_default_forder v zs.
Proof.
  intros Hint. unfold create_forder.
  destruct (select_ints_spec (λ i, i <? 0)%Z (mjoin v) Hint) as (x & -> & Hx).
  simpl. eexists. split; [done|].
  destruct (sorted_set_spec (flip Z.le) x) as [Hs Hin]. split.
  - eapply StronglySorted_weaken; [|exact Hs]. intros a b. unfold flip. simpl. lia.
  - intros z. rewrite Hin, Hx. by rewrite Z.ltb_lt.
Qed.

Section defaults.
Context `{Backend Tensor} `{SetPop}.

Lemma preprocess_indices_Ok v v' : preprocess_indices v = Ok v' → v' = v.
Proof.
  unfold preprocess_indices. destruct (py_get v 0); simpl; congruence.
Qed.

Lemma ncon_unfold (L : list Tensor) v order forder c :
  ncon L v order forder c =
  match preprocess_indices v with
  | Err e => (Err e, None)
  | Ok v' =>
      match preprocess_forder_order order v' "order" with
      | Err e => (Err e, None)
      | Ok order' =>
          match preprocess_forder_order forder v' "forder" with
          | Err e => (Err e, None)
          | Ok forder' =>
              let '(r, s) := ncon_body forder' c (State L v' order' []) in
              (r, Some s)
          end
      end
  end.
Proof.
  unfold ncon. destruct (preprocess_indices v) as [v'|]; [|done].
  cbn [mbind res_bind].
  destruct (preprocess_forder_order order v' "order"); [|done].
  cbn [mbind res_bind].
  by destruct (preprocess_forder_order forder v' "forder").
Qed.

(** C6: with integer labels, omitting [order] is the same as passing the
    distinct positive labels in ascending order, and omitting [forder] is
    the same as passing the distinct negative labels in the order -1, -2,
    ...; with a label that is not an integer, [ncon] raises whenever
    [order] or [forder] is omitted. *)
Theorem ncon_defaults (v : list (list label)) :
  (all_ints v →
     ∃ zs fs, is_default_order v zs ∧ is_default_forder v fs
       ∧ preprocess_forder_order PyNone v "order" = Ok (LInt <$> zs)
       ∧ preprocess_forder_order PyNone v "forder" = Ok (LInt <$> fs)
       ∧ ∀ (L : list Tensor) order forder c,
           ncon L v PyNone forder c = ncon L v (PySeq (LInt <$> zs)) forder c
           ∧ ncon L v order PyNone c = ncon L v order (PySeq (LInt <$> fs)) c)
  ∧ (¬ all_ints v →
     ∀ (L : list Tensor) order forder c,
       (∃ e, ncon L v PyNone forder c = (Err e, None))
       ∧ (∃ e, ncon L v order PyNone c = (Err e, None))).
Proof.
  split.
  - intros Hint.
    destruct (create_order_spec v Hint) as (zs & Hzs & Hord).
    destruct (create_forder_spec v Hint) as (fs & Hfs & Hford).
    assert (preprocess_forder_order PyNone v "order" = Ok (LInt <$> zs)) as Ho.
    { unfold preprocess_forder_order.
      by rewrite (proj2 (indices_are_ints_true v) Hint). }
    assert (preprocess_forder_order PyNone v "forder" = Ok (LInt <$> fs)) as Hf.
    { unfold preprocess_forder_order.
      by rewrite (proj2 (indices_are_ints_true v) Hint). }
    exists zs, fs. split_and!; [done..|].
    intros L order forder c. rewrite !ncon_unfold.
    destruct (preprocess_indices v) as [v'|] eqn:Ev; [|done].
    apply preprocess_indices_Ok in Ev as ->.
    rewrite Ho, Hf. split; [done|].
    by destruct (preprocess_forder_order order v "order").
  - intros Hno L order forder c.
    assert (indices_are_ints v = false) as Hb.
    { destruct (indices_are_ints v) eqn:E; [|done].
      by apply indices_are_ints_true in E. }
    assert (∀ name, preprocess_forder_order PyNone v name
                    = Err (E_must_specify name)) as Hnone.
    { intros name. unfold preprocess_forder_order. by rewrite Hb. }
    rewrite !ncon_unfold.
    destruct (preprocess_indices v) as [v'|] eqn:Ev; [|by eauto].
    apply preprocess_indices_Ok in Ev as ->.
    rewrite !Hnone. split; [by eauto|].
    destruct (preprocess_forder_order order v "order"); by eauto.
Qed.

End defaults.

Lemma ncon_defaults_witness :
  all_ints matmul_v
  ∧ preprocess_forder_order PyNone matmul_v "order" = Ok [LInt 1]
  ∧ preprocess_forder_order PyNone matmul_v "forder" = Ok [LInt (-1); LInt (-2)]
  ∧ ∃ zs fs, is_default_order matmul_v zs ∧ is_default_forder matmul_v fs
       ∧ preprocess_forder_order PyNone matmul_v "order" = Ok (LInt <$> zs)
       ∧ preprocess_forder_order PyNone matmul_v "forder" = Ok (LInt <$> fs)
       ∧ ∀ (L : list (list nat)) order forder c,
           ncon L matmul_v PyNone forder c
           = ncon L matmul_v (PySeq (LInt <$> zs)) forder c
           ∧ ncon L matmul_v order PyNone c
             = ncon L matmul_v order (PySeq (LInt <$> fs)) c.
Proof.
  assert (all_ints matmul_v) as Hint
    by (apply indices_are_ints_true; vm_compute; reflexivity).
  split; [exact Hint|].
  split; [vm_compute; reflexivity|].
  split; [vm_compute; reflexivity|].
  exact (proj1 (ncon_defaults (Tensor := list nat) matmul_v) Hint).
Defined.

(** ** The validator inside [ncon] *)

Section validator_first.
Context `{Backend Tensor} `{SetPop}.

Lemma validate_read_only (forder : list label) (s : state Tensor) :
  validate forder s
  = (do_check_indices (st_L s) (st_v s) (st_order s) forder, s).
Proof. done. Qed.

(** C9: on a malformed input [ncon], called with [check_indices] enabled,
    raises the validator's exception with no backend operation invoked and
    with [L], [v] and [order] as the argument preparation left them; the
    validator never changes the network state. *)
Theorem ncon_malformed_raises_first (L : list Tensor) v order forder order' forder' :
  v ≠ [] →
  preprocess_forder_order order v "order" = Ok order' →
  preprocess_forder_order forder v "forder" = Ok forder' →
  malformed L v order' forder' →
  (∃ e, do_check_indices L v order' forder' = Err e
        ∧ ncon L v order forder true = (Err e, Some (State L v order' [])))
  ∧ ∀ s : state Tensor, (validate forder' s).2 = s.
Proof.
  intros Hv Ho Hf Hm. split; [|done].
  destruct (do_check_indices L v order' forder') as [b|e] eqn:E.
  { apply do_check_indices_Ok in E as [_ Hno]. by destruct Hno. }
  exists e. split; [done|]. rewrite ncon_unfold.
  assert (preprocess_indices v = Ok v) as ->.
  { unfold preprocess_indices, py_get. by destruct v. }
  rewrite Ho, Hf. unfold ncon_body.
  change (validate forder' ≫= _) with
    (λ s, match validate forder' s with
          | (Ok a, s') => (λ _ : bool, connect_graph ≫= λ _,
                             get_order ≫= λ order0,
                             contract (length order0) ≫= λ _,
                             get_v ≫= λ v0, lift (py_get v0 0) ≫= λ vlast,
                             get_L ≫= λ L0, lift (py_get L0 0) ≫= λ A,
                             permute_final A vlast forder') a s'
          | (Err e, s') => (Err e, s')
          end).
  cbv beta. rewrite validate_read_only. simpl. by rewrite E.
Qed.

End validator_first.

Lemma ncon_malformed_witness_malformed :
  malformed mismatched_L matmul_v [LInt 1] [LInt (-1); LInt (-2)].
Proof.
  right. right. right. left. exists (LInt 1), (0, 0), (1, 0).
  split_and!; [set_solver | done | done | left; simpl; lia |].
  exists [2; 3], [5; 4]. split_and!; done.
Qed.

Lemma ncon_malformed_raises_first_witness :
  ncon mismatched_L matmul_v PyNone PyNone true
  = (Err (E_incompatible (LInt 1) 0 0 0 1),
     Some (State mismatched_L matmul_v [LInt 1] [])).
Proof.
  destruct (ncon_malformed_raises_first mismatched_L matmul_v PyNone PyNone
              [LInt 1] [LInt (-1); LInt (-2)])
    as [(e & He & ->) _].
  - done.
  - vm_compute. reflexivity.
  - vm_compute. reflexivity.
  - exact ncon_malformed_witness_malformed.
  - vm_compute in He. injection He as <-. reflexivity.
Defined.

(** ** What the validator does not check *)

(** C10: the validator accepts a network in which a label is carried by
    two legs and is listed neither in [order] nor in [forder]: the
    occurrences are counted for the listed labels only. *)
Theorem validator_ignores_unlisted_label :
  ∃ (L : list (list nat)) v order forder x,
    count x (mjoin v) = 2 ∧ (x ∉ order) ∧ (x ∉ forder)
    ∧ do_check_indices L v order forder = Ok true.
Proof.
  exists [[2]; [2]], [[LInt 0]; [LInt 0]], [], [], (LInt 0).
  split_and!; [done | set_solver | set_solver | vm_compute; reflexivity].
Qed.

(** ** Fresh labels *)

Lemma next_dim_Ok fuel order start dim_num :
  next_dim fuel order start = Ok dim_num →
  (start ≤ dim_num)%Z ∧ (LInt dim_num ∉ order)
  ∧ ∀ k, (start ≤ k < dim_num)%Z → LInt k ∈ order.
Proof.
  revert start. induction fuel as [|fuel IH]; intros start; simpl.
  - case_decide; [done|]. intros [= <-]. split_and!; [lia | done | lia].
  - case_decide as Hin.
    + intros Hn. apply IH in Hn as (? & ? & Hbelow). split_and!; [lia | done |].
      intros k ?. destruct (decide (k = start)) as [->|]; [done|].
      apply Hbelow. lia.
    + intros [= <-]. split_and!; [lia | done | lia].
Qed.

Lemma next_dim_fuel fuel order start :
  (∀ e, next_dim fuel order start = Err e →
     e = E_fuel ∧ ∀ k, (start ≤ k ≤ start + Z.of_nat fuel)%Z → LInt k ∈ order).
Proof.
  revert start. induction fuel as [|fuel IH]; intros start e; simpl.
  - case_decide; [|done]. intros [= <-]. split; [done|].
    intros k ?. by replace k with start by lia.
  - case_decide as Hin; [|done]. intros He.
    apply IH in He as [-> Hall]. split; [done|].
    intros k ?. destruct (decide (k = start)) as [->|]; [done|].
    apply Hall. lia.
Qed.

Lemma fresh_dim_spec order :
  ∃ dim_num, fresh_dim order = Ok dim_num ∧ smallest_unused order dim_num.
Proof.
  unfold fresh_dim, smallest_unused.
  destruct (next_dim (length order) order 1) as [d|e] eqn:E.
  - exists d. split; [done|]. apply next_dim_Ok in E as (? & ? & ?).
    split_and!; [lia | done |]. intros k ?. auto with lia.
  - apply next_dim_fuel in E as [_ Hall]. exfalso.
    set (ks := (λ i : nat, LInt (1 + Z.of_nat i)) <$> seq 0 (S (length order))).
    assert (ks ⊆+ order) as Hsub.
    { apply NoDup_submseteq.
      - apply NoDup_fmap_2; [|apply NoDup_seq].
        intros i j [=]. lia.
      - intros x Hx. apply list_elem_of_fmap in Hx as (i & -> & Hi).
        apply elem_of_seq in Hi. apply Hall. lia. }
    apply submseteq_length in Hsub. unfold ks in Hsub.
    rewrite length_fmap, length_seq in Hsub. lia.
Qed.

Lemma smallest_unused_unique order d1 d2 :
  smallest_unused order d1 → smallest_unused order d2 → d1 = d2.
Proof.
  intros (? & Hn1 & Hb1) (? & Hn2 & Hb2).
  destruct (Z.lt_trichotomy d1 d2) as [?|[?|?]]; [|done|].
  - destruct Hn1. apply Hb2. lia.
  - destruct Hn2. apply Hb1. lia.
Qed.

(** ** Running computations on the network state *)

Section run.
Context {Tensor : Type}.
Implicit Types s : state Tensor.

Lemma run_bind {A B} (m : M Tensor A) (f : A → M Tensor B) s :
  (m ≫= f) s = match m s with
               | (Ok a, s') => f a s'
               | (Err e, s') => (Err e, s')
               end.
Proof. done. Qed.

Lemma run_bind_Ok {A B} (m : M Tensor A) (f : A → M Tensor B) s b s'' :
  (m ≫= f) s = (Ok b, s'') ↔ ∃ a s', m s = (Ok a, s') ∧ f a s' = (Ok b, s'').
Proof.
  rewrite run_bind. destruct (m s) as [[a|e] s']; naive_solver.
Qed.

Lemma run_ret {A} (a : A) s : (mret a : M Tensor A) s = (Ok a, s).
Proof. done. Qed.

End run.

Ltac run_inv :=
  repeat match goal with
  | H : (_ ≫= _) _ = (Ok _, _) |- _ =>
      apply run_bind_Ok in H as (? & ? & ? & ?)
  | H : (let '(_, _) := ?a in _) _ = _ |- _ => destruct a
  | H : lift _ _ = (Ok _, _) |- _ => unfold lift in H; injection H as ? ?
  | H : invoke _ _ _ = (Ok _, _) |- _ => unfold invoke in H; injection H as ? ?
  | H : get_L _ = (Ok _, _) |- _ => unfold get_L in H; injection H as ? ?
  | H : get_v _ = (Ok _, _) |- _ => unfold get_v in H; injection H as ? ?
  | H : get_order _ = (Ok _, _) |- _ => unfold get_order in H; injection H as ? ?
  | H : put_L _ _ = (Ok _, _) |- _ => unfold put_L in H; injection H as ?
  | H : put_v _ _ = (Ok _, _) |- _ => unfold put_v in H; injection H as ?
  | H : put_order _ _ = (Ok _, _) |- _ => unfold put_order in H; injection H as ?
  | H : mret _ _ = (Ok _, _) |- _ => rewrite run_ret in H; injection H as ? ?
  | H : py_get _ _ = Ok _ |- _ => apply py_get_Ok in H
  end; simplify_eq/=.

Ltac run_get H :=
  unfold get_order, get_v, get_L in H; injection H as <- <-.
Ltac run_lift H := unfold lift in H; injection H as H <-.
Ltac run_put H := unfold put_order, put_v, put_L in H; injection H as <-.

Section scheduler_step.
Context `{Backend Tensor}.
Implicit Types s : state Tensor.

Lemma delete_app_lt {A} (l k : list A) i :
  i < length l → delete i (l ++ k) = delete i l ++ k.
Proof.
  revert i. induction l as [|x l IH]; intros [|i] ?; simpl in *; try lia; [done|].
  f_equal. apply IH. lia.
Qed.

Lemma sorted_reverse_pair a b : a < b → sorted_reverse [a; b] = [b; a].
Proof.
  intros ?. unfold sorted_reverse, merge_sort. simpl.
  unfold flip. repeat case_decide; try done; lia.
Qed.

Lemma del_tensor_Ok i s s' :
  del_tensor i s = (Ok (), s') ↔
  i < length (st_L s) ∧ i < length (st_v s)
  ∧ s' = State (delete i (st_L s)) (delete i (st_v s)) (st_order s) (st_calls s).
Proof.
  unfold del_tensor. split.
  - intros Hd. run_inv. unfold py_del in *. repeat case_decide; simplify_eq.
    done.
  - intros (? & ? & ->).
    unfold mbind, M_bind, get_L, get_v, lift, put_L, put_v, py_del. simpl.
    by rewrite !decide_True by done.
Qed.

Lemma get_pos_side (v : list (list label)) tcon k t inds icon :
  tcon !! k = Some t → v !! t = Some inds →
  map_res (λ e, t ← py_get tcon k; inds ← py_get v t; Ok (positions e inds)) icon
  = Ok ((λ e, positions e inds) <$> icon).
Proof.
  intros Ht Hi. apply map_res_Ok. apply Forall2_fmap_r, Forall_Forall2_diag.
  apply Forall_forall. intros e _. unfold py_get. by rewrite Ht; simpl; rewrite Hi.
Qed.

Lemma get_pos_trace (v : list (list label)) a va icon :
  v !! a = Some va → get_pos v [a] icon = Ok (icon_positions icon va, []).
Proof.
  intros Ha. unfold get_pos.
  rewrite (get_pos_side _ [a] 0 a va) by done. by cbn.
Qed.

Lemma get_pos_pair (v : list (list label)) a b va vb icon :
  v !! a = Some va → v !! b = Some vb →
  get_pos v [a; b] icon = Ok (icon_positions icon va, icon_positions icon vb).
Proof.
  intros Ha Hb. unfold get_pos.
  rewrite (get_pos_side _ [a; b] 0 a va) by done.
  rewrite (get_pos_side _ [a; b] 1 b vb) by done. by cbn.
Qed.

Lemma get_icon_pair (v : list (list label)) a b va vb :
  v !! a = Some va → v !! b = Some vb →
  get_icon v [a; b] = Ok (elements (list_to_set va ∩ list_to_set vb : gset label)).
Proof. intros Ha Hb. unfold get_icon, py_get. cbn. rewrite Ha. cbn. by rewrite Hb. Qed.

Lemma find_newv_trace (v : list (list label)) a va icon :
  v !! a = Some va → find_newv v [a] icon = Ok (filter (λ i, i ∉ icon) va).
Proof. intros Ha. unfold find_newv, py_get. cbn. by rewrite Ha. Qed.

Lemma find_newv_pair (v : list (list label)) a b va vb icon :
  v !! a = Some va → v !! b = Some vb →
  find_newv v [a; b] icon
  = Ok (filter (λ i, i ∉ icon) va ++ filter (λ i, i ∉ icon) vb).
Proof.
  intros Ha Hb. unfold find_newv, py_get. cbn. rewrite Ha. cbn. rewrite Hb. cbn.
  by rewrite <- filter_app.
Qed.

(** One iteration of the scheduler, when it does not raise: a self-trace of
    the tensor at position [a], or a contraction of the tensors at
    positions [a < b]. *)
Lemma step_inv s s' :
  step s = (Ok (), s') →
  ∃ idx rest, st_order s = idx :: rest ∧
  ((∃ a va A ax1 ax2 new_A,
      get_tcon (st_v s) idx = Ok [a]
      ∧ st_v s !! a = Some va ∧ st_L s !! a = Some A
      ∧ count idx va = 2
      ∧ icon_positions [idx] va !! 0 = Some ax1
      ∧ icon_positions [idx] va !! 1 = Some ax2
      ∧ trace A ax1 ax2 = Some new_A
      ∧ s' = State (delete a (st_L s) ++ [new_A])
                   (delete a (st_v s) ++ [filter (λ i, i ∉ [idx]) va])
                   (renew_order (st_order s) [idx])
                   (st_calls s ++ [CallTrace A ax1 ax2]))
   ∨ (∃ a b va vb A B new_A icon,
      get_tcon (st_v s) idx = Ok [a; b] ∧ a < b
      ∧ st_v s !! a = Some va ∧ st_v s !! b = Some vb
      ∧ st_L s !! a = Some A ∧ st_L s !! b = Some B
      ∧ icon = elements (list_to_set va ∩ list_to_set vb : gset label)
      ∧ con A B (icon_positions icon va, icon_positions icon vb) = Some new_A
      ∧ s' = State (delete a (delete b (st_L s)) ++ [new_A])
                   (delete a (delete b (st_v s))
                      ++ [filter (λ i, i ∉ icon) va ++ filter (λ i, i ∉ icon) vb])
                   (renew_order (st_order s) icon)
                   (st_calls s ++ [CallCon A B (icon_positions icon va,
                                                icon_positions icon vb)]))).
Proof.
  unfold step. intros Hs.
  apply run_bind_Ok in Hs as (order & s1 & Ho & Hs). run_get Ho.
  apply run_bind_Ok in Hs as (v & s2 & Hv & Hs). run_get Hv.
  apply run_bind_Ok in Hs as (idx & s3 & Hidx & Hs). run_lift Hidx.
  apply run_bind_Ok in Hs as (tcon & s4 & Htcon & Hs). run_lift Htcon.
  apply run_bind_Ok in Hs as (icon & s5 & Hicon & Hs). run_lift Hicon.
  apply run_bind_Ok in Hs as ([pos1 pos2] & s6 & Hpos & Hs). run_lift Hpos.
  apply run_bind_Ok in Hs as (L & s7 & HL & Hs). run_get HL.
  apply run_bind_Ok in Hs as (new_A & s8 & Hnew & Hs).
  apply run_bind_Ok in Hs as (L' & s9 & HL' & Hs). run_get HL'.
  apply run_bind_Ok in Hs as ([] & s10 & HputL & Hs). run_put HputL.
  apply run_bind_Ok in Hs as (v' & s11 & Hv' & Hs). run_get Hv'.
  apply run_bind_Ok in Hs as (newv & s12 & Hnewv & Hs). run_lift Hnewv.
  apply run_bind_Ok in Hs as ([] & s13 & Hputv & Hs). run_put Hputv.
  apply run_bind_Ok in Hs as ([] & s14 & Hdel & Hs).
  apply run_bind_Ok in Hs as (order' & s15 & Ho' & Hs). run_get Ho'.
  run_put Hs. cbn [st_L st_v st_order st_calls] in *.
  apply py_get_Ok in Hidx.
  destruct (st_order s) as [|idx' rest] eqn:Eo; [done|].
  injection Hidx as ->. exists idx, rest. split; [done|].
  destruct (get_tcon_Ok_cases _ _ _ Htcon)
    as [(a & va & -> & Ha & Hc & _)|(a & b & va & vb & -> & Hab & Ha & Hb & _)].
  - left.
    rewrite (get_pos_trace _ a va) in Hpos by done. injection Hpos as <- <-.
    cbn [length] in Hicon. rewrite decide_True in Hicon by done.
    injection Hicon as <-.
    rewrite bool_decide_eq_true_2 in Hnew by done.
    apply run_bind_Ok in Hnew as (t0 & ? & Ht0 & Hnew). run_lift Ht0.
    apply run_bind_Ok in Hnew as (A & ? & HA & Hnew). run_lift HA.
    apply run_bind_Ok in Hnew as (ax1 & ? & Hax1 & Hnew). run_lift Hax1.
    apply run_bind_Ok in Hnew as (ax2 & ? & Hax2 & Hnew). run_lift Hax2.
    subst t0. apply py_get_Ok in HA, Hax1, Hax2.
    unfold call_trace, invoke in Hnew. injection Hnew as Hnew <-.
    cbn [st_L st_v st_order st_calls] in *.
    rewrite (find_newv_trace _ a va) in Hnewv by done. injection Hnewv as <-.
    apply run_bind_Ok in Hdel as ([] & ? & Hdel & Hret).
    rewrite run_ret in Hret. injection Hret as <-.
    apply del_tensor_Ok in Hdel as (HLa & Hva & ->).
    cbn [st_L st_v st_order st_calls] in *.
    exists a, va, A, ax1, ax2, new_A.
    destruct (trace A ax1 ax2) as [T|] eqn:Et; [|done]. injection Hnew as ->.
    split_and!; try done.
    rewrite Eo, !delete_app_lt; [done| |]; by eapply lookup_lt_Some.
  - right.
    rewrite decide_False in Hicon by (cbn; lia).
    rewrite (get_icon_pair _ a b va vb) in Hicon by done. injection Hicon as <-.
    rewrite (get_pos_pair _ a b va vb) in Hpos by done. injection Hpos as <- <-.
    rewrite bool_decide_eq_false_2 in Hnew by (cbn; lia).
    apply run_bind_Ok in Hnew as (t0 & ? & Ht0 & Hnew). run_lift Ht0.
    apply run_bind_Ok in Hnew as (A & ? & HA & Hnew). run_lift HA.
    apply run_bind_Ok in Hnew as (t1 & ? & Ht1 & Hnew). run_lift Ht1.
    apply run_bind_Ok in Hnew as (B & ? & HB & Hnew). run_lift HB.
    subst t0 t1. apply py_get_Ok in HA, HB.
    unfold call_con, invoke in Hnew. injection Hnew as Hnew <-.
    cbn [st_L st_v st_order st_calls] in *.
    rewrite (find_newv_pair _ a b va vb) in Hnewv by done. injection Hnewv as <-.
    rewrite sorted_reverse_pair in Hdel by done. cbn [del_tensors] in Hdel.
    apply run_bind_Ok in Hdel as ([] & ? & Hdelb & Hdel).
    apply run_bind_Ok in Hdel as ([] & ? & Hdela & Hret).
    rewrite run_ret in Hret. injection Hret as <-.
    apply del_tensor_Ok in Hdelb as (HLb & Hvb & ->).
    apply del_tensor_Ok in Hdela as (HLa & Hva & ->).
    cbn [st_L st_v st_order st_calls] in *.
    set (icon := elements (list_to_set va ∩ list_to_set vb : gset label)) in *.
    exists a, b, va, vb, A, B, new_A, icon.
    destruct (con A B _) as [T|] eqn:Ec; [|done]. injection Hnew as ->.
    split_and!; try done.
    pose proof (length_delete _ _ (mk_is_Some _ _ HB)).
    pose proof (length_delete _ _ (mk_is_Some _ _ Hb)).
    apply lookup_lt_Some in HA, HB, Ha, Hb.
    rewrite Eo, !(delete_app_lt _ _ b) by done.
    rewrite !delete_app_lt; [done| |]; lia.
Qed.

(** *** The network-state invariant *)

Lemma network_inv_Forall2 L v :
  network_inv L v ↔ Forall2 (λ A inds, length inds = rank A) L v.
Proof.
  unfold network_inv. rewrite Forall2_same_length_lookup. naive_solver.
Qed.

Lemma length_filter_complement {A} (P : A → Prop) `{!∀ x, Decision (P x)} l :
  length (filter P l) + length (filter (λ x, ¬ P x) l) = length l.
Proof. by rewrite <- length_app, filter_app_complement. Qed.

Lemma length_positions e (inds : list label) :
  length (positions e inds) = count e inds.
Proof.
  unfold positions, count.
  rewrite <- (selected_values (λ x, x = e) inds). by rewrite !length_fmap.
Qed.

Lemma length_icon_positions icon (inds : list label) :
  NoDup icon →
  length (icon_positions icon inds) = length (filter (λ i, i ∈ icon) inds).
Proof.
  unfold icon_positions. induction 1 as [|e icon He Hnd IH].
  - simpl. induction inds as [|x inds IHi]; [done|]. rewrite filter_cons.
    case_decide as Hx; [by apply elem_of_nil in Hx | done].
  - transitivity (length (positions e inds)
                  + length (mjoin ((λ e0, positions e0 inds) <$> icon)));
      [by rewrite <- length_app|].
    rewrite IH, length_positions. clear IH.
    induction inds as [|x inds IHi]; [done|].
    rewrite count_cons, !filter_cons.
    pose proof (elem_of_cons icon x e) as Hcons.
    repeat case_decide; simplify_eq; simpl; try lia; tauto.
Qed.

Lemma length_survivors icon (inds : list label) :
  NoDup icon →
  length (filter (λ i, i ∉ icon) inds) + length (icon_positions icon inds)
  = length inds.
Proof.
  intros Hnd. rewrite length_icon_positions by done.
  rewrite Nat.add_comm. apply (length_filter_complement (λ i, i ∈ icon)).
Qed.

Lemma NoDup_singleton' (x : label) : NoDup [x].
Proof. apply NoDup_singleton. Qed.

Lemma step_network_inv `{!BackendLaws} s s' :
  network_inv (st_L s) (st_v s) → step s = (Ok (), s') →
  network_inv (st_L s') (st_v s').
Proof.
  rewrite !network_inv_Forall2. intros Hinv Hstep.
  destruct (step_inv _ _ Hstep) as (idx & rest & Ho &
    [(a & va & A & ax1 & ax2 & new_A & Ht & Ha & HA & Hc & _ & _ & Htr & ->)
    |(a & b & va & vb & A & B & new_A & icon & Ht & Hab & Ha & Hb & HA & HB
        & Hicon & Hcon & ->)]);
    cbn [st_L st_v].
  - apply Forall2_app; [by apply Forall2_delete|].
    constructor; [|constructor].
    pose proof (Forall2_lookup_lr _ _ _ _ _ _ Hinv HA Ha) as Hr.
    apply trace_rank in Htr.
    pose proof (length_survivors [idx] va (NoDup_singleton' idx)) as Hlen.
    unfold icon_positions in Hlen. simpl in Hlen.
    rewrite length_app, length_positions, Hc in Hlen. simpl in Hlen, Hr. lia.
  - apply Forall2_app; [by do 2 apply Forall2_delete|].
    constructor; [|constructor].
    pose proof (Forall2_lookup_lr _ _ _ _ _ _ Hinv HA Ha) as Hra.
    pose proof (Forall2_lookup_lr _ _ _ _ _ _ Hinv HB Hb) as Hrb.
    apply con_rank in Hcon as [Hsame Hrank]. simpl in Hsame, Hrank.
    assert (NoDup icon) as Hnd by (subst icon; apply NoDup_elements).
    pose proof (length_survivors icon va Hnd).
    pose proof (length_survivors icon vb Hnd).
    simpl in Hra, Hrb. rewrite length_app. lia.
Qed.

End scheduler_step.

(** ** The tensor graph *)

Lemma adjacent_sym v i j : adjacent v i j → adjacent v j i.
Proof. intros (x & a & b & ? & ? & ? & ?). exists x, b, a. done. Qed.

Lemma path_sym v i j : rtc (adjacent v) i j → rtc (adjacent v) j i.
Proof.
  induction 1 as [|i k j Hik _ IH]; [done|].
  eapply rtc_r; [exact IH | by apply adjacent_sym].
Qed.

Lemma adjacent_lt v i j : adjacent v i j → i < length v ∧ j < length v.
Proof.
  intros (x & a & b & Ha & Hb & _). split; by eapply lookup_lt_Some.
Qed.

Lemma elem_of_neighs v (inds : list label) j :
  j ∈ neighs v (list_to_set inds) ↔
  ∃ inds_j x, v !! j = Some inds_j ∧ x ∈ inds ∧ x ∈ inds_j.
Proof.
  unfold neighs.
  change ((filter _ (enumerate v)).*1)
    with (select (λ inds_j : list label,
            (list_to_set inds : gset label) ∩ list_to_set inds_j ≠ ∅) v).
  rewrite elem_of_select. split.
  - intros (inds_j & Hj & Hne). exists inds_j.
    apply set_choose_L in Hne as [x Hx]. exists x.
    apply elem_of_intersection in Hx as [H1 H2].
    rewrite elem_of_list_to_set in H1, H2. done.
  - intros (inds_j & x & Hj & H1 & H2). exists inds_j. split; [done|].
    intros Hempty. apply (not_elem_of_empty (C := gset label) x).
    rewrite <- Hempty. apply elem_of_intersection.
    by rewrite !elem_of_list_to_set.
Qed.

Section traversal.
Context `{SetPop}.
Implicit Types v : list (list label).

Lemma elem_of_nodes v i : i ∈ nodes v ↔ i < length v.
Proof. unfold nodes. rewrite elem_of_list_to_set, elem_of_seq. lia. Qed.

Lemma size_nodes v : size (nodes v) = length v.
Proof.
  unfold nodes. rewrite size_list_to_set by apply NoDup_seq.
  apply length_seq.
Qed.

Lemma visit_inv_step v start V0 U U0 b i inds :
  visit_inv v start V0 U U0 b →
  set_pop (bfs_to_visit b) = Some i → v !! i = Some inds →
  visit_inv v start V0 U U0
    (Bfs (bfs_unvisited b ∖ {[i]}) (bfs_visited b ∪ {[i]})
         (bfs_component b ∪ {[i]})
         (bfs_to_visit b ∖ {[i]}
          ∪ list_to_set (filter (λ neigh, neigh ∉ bfs_visited b ∪ {[i]})
                           (neighs v (list_to_set inds))))).
Proof.
  intros [] Hpop Hi. apply set_pop_Some in Hpop.
  assert (∀ j, j ∈ (list_to_set (filter (λ neigh, neigh ∉ bfs_visited b ∪ {[i]})
                      (neighs v (list_to_set inds))) : gset nat) →
               (j ∉ bfs_visited b ∪ {[i]}) ∧ adjacent v i j) as Hnew.
  { intros j Hj. rewrite elem_of_list_to_set, list_elem_of_filter in Hj.
    destruct Hj as [Hj Hn]. split; [done|].
    apply elem_of_neighs in Hn as (inds_j & x & ? & ? & ?).
    by exists x, inds, inds_j. }
  split; cbn [bfs_unvisited bfs_visited bfs_component bfs_to_visit].
  - intros j Hj Hv. apply elem_of_union in Hj as [Hj|Hj].
    + set_solver.
    + by apply Hnew in Hj as [? _].
  - set_solver.
  - set_solver.
  - intros j Hj. destruct (decide (j = i)) as [->|]; [apply vi_reach0; set_solver|].
    rewrite !elem_of_union in Hj. destruct Hj as [[Hj|Hj]|[Hj|Hj]].
    + apply vi_reach0. set_solver.
    + set_solver.
    + apply vi_reach0. set_solver.
    + apply Hnew in Hj as [_ Hadj]. eapply rtc_r; [|exact Hadj].
      apply vi_reach0. set_solver.
  - intros j Hj. destruct (decide (j = i)) as [->|]; [by eapply lookup_lt_Some|].
    rewrite !elem_of_union in Hj. destruct Hj as [[Hj|Hj]|[Hj|Hj]].
    + apply vi_range0. set_solver.
    + set_solver.
    + apply vi_range0. set_solver.
    + apply Hnew in Hj as [_ Hadj]. by apply adjacent_lt in Hadj as [_ ?].
  - intros j Hj. specialize (vi_cover0 j Hj).
    destruct (decide (j = i)); set_solver.
  - set_solver.
  - set_solver.
  - destruct (decide (start = i)); set_solver.
Qed.

Lemma visit_spec fuel v start V0 U U0 b :
  visit_inv v start V0 U U0 b →
  size (nodes v ∖ bfs_visited b) ≤ fuel →
  ∃ b', visit fuel v b = Ok b' ∧ visit_inv v start V0 U U0 b'
        ∧ bfs_to_visit b' = ∅.
Proof.
  revert b. induction fuel as [|fuel IH]; intros b Hinv Hsize.
  - assert (bfs_to_visit b = ∅) as Hempty.
    { apply leibniz_equiv. apply elem_of_equiv_empty. intros i Hi.
      assert (i ∈ nodes v ∖ bfs_visited b) as Hin.
      { apply elem_of_difference. split.
        - apply elem_of_nodes, (vi_range _ _ _ _ _ _ Hinv). set_solver.
        - pose proof (vi_fresh _ _ _ _ _ _ Hinv). set_solver. }
      assert (size (nodes v ∖ bfs_visited b) = 0) as Hz by lia.
      apply size_empty_inv in Hz. set_solver. }
    exists b. simpl. destruct (set_pop (bfs_to_visit b)) as [i|] eqn:Hpop.
    + apply set_pop_Some in Hpop. rewrite Hempty in Hpop. set_solver.
    + done.
  - simpl. destruct (set_pop (bfs_to_visit b)) as [i|] eqn:Hpop.
    2:{ exists b. split_and!; [done..|]. by apply set_pop_None. }
    pose proof (set_pop_Some _ _ Hpop) as Hi.
    assert (i < length v) as Hlt
      by (apply (vi_range _ _ _ _ _ _ Hinv); set_solver).
    destruct (lookup_lt_is_Some_2 v i Hlt) as [inds Hinds].
    unfold py_get. rewrite Hinds. simpl.
    apply IH; [by apply visit_inv_step|].
    cbn [bfs_visited].
    assert (nodes v ∖ (bfs_visited b ∪ {[i]}) ⊂ nodes v ∖ bfs_visited b) as Hsub.
    { pose proof (vi_fresh _ _ _ _ _ _ Hinv).
      assert (i ∈ nodes v) by by apply elem_of_nodes.
      set_solver. }
    apply subset_size in Hsub. lia.
Qed.

Lemma components_S fuel v unvisited visited ccomponents :
  components (S fuel) v unvisited visited ccomponents =
  match set_pop unvisited with
  | None => Ok ccomponents
  | Some next_visit =>
      b ← visit (S (length v)) v
             (Bfs (unvisited ∖ {[next_visit]}) visited ∅ {[next_visit]});
      components fuel v (bfs_unvisited b) (bfs_visited b)
        (ccomponents ++ [bfs_component b])
  end.
Proof. done. Qed.

Lemma components_spec fuel v U unvisited visited ccomponents :
  (∀ i, i ∈ U → i < length v) →
  components_inv v U unvisited visited ccomponents →
  size unvisited ≤ fuel →
  ∃ cc visited', components fuel v unvisited visited ccomponents = Ok cc
       ∧ components_inv v U ∅ visited' cc.
Proof.
  intros HU. revert unvisited visited ccomponents.
  induction fuel as [|fuel IH]; intros unvisited visited cc Hinv Hsize.
  - assert (unvisited = ∅) as ->.
    { apply leibniz_equiv, size_empty_inv. lia. }
    exists cc, visited. split; [|done]. simpl.
    destruct (set_pop ∅) as [i|] eqn:Hpop; [|done].
    apply set_pop_Some in Hpop. set_solver.
  - rewrite components_S.
    destruct (set_pop unvisited) as [next_visit|] eqn:Hpop.
    2:{ apply set_pop_None in Hpop as ->. by exists cc, visited. }
    apply set_pop_Some in Hpop. destruct Hinv.
    assert (visit_inv v next_visit visited U (unvisited ∖ {[next_visit]})
              (Bfs (unvisited ∖ {[next_visit]}) visited ∅ {[next_visit]}))
      as Hvinv.
    { split; cbn [bfs_unvisited bfs_visited bfs_component bfs_to_visit].
      - set_solver.
      - set_solver.
      - set_solver.
      - intros i Hi. assert (i = next_visit) as -> by set_solver. done.
      - intros i Hi. assert (i = next_visit) as -> by set_solver.
        apply HU. set_solver.
      - intros j Hj. specialize (ci_cover0 j Hj).
        destruct (decide (j = next_visit)); set_solver.
      - set_solver.
      - set_solver.
      - set_solver. }
    destruct (visit_spec (S (length v)) v next_visit visited U _ _ Hvinv)
      as (b & -> & Hb & Hdone).
    { cbn [bfs_visited]. rewrite <- size_nodes.
      etrans; [apply subseteq_size; apply subseteq_difference_l; reflexivity|].
      lia. }
    cbn [mbind res_bind]. destruct Hb. rewrite Hdone in *.
    assert (next_visit ∈ bfs_component b) as Hstart by set_solver.
    apply IH.
    + split.
      * done.
      * rewrite vi_visited0, ci_visited0. rewrite union_list_app_L.
        rewrite union_list_singleton_L. done.
      * set_solver.
      * set_solver.
      * intros comp i j Hcomp Hi Hj.
        apply elem_of_app in Hcomp as [Hcomp|Hcomp]; [eauto|].
        apply list_elem_of_singleton in Hcomp as ->.
        eapply rtc_trans; [apply path_sym|]; apply vi_reach0; set_solver.
      * intros comp i Hcomp Hi.
        apply elem_of_app in Hcomp as [Hcomp|Hcomp]; [eauto|].
        apply list_elem_of_singleton in Hcomp as ->. apply vi_range0. set_solver.
      * intros a c A C Ha Hc Hne.
        assert (∀ k X, cc !! k = Some X → X ## bfs_component b) as Hold.
        { intros k X Hk. assert (X ⊆ visited).
          { rewrite ci_visited0. intros x Hx. apply elem_of_union_list.
            exists X. split; [by eapply list_elem_of_lookup_2 | done]. }
          set_solver. }
        destruct (decide (a < length cc)), (decide (c < length cc)).
        -- rewrite lookup_app_l in Ha, Hc by done. eauto.
        -- rewrite lookup_app_l in Ha by done.
           rewrite lookup_app_r in Hc by lia.
           apply list_lookup_singleton_Some in Hc as [_ <-]. eauto.
        -- rewrite lookup_app_l in Hc by done.
           rewrite lookup_app_r in Ha by lia.
           apply list_lookup_singleton_Some in Ha as [_ <-].
           symmetry. eauto.
        -- rewrite lookup_app_r in Ha, Hc by lia.
           apply list_lookup_singleton_Some in Ha as [? _].
           apply list_lookup_singleton_Some in Hc as [? _]. lia.
      * intros comp Hcomp.
        apply elem_of_app in Hcomp as [Hcomp|Hcomp]; [eauto|].
        apply list_elem_of_singleton in Hcomp as ->. set_solver.
    + assert (bfs_unvisited b ⊂ unvisited) as Hsub by set_solver.
      apply subset_size in Hsub. lia.
Qed.

(** The traversal stays within its budget on any leg lists, also when a
    start node has no leg list (and [v[i]] raises). *)
Lemma components_in_budget fuel v unvisited visited ccomponents :
  unvisited ## visited → size unvisited ≤ fuel →
  components fuel v unvisited visited ccomponents ≠ Err E_fuel.
Proof.
  revert unvisited visited ccomponents.
  induction fuel as [|fuel IH]; intros unvisited visited cc Hdisj Hsize.
  - assert (unvisited = ∅) as ->.
    { apply leibniz_equiv, size_empty_inv. lia. }
    simpl. destruct (set_pop ∅) as [i|] eqn:Hpop; [|done].
    apply set_pop_Some in Hpop. set_solver.
  - rewrite components_S.
    destruct (set_pop unvisited) as [next_visit|] eqn:Hpop; [|done].
    apply set_pop_Some in Hpop.
    destruct (decide (next_visit < length v)) as [Hlt|Hge].
    + assert (visit_inv v next_visit visited ∅ (unvisited ∖ {[next_visit]})
                (Bfs (unvisited ∖ {[next_visit]}) visited ∅ {[next_visit]}))
        as Hvinv.
      { split; cbn [bfs_unvisited bfs_visited bfs_component bfs_to_visit];
          [set_solver..| | |set_solver|set_solver|set_solver|set_solver].
        - intros i Hi. assert (i = next_visit) as -> by set_solver. done.
        - intros i Hi. assert (i = next_visit) as -> by set_solver. done. }
      destruct (visit_spec (S (length v)) v next_visit visited ∅ _ _ Hvinv)
        as (b & -> & Hb & _).
      { cbn [bfs_visited]. rewrite <- size_nodes.
        etrans; [apply subseteq_size; apply subseteq_difference_l; reflexivity|].
        lia. }
      cbn [mbind res_bind]. destruct Hb. apply IH; [done|].
      assert (bfs_unvisited b ⊂ unvisited) as Hsub by set_solver.
      apply subset_size in Hsub. lia.
    + cbn [visit bfs_to_visit].
      destruct (set_pop {[next_visit]}) as [i|] eqn:Hpop'.
      * apply set_pop_Some in Hpop'. assert (i = next_visit) as -> by set_solver.
        unfold py_get. rewrite lookup_ge_None_2 by lia. done.
      * apply set_pop_None in Hpop'. set_solver.
Qed.

End traversal.

(** ** Linking the components *)

Section linking.
Context `{Backend Tensor} `{SetPop}.
Implicit Types s : state Tensor.

Lemma insert_as_alter {A} (f : A → A) (l : list A) i x :
  l !! i = Some x → <[i := f x]> l = alter f i l.
Proof.
  revert i. induction l as [|y l IH]; intros [|i] Hi; simplify_eq/=; [done|].
  f_equal. by apply IH.
Qed.

Lemma py_set_Ok {A} i (x : A) l l' :
  py_set i x l = Ok l' ↔ i < length l ∧ l' = <[i := x]> l.
Proof. unfold py_set. case_decide; naive_solver. Qed.

Lemma append_leg_Ok i x s s' :
  append_leg i x s = (Ok (), s') ↔
  ∃ inds, st_v s !! i = Some inds
    ∧ s' = State (st_L s) (<[i := inds ++ [x]]> (st_v s)) (st_order s) (st_calls s).
Proof.
  unfold append_leg. split.
  - intros Ha.
    apply run_bind_Ok in Ha as (v & ? & Hv & Ha). run_get Hv.
    apply run_bind_Ok in Ha as (inds & ? & Hi & Ha). run_lift Hi.
    run_put Ha. apply py_get_Ok in Hi. eauto.
  - intros (inds & Hi & ->).
    unfold mbind, M_bind, get_v, lift, put_v, py_get. simpl. by rewrite Hi.
Qed.

Lemma link_inv c comp s s' :
  link c comp s = (Ok (), s') →
  ∃ d A_c A_d vc vd A_c' A_d' dim_num,
    d ∈ comp
    ∧ st_L s !! c = Some A_c ∧ st_L s !! d = Some A_d
    ∧ st_v s !! c = Some vc ∧ st_v s !! d = Some vd
    ∧ expand_dims A_c (length vc) = Some A_c'
    ∧ expand_dims A_d (length vd) = Some A_d'
    ∧ smallest_unused (st_order s) dim_num
    ∧ s' = State (<[d := A_d']> (<[c := A_c']> (st_L s)))
                 (linked_v c d (LInt dim_num) (st_v s))
                 (st_order s ++ [LInt dim_num])
                 ((st_calls s ++ [CallExpandDims A_c (length vc)])
                    ++ [CallExpandDims A_d (length vd)]).
Proof.
  unfold link. intros Hl.
  apply run_bind_Ok in Hl as (d & ? & Hd & Hl). run_lift Hd.
  apply run_bind_Ok in Hl as (L & ? & HL & Hl). run_get HL.
  apply run_bind_Ok in Hl as (v & ? & Hv & Hl). run_get Hv.
  apply run_bind_Ok in Hl as (A_c & ? & HAc & Hl). run_lift HAc.
  apply run_bind_Ok in Hl as (A_d & ? & HAd & Hl). run_lift HAd.
  apply run_bind_Ok in Hl as (c_axis & ? & Hca & Hl). run_lift Hca.
  apply run_bind_Ok in Hl as (d_axis & ? & Hda & Hl). run_lift Hda.
  apply run_bind_Ok in Hl as (A_c' & ? & Hec & Hl).
  unfold call_expand_dims, invoke in Hec. injection Hec as Hec <-.
  apply run_bind_Ok in Hl as (L1 & ? & HL1 & Hl). run_get HL1.
  apply run_bind_Ok in Hl as (L2 & ? & HL2 & Hl). run_lift HL2.
  apply run_bind_Ok in Hl as ([] & ? & Hp & Hl). run_put Hp.
  apply run_bind_Ok in Hl as (A_d' & ? & Hed & Hl).
  unfold call_expand_dims, invoke in Hed. injection Hed as Hed <-.
  apply run_bind_Ok in Hl as (L3 & ? & HL3 & Hl). run_get HL3.
  apply run_bind_Ok in Hl as (L4 & ? & HL4 & Hl). run_lift HL4.
  apply run_bind_Ok in Hl as ([] & ? & Hp & Hl). run_put Hp.
  apply run_bind_Ok in Hl as (order & ? & Ho & Hl). run_get Ho.
  apply run_bind_Ok in Hl as (dim_num & ? & Hdim & Hl). run_lift Hdim.
  apply run_bind_Ok in Hl as ([] & ? & Hac & Hl).
  apply run_bind_Ok in Hl as ([] & ? & Had & Hl).
  apply run_bind_Ok in Hl as (order' & ? & Ho' & Hl). run_get Ho'.
  run_put Hl.
  apply append_leg_Ok in Hac as (vc' & Hvc' & ->).
  apply append_leg_Ok in Had as (vd' & Hvd' & ->).
  cbn [st_L st_v st_order st_calls] in *.
  apply py_get_Ok in HAc, HAd.
  apply fmap_Ok in Hca as (vc & Hvc & ->). apply fmap_Ok in Hda as (vd & Hvd & ->).
  apply py_get_Ok in Hvc, Hvd.
  apply py_set_Ok in HL2 as [? ->]. apply py_set_Ok in HL4 as [? ->].
  destruct (set_pop comp) as [d'|] eqn:Hpop; [|done]. injection Hd as ->.
  apply set_pop_Some in Hpop.
  destruct (expand_dims A_c (length vc)) as [T1|] eqn:E1; [|done].
  destruct (expand_dims A_d (length vd)) as [T2|] eqn:E2; [|done].
  injection Hec as ->. injection Hed as ->.
  destruct (fresh_dim_spec (st_order s)) as (dim' & Hdim' & Hsmall).
  rewrite Hdim in Hdim'. injection Hdim' as <-.
  assert (vc' = vc) as -> by congruence.
  exists d, A_c, A_d, vc, vd, A_c', A_d', dim_num.
  split_and!; try done.
  unfold linked_v. f_equal.
  rewrite (insert_as_alter (λ inds, inds ++ [LInt dim_num]) _ c vc)
    in Hvd' |- * by done.
  by apply (insert_as_alter (λ inds, inds ++ [LInt dim_num])).
Qed.

End linking.

(** *** Leg lists that only grow *)

Lemma extends_refl v : extends v v.
Proof. split; [done|]. intros i inds Hi. exists inds. done. Qed.

Lemma extends_trans v1 v2 v3 : extends v1 v2 → extends v2 v3 → extends v1 v3.
Proof.
  intros [Hl1 H1] [Hl2 H2]. split; [congruence|]. intros i inds Hi.
  destruct (H1 _ _ Hi) as (inds2 & Hi2 & Hs2).
  destruct (H2 _ _ Hi2) as (inds3 & Hi3 & Hs3).
  exists inds3. split; [done|]. by etrans.
Qed.

Lemma extends_alter v i (x : label) :
  extends v (alter (λ inds, inds ++ [x]) i v).
Proof.
  split; [by rewrite length_alter|]. intros j inds Hj.
  destruct (decide (i = j)) as [->|Hne].
  - exists (inds ++ [x]). rewrite list_lookup_alter_eq, Hj. split; [done|].
    intros y Hy. apply elem_of_app. by left.
  - exists inds. by rewrite list_lookup_alter_ne.
Qed.

Lemma extends_linked_v c d x v : extends v (linked_v c d x v).
Proof.
  unfold linked_v. eapply extends_trans; apply extends_alter.
Qed.

Lemma adjacent_extends v v' i j : extends v v' → adjacent v i j → adjacent v' i j.
Proof.
  intros [_ Hext] (x & a & b & Ha & Hb & Hxa & Hxb).
  destruct (Hext _ _ Ha) as (a' & Ha' & Hsa).
  destruct (Hext _ _ Hb) as (b' & Hb' & Hsb).
  exists x, a', b'. split_and!; auto.
Qed.

Lemma path_extends v v' i j :
  extends v v' → rtc (adjacent v) i j → rtc (adjacent v') i j.
Proof.
  intros Hext. induction 1 as [|i k j Hik _ IH]; [done|].
  eapply rtc_l; [by eapply adjacent_extends | done].
Qed.

Lemma adjacent_linked_v c d x v :
  c < length v → d < length v → adjacent (linked_v c d x v) c d.
Proof.
  intros Hc Hd. unfold linked_v.
  destruct (lookup_lt_is_Some_2 v c Hc) as [vc Hvc].
  set (v1 := alter (λ inds, inds ++ [x]) c v).
  assert (v1 !! c = Some (vc ++ [x])) as Hc1
    by (unfold v1; by rewrite list_lookup_alter_eq, Hvc).
  destruct (lookup_lt_is_Some_2 v1 d) as [vd Hvd];
    [unfold v1; by rewrite length_alter|].
  assert (alter (λ inds, inds ++ [x]) d v1 !! d = Some (vd ++ [x])) as Hd2
    by (by rewrite list_lookup_alter_eq, Hvd).
  destruct (extends_alter v1 d x) as [_ Hext].
  destruct (Hext _ _ Hc1) as (vc' & Hvc' & Hsub).
  exists x, vc', (vd ++ [x]). split_and!; [done..| |].
  - apply Hsub, elem_of_app. right. by left.
  - apply elem_of_app. right. by left.
Qed.

Section repair.
Context `{Backend Tensor} `{SetPop}.
Implicit Types s : state Tensor.

Lemma link_all_inv c rest s s' :
  link_all c rest s = (Ok (), s') →
  extends (st_v s) (st_v s')
  ∧ ∀ comp, comp ∈ rest → ∃ d, d ∈ comp ∧ adjacent (st_v s') c d.
Proof.
  revert s. induction rest as [|comp rest IH]; intros s; cbn [link_all].
  - rewrite run_ret. intros [= <-]. split; [apply extends_refl|].
    intros comp Hc. by apply elem_of_nil in Hc.
  - intros Hl. apply run_bind_Ok in Hl as ([] & s1 & Hlink & Hl).
    destruct (IH _ Hl) as [Hext Hadj].
    destruct (link_inv _ _ _ _ Hlink)
      as (d & A_c & A_d & vc & vd & A_c' & A_d' & dim & Hd & _ & _ & Hvc & Hvd
            & _ & _ & _ & ->).
    cbn [st_v] in *.
    pose proof (extends_linked_v c d (LInt dim) (st_v s)) as Hext1.
    split; [by eapply extends_trans|].
    intros comp' Hc. apply elem_of_cons in Hc as [->|Hc]; [|auto].
    exists d. split; [done|]. eapply adjacent_extends; [exact Hext|].
    apply adjacent_linked_v; by eapply lookup_lt_Some.
Qed.

(** what [connect_graph] does when it does not raise: the traversal returns
    the components, [c] is taken from the last one and linked to one
    tensor of each other component *)
Lemma connect_graph_inv s s' :
  connect_graph s = (Ok (), s') →
  ∃ cc last rest c,
    components (length (st_L s)) (st_v s)
      (list_to_set (seq 0 (length (st_L s)))) ∅ [] = Ok cc
    ∧ reverse cc = last :: rest ∧ c ∈ last
    ∧ link_all c rest s = (Ok (), s').
Proof.
  unfold connect_graph. intros Hc.
  apply run_bind_Ok in Hc as (L & ? & HL & Hc). run_get HL.
  apply run_bind_Ok in Hc as (v & ? & Hv & Hc). run_get Hv.
  apply run_bind_Ok in Hc as (cc & ? & Hcc & Hc). run_lift Hcc.
  exists cc. destruct (reverse cc) as [|last rest]; [done|].
  apply run_bind_Ok in Hc as (c & ? & Hpop & Hc). run_lift Hpop.
  destruct (set_pop last) as [c'|] eqn:E; [|done]. injection Hpop as ->.
  apply set_pop_Some in E. by exists last, rest, c.
Qed.

Lemma components_of_network v :
  ∃ cc visited,
    components (length v) v (list_to_set (seq 0 (length v))) ∅ [] = Ok cc
    ∧ components_inv v (nodes v) ∅ visited cc.
Proof.
  apply components_spec.
  - intros i. by rewrite elem_of_nodes.
  - split; set_solver.
  - fold (nodes v). by rewrite size_nodes.
Qed.

Lemma connect_graph_connected s s' :
  length (st_L s) = length (st_v s) →
  connect_graph s = (Ok (), s') → connected (st_v s').
Proof.
  intros Hlen Hc.
  destruct (connect_graph_inv _ _ Hc) as (cc & last & rest & c & Hcc & Hrev & Hcl & Hl).
  rewrite Hlen in Hcc.
  destruct (components_of_network (st_v s)) as (cc' & visited & Hcc' & Hinv).
  rewrite Hcc in Hcc'. injection Hcc' as <-.
  destruct (link_all_inv _ _ _ _ Hl) as [Hext Hadj].
  assert (∀ comp, comp ∈ cc ↔ comp = last ∨ comp ∈ rest) as Hsplit.
  { intros comp. rewrite <- elem_of_reverse, Hrev, elem_of_cons. done. }
  assert (∀ i, i < length (st_v s') → rtc (adjacent (st_v s')) i c) as Hpath.
  { intros i Hi. destruct Hext as [Hlen' Hext']. rewrite <- Hlen' in Hi.
    assert (i ∈ ⋃ cc) as Hin.
    { rewrite <- (ci_visited _ _ _ _ _ Hinv).
      apply elem_of_nodes in Hi.
      pose proof (ci_cover _ _ _ _ _ Hinv i Hi). set_solver. }
    apply elem_of_union_list in Hin as (comp & Hcomp & Hicomp).
    pose proof (conj Hlen' Hext' : extends (st_v s) (st_v s')) as Hext.
    apply Hsplit in Hcomp as Hcase. destruct Hcase as [->|Hrest].
    - eapply path_extends; [exact Hext|].
      by eapply (ci_connected _ _ _ _ _ Hinv).
    - destruct (Hadj _ Hrest) as (d & Hd & Hcd).
      eapply rtc_r; [|by apply adjacent_sym].
      eapply path_extends; [exact Hext|].
      by eapply (ci_connected _ _ _ _ _ Hinv). }
  intros i j Hi Hj. eapply rtc_trans; [by apply Hpath|].
  apply path_sym. by apply Hpath.
Qed.

End repair.

(** ** The iteration budgets of the model are never exhausted *)

Create HintDb budget discriminated.

Lemma in_budget_Ok {A} (a : A) : in_budget (Ok a).
Proof. done. Qed.

Lemma in_budget_bind {A B} (m : res A) (f : A → res B) :
  in_budget m → (∀ a, in_budget (f a)) → in_budget (m ≫= f).
Proof.
  intros Hm Hf. destruct m; [apply Hf|]. unfold in_budget in *. simpl.
  congruence.
Qed.

Lemma in_budget_fmap {A B} (m : res A) (f : A → B) :
  in_budget m → in_budget (f <$> m).
Proof. destruct m; simpl; [done|]. unfold in_budget. congruence. Qed.

Lemma in_budget_py_get {A} (l : list A) i : in_budget (py_get l i).
Proof. unfold py_get. by destruct (l !! i). Qed.

Lemma in_budget_py_del {A} (l : list A) i : in_budget (py_del i l).
Proof. unfold py_del. by case_decide. Qed.

Lemma in_budget_py_set {A} (l : list A) i x : in_budget (py_set i x l).
Proof. unfold py_set. by case_decide. Qed.

Lemma in_budget_map_res {A B} (f : A → res B) l :
  (∀ x, in_budget (f x)) → in_budget (map_res f l).
Proof.
  intros Hf. induction l as [|x l IH]; simpl; [done|].
  apply in_budget_bind; [done|]. intros y.
  apply in_budget_bind; [done|]. done.
Qed.

#[export] Hint Resolve in_budget_Ok in_budget_py_get in_budget_py_del
  in_budget_py_set in_budget_fmap : budget.

Lemma in_budget_get_tcon v index : in_budget (get_tcon v index).
Proof.
  unfold get_tcon. repeat case_decide; try done.
  repeat (apply in_budget_bind; [auto with budget|]; intros ?).
  by case_decide.
Qed.

Lemma in_budget_get_icon v tcon : in_budget (get_icon v tcon).
Proof.
  unfold get_icon.
  repeat (apply in_budget_bind; [auto with budget|]; intros ?). done.
Qed.

Lemma in_budget_get_pos v tcon icon : in_budget (get_pos v tcon icon).
Proof.
  unfold get_pos.
  assert (∀ k, in_budget (map_res (λ e, t ← py_get tcon k; inds ← py_get v t;
                                         Ok (positions e inds)) icon)) as Hside.
  { intros k. apply in_budget_map_res. intros e.
    repeat (apply in_budget_bind; [auto with budget|]; intros ?). done. }
  apply in_budget_bind; [apply Hside|]. intros pos1.
  apply in_budget_bind; [|done]. case_decide; [done|].
  apply in_budget_bind; [apply Hside | done].
Qed.

Lemma in_budget_find_newv v tcon icon : in_budget (find_newv v tcon icon).
Proof.
  unfold find_newv. apply in_budget_bind; [|done]. case_decide;
    repeat (apply in_budget_bind; [auto with budget|]; intros ?);
    auto with budget.
Qed.

Lemma in_budget_for_each {A} (body : A → res unit) l :
  (∀ x, in_budget (body x)) → in_budget (for_each body l).
Proof.
  intros Hb. induction l as [|x l IH]; simpl; [done|].
  apply in_budget_bind; [done|]. done.
Qed.

Lemma in_budget_list_index x l : in_budget (list_index x l).
Proof.
  induction l as [|y l IH]; simpl; [done|].
  case_decide; [done|]. by apply in_budget_fmap.
Qed.

Lemma in_budget_select_ints keep flat_v : in_budget (select_ints keep flat_v).
Proof.
  induction flat_v as [|[z|str] l IH]; simpl; [done| |done].
  apply in_budget_bind; [done|]. done.
Qed.

Lemma in_budget_preprocess_forder_order arg v name :
  in_budget (preprocess_forder_order arg v name).
Proof.
  unfold preprocess_forder_order, create_order, create_forder.
  destruct arg; [|done..]. destruct (negb _); [done|].
  repeat case_decide; try done;
    (apply in_budget_bind; [apply in_budget_select_ints | done]).
Qed.

Lemma in_budget_fresh_dim order : in_budget (fresh_dim order).
Proof.
  destruct (fresh_dim_spec order) as (d & Hd & _). unfold in_budget.
  by rewrite Hd.
Qed.

#[export] Hint Resolve in_budget_get_tcon in_budget_get_icon in_budget_get_pos
  in_budget_find_newv in_budget_fresh_dim : budget.

Section budget.
Context `{Backend Tensor} `{SetPop}.

Lemma runs_bind {A B} (m : M Tensor A) (f : A → M Tensor B) :
  runs_in_budget Tensor m → (∀ a, runs_in_budget Tensor (f a)) →
  runs_in_budget Tensor (m ≫= f).
Proof.
  intros Hm Hf s. rewrite run_bind. specialize (Hm s).
  destruct (m s) as [[a|e] s1]; [apply Hf|].
  unfold in_budget in *. simpl in *. congruence.
Qed.

Lemma runs_lift {A} (r : res A) : in_budget r → runs_in_budget Tensor (lift r).
Proof. intros Hr s. done. Qed.

Lemma runs_ret {A} (a : A) : runs_in_budget Tensor (mret a : M Tensor A).
Proof. intros s. done. Qed.

Lemma runs_invoke (c : call Tensor) r : runs_in_budget Tensor (invoke c r).
Proof. intros s. unfold invoke. simpl. by destruct r. Qed.

Lemma runs_get_L : runs_in_budget Tensor get_L.
Proof. done. Qed.
Lemma runs_get_v : runs_in_budget Tensor get_v.
Proof. done. Qed.
Lemma runs_get_order : runs_in_budget Tensor get_order.
Proof. done. Qed.
Lemma runs_put_L L : runs_in_budget Tensor (put_L L).
Proof. done. Qed.
Lemma runs_put_v v : runs_in_budget Tensor (put_v v).
Proof. done. Qed.
Lemma runs_put_order o : runs_in_budget Tensor (put_order o).
Proof. done. Qed.

Ltac runs :=
  repeat first
    [ apply runs_get_L | apply runs_get_v | apply runs_get_order
    | apply runs_put_L | apply runs_put_v | apply runs_put_order
    | apply runs_ret | apply runs_invoke
    | apply runs_lift; solve [auto with budget]
    | apply runs_bind; [|intros ?] ].

Lemma runs_del_tensors l : runs_in_budget Tensor (del_tensors l).
Proof.
  induction l as [|i l IH]; cbn [del_tensors]; [apply runs_ret|].
  apply runs_bind; [|done]. unfold del_tensor. runs.
Qed.

Lemma runs_step : runs_in_budget Tensor step.
Proof.
  unfold step, call_trace, call_con.
  repeat first
    [ apply runs_del_tensors
    | apply runs_lift; case_decide; solve [auto with budget]
    | match goal with
      | |- runs_in_budget _ (if ?b then _ else _) => destruct b
      | |- runs_in_budget _ (let '(_, _) := ?p in _) => destruct p
      end
    | progress runs ].
Qed.

Lemma runs_link c comp : runs_in_budget Tensor (link c comp).
Proof.
  unfold link, call_expand_dims, append_leg. runs.
  apply runs_lift. by destruct (set_pop comp).
Qed.

Lemma runs_link_all c rest : runs_in_budget Tensor (link_all c rest).
Proof.
  induction rest as [|comp rest IH]; cbn [link_all]; [apply runs_ret|].
  apply runs_bind; [apply runs_link | done].
Qed.

Lemma runs_connect_graph : runs_in_budget Tensor connect_graph.
Proof.
  unfold connect_graph. runs.
  - apply runs_lift. apply components_in_budget; [set_solver|].
    rewrite size_list_to_set by apply NoDup_seq. by rewrite length_seq.
  - destruct (reverse a1) as [|last rest]; [by apply runs_lift|].
    apply runs_bind.
    + apply runs_lift. by destruct (set_pop last).
    + intros c. apply runs_link_all.
Qed.

Lemma in_budget_compatible (L : list Tensor) A0 ind0 A1 ind1 :
  in_budget (compatible L A0 ind0 A1 ind1).
Proof.
  unfold compatible. apply in_budget_bind; [auto with budget|]. intros T0.
  destruct (compatible_indices T0);
    repeat (apply in_budget_bind; [auto with budget|]; intros ?); done.
Qed.

Lemma in_budget_do_check_indices (L : list Tensor) v order forder :
  in_budget (do_check_indices L v order forder).
Proof.
  unfold do_check_indices. case_decide; [done|].
  repeat (apply in_budget_bind; [apply in_budget_for_each; intros [i x]|intros _]);
    try done.
  - apply in_budget_bind; [auto with budget|]. intros sh. by case_decide.
  - apply in_budget_bind; [auto with budget|]. intros e.
    unfold check_order_group. case_decide; [done|].
    apply in_budget_bind; [auto with budget|]. intros [A0 ind0].
    apply in_budget_bind; [auto with budget|]. intros [A1 ind1].
    apply in_budget_bind; [apply in_budget_compatible|]. intros c.
    by destruct c.
  - case_decide; [|done]. apply in_budget_bind; [auto with budget|]. done.
Qed.

(** the scheduler loop ends within [len(order)] iterations *)
Lemma contract_in_budget fuel (s : state Tensor) :
  length (st_order s) ≤ fuel → in_budget (contract fuel s).1.
Proof.
  revert s. induction fuel as [|fuel IH]; intros s Hlen.
  - destruct (st_order s) eqn:E; simpl in *; [by rewrite E | lia].
  - cbn [contract]. destruct (st_order s) as [|idx rest] eqn:E; [done|].
    rewrite run_bind. pose proof (runs_step s) as Hstep.
    destruct (step s) as [[[]|e] s1] eqn:Es; [|done].
    apply IH.
    destruct (step_inv _ _ Es) as (idx' & rest' & Ho & Hcases).
    rewrite E in Ho. injection Ho as <- <-.
    assert (∀ icon, idx ∈ icon →
              length (renew_order (idx :: rest) icon) ≤ length rest) as Hshrink.
    { intros icon Hin. unfold renew_order. rewrite filter_cons.
      rewrite decide_False by auto. apply length_filter. }
    cbn [length] in Hlen.
    destruct Hcases
      as [(a & va & A & ax1 & ax2 & new_A & _ & _ & _ & _ & _ & _ & _ & ->)
         |(a & b & va & vb & A & B & new_A & icon & Ht & _ & Ha & Hb & _ & _
             & -> & _ & ->)];
      cbn [st_order]; rewrite E.
    + etrans; [apply Hshrink; by left | lia].
    + etrans; [apply Hshrink | lia].
      apply get_tcon_Ok_cases in Ht
        as [(? & ? & [=] & _)|(a' & b' & va' & vb' & [= <- <-] & _ & Ha' & Hb'
              & Hia & Hib & _)].
      simplify_eq. apply elem_of_elements, elem_of_intersection.
      by rewrite !elem_of_list_to_set.
Qed.

(** [ncon] never stops for lack of budget: every loop of the model is
    given as many iterations as the Python loop can make. *)
Lemma ncon_in_budget (L : list Tensor) v order forder check_indices :
  in_budget (ncon L v order forder check_indices).1.
Proof.
  rewrite ncon_unfold. unfold preprocess_indices.
  destruct (py_get v 0) eqn:E0; [|by apply py_get_Err in E0 as [-> _]].
  cbn [mbind res_bind].
  pose proof (in_budget_preprocess_forder_order order v "order") as Ho.
  destruct (preprocess_forder_order order v "order") as [order'|];
    [|unfold in_budget in *; simpl; congruence].
  pose proof (in_budget_preprocess_forder_order forder v "forder") as Hf.
  destruct (preprocess_forder_order forder v "forder") as [forder'|];
    [|unfold in_budget in *; simpl; congruence].
  assert (runs_in_budget Tensor (ncon_body forder' check_indices)) as Hbody.
  { unfold ncon_body. apply runs_bind.
    - destruct check_indices; [|apply runs_ret].
      unfold validate. runs. apply runs_lift, in_budget_do_check_indices.
    - intros _. apply runs_bind; [apply runs_connect_graph|]. intros _ s.
      rewrite run_bind. cbn [get_order]. rewrite run_bind.
      pose proof (contract_in_budget (length (st_order s)) s (le_n _)) as Hc.
      destruct (contract (length (st_order s)) s) as [[[]|e] s1];
        [|unfold in_budget in *; simpl in *; congruence].
      assert (runs_in_budget Tensor
                (v0 ← get_v; vlast ← lift (py_get v0 0); L0 ← get_L;
                 A ← lift (py_get L0 0); permute_final A vlast forder'))
        as Htail
        by (unfold permute_final, call_permute; runs;
            apply runs_lift, in_budget_map_res; intros ?;
            apply in_budget_list_index).
      apply Htail. }
  specialize (Hbody (State L v order' [])).
  by destruct (ncon_body forder' check_indices (State L v order' [])).
Qed.

End budget.

(** ** The invariant across the connectivity repair *)

Lemma components_last_separate v U visited cc last rest c :
  components_inv v U ∅ visited cc → reverse cc = last :: rest → c ∈ last →
  ∀ comp, comp ∈ rest → c ∉ comp.
Proof.
  intros Hinv Hrev Hc comp Hcomp Hin.
  assert (cc = reverse rest ++ [last]) as ->.
  { rewrite <- (reverse_involutive cc), Hrev. by rewrite reverse_cons. }
  apply elem_of_reverse, list_elem_of_lookup in Hcomp as [k Hk].
  pose proof (lookup_lt_Some _ _ _ Hk) as Hlt.
  assert ((reverse rest ++ [last]) !! k = Some comp) as Hk'
    by (by rewrite lookup_app_l).
  assert ((reverse rest ++ [last]) !! length (reverse rest) = Some last) as Hl
    by (by rewrite list_lookup_middle).
  pose proof (ci_separate _ _ _ _ _ Hinv _ _ _ _ Hk' Hl) as Hdisj.
  assert (comp ## last) as Hd by (apply Hdisj; lia).
  set_solver.
Qed.

Section repair_invariant.
Context `{Backend Tensor} `{SetPop} `{!BackendLaws}.
Implicit Types s : state Tensor.

Lemma validated_network_inv (L : list Tensor) v order forder b :
  do_check_indices L v order forder = Ok b → network_inv L v.
Proof.
  unfold do_check_indices. case_decide as Hlen; [done|]. intros Hb.
  apply bind_Ok in Hb as ([] & Hranks & _). apply check_ranks_Ok in Hranks.
  split; [done|]. intros i A inds HA Hi.
  destruct (Hranks _ _ Hi) as (T & HT & ?). congruence.
Qed.

Lemma link_network_inv c comp s s' :
  network_inv (st_L s) (st_v s) → c ∉ comp →
  link c comp s = (Ok (), s') → network_inv (st_L s') (st_v s').
Proof.
  rewrite !network_inv_Forall2. intros Hinv Hc Hlink.
  destruct (link_inv _ _ _ _ Hlink)
    as (d & A_c & A_d & vc & vd & A_c' & A_d' & dim & Hd & HAc & HAd & Hvc & Hvd
          & Hec & Hed & _ & ->).
  assert (c ≠ d) as Hne by (intros ->; done).
  cbn [st_L st_v]. unfold linked_v.
  rewrite <- (insert_as_alter (λ inds, inds ++ [LInt dim]) _ c vc) by done.
  rewrite <- (insert_as_alter (λ inds, inds ++ [LInt dim]) _ d vd)
    by (by rewrite list_lookup_insert_ne).
  pose proof (Forall2_lookup_lr _ _ _ _ _ _ Hinv HAc Hvc) as Hrc.
  pose proof (Forall2_lookup_lr _ _ _ _ _ _ Hinv HAd Hvd) as Hrd.
  simpl in Hrc, Hrd.
  apply expand_dims_rank in Hec, Hed.
  repeat apply Forall2_insert; try done; rewrite length_app; simpl; lia.
Qed.

Lemma link_all_network_inv c rest s s' :
  (∀ comp, comp ∈ rest → c ∉ comp) →
  network_inv (st_L s) (st_v s) →
  link_all c rest s = (Ok (), s') → network_inv (st_L s') (st_v s').
Proof.
  revert s. induction rest as [|comp rest IH]; intros s Hc Hinv; cbn [link_all].
  - rewrite run_ret. by intros [= <-].
  - intros Hl. apply run_bind_Ok in Hl as ([] & s1 & Hlink & Hl).
    apply (IH s1); [intros; apply Hc; by right | | done].
    eapply link_network_inv; [done | apply Hc; by left | done].
Qed.

Lemma connect_graph_network_inv s s' :
  network_inv (st_L s) (st_v s) →
  connect_graph s = (Ok (), s') → network_inv (st_L s') (st_v s').
Proof.
  intros Hinv Hc. pose proof (proj1 Hinv) as Hlen.
  destruct (connect_graph_inv _ _ Hc) as (cc & last & rest & c & Hcc & Hrev & Hcl & Hl).
  rewrite Hlen in Hcc.
  destruct (components_of_network (st_v s)) as (cc' & visited & Hcc' & Hcinv).
  rewrite Hcc in Hcc'. injection Hcc' as <-.
  eapply link_all_network_inv; [|done..].
  exact (components_last_separate _ _ _ _ _ _ _ Hcinv Hrev Hcl).
Qed.

(** C3: the network-state invariant (as many leg lists as tensors, each
    leg list as long as the rank of its tensor) holds on an input accepted
    by the validator, still holds after [connect_graph], and is preserved
    by every iteration of the scheduler loop, which appends one tensor and
    one leg list and then deletes the same positions from both lists.  The
    ranks rely on the contracts of [expand_dims], [trace] and [con]. *)
Theorem network_invariant_preserved :
  (∀ (L : list Tensor) v order forder b,
     do_check_indices L v order forder = Ok b → network_inv L v)
  ∧ (∀ s s', network_inv (st_L s) (st_v s) → connect_graph s = (Ok (), s') →
       network_inv (st_L s') (st_v s'))
  ∧ (∀ s s', network_inv (st_L s) (st_v s) → step s = (Ok (), s') →
       network_inv (st_L s') (st_v s')
       ∧ ∃ index tcon new_A newv,
           st_order s !! 0 = Some index
           ∧ get_tcon (st_v s) index = Ok tcon
           ∧ st_L s' = del_positions (sorted_reverse tcon) (st_L s ++ [new_A])
           ∧ st_v s' = del_positions (sorted_reverse tcon) (st_v s ++ [newv])).
Proof.
  split_and!.
  - apply validated_network_inv.
  - apply connect_graph_network_inv.
  - intros s s' Hinv Hstep. split; [by eapply step_network_inv|].
    destruct (step_inv _ _ Hstep) as (idx & rest & Ho &
      [(a & va & A & ax1 & ax2 & new_A & Ht & Ha & HA & _ & _ & _ & _ & ->)
      |(a & b & va & vb & A & B & new_A & icon & Ht & Hab & Ha & Hb & HA & HB
          & _ & _ & ->)]).
    + exists idx, [a], new_A, (filter (λ i, i ∉ [idx]) va).
      rewrite Ho. split_and!; [done..| |]; cbn [st_L st_v];
        unfold sorted_reverse, merge_sort; simpl;
        rewrite delete_app_lt; try done; by eapply lookup_lt_Some.
    + exists idx, [a; b], new_A,
        (filter (λ i, i ∉ icon) va ++ filter (λ i, i ∉ icon) vb).
      rewrite Ho, sorted_reverse_pair by done.
      pose proof (length_delete _ _ (mk_is_Some _ _ HB)).
      pose proof (length_delete _ _ (mk_is_Some _ _ Hb)).
      apply lookup_lt_Some in HA, HB, Ha, Hb.
      split_and!; [done..| |]; cbn [st_L st_v del_positions foldl];
        rewrite (delete_app_lt _ _ b) by done;
        rewrite delete_app_lt; try done; lia.
Qed.

End repair_invariant.

(** ** The connectivity repair *)

Section repair_spec.
Context `{Backend Tensor} `{SetPop}.
Implicit Types s : state Tensor.

Lemma link_is_link c comp s s' :
  c ∉ comp → link c comp s = (Ok (), s') → is_link c s s'.
Proof.
  intros Hc Hlink.
  destruct (link_inv _ _ _ _ Hlink)
    as (d & A_c & A_d & vc & vd & A_c' & A_d' & dim & Hd & HAc & HAd & Hvc & Hvd
          & Hec & Hed & Hsmall & ->).
  assert (c ≠ d) as Hne by (intros ->; done).
  exists d, A_c, A_d, vc, vd, A_c', A_d', dim. cbn [st_L st_v st_order st_calls].
  split_and!; try done.
  - by rewrite <- app_assoc.
  - unfold linked_v.
    rewrite <- (insert_as_alter (λ inds, inds ++ [LInt dim]) _ c vc) by done.
    by rewrite <- (insert_as_alter (λ inds, inds ++ [LInt dim]) _ d vd)
      by (by rewrite list_lookup_insert_ne).
Qed.

Lemma link_all_links c rest s s' :
  (∀ comp, comp ∈ rest → c ∉ comp) →
  link_all c rest s = (Ok (), s') → rtc (is_link c) s s'.
Proof.
  revert s. induction rest as [|comp rest IH]; intros s Hc; cbn [link_all].
  - rewrite run_ret. by intros [= <-].
  - intros Hl. apply run_bind_Ok in Hl as ([] & s1 & Hlink & Hl).
    eapply rtc_l.
    + eapply link_is_link; [apply Hc; by left | done].
    + apply IH; [intros; apply Hc; by right | done].
Qed.

(** C4: on a network state with as many leg lists as tensors,
    [connect_graph] ends; when it returns, the tensor graph is connected,
    and the state was reached by links only, each of which calls
    [expand_dims] on both tensors at the end of their axes and appends the
    smallest positive integer not in [order] to both leg lists and to
    [order]. *)
Theorem connect_graph_spec s :
  length (st_L s) = length (st_v s) →
  in_budget (connect_graph s).1
  ∧ ∀ s', connect_graph s = (Ok (), s') →
      connected (st_v s') ∧ ∃ c, rtc (is_link c) s s'.
Proof.
  intros Hlen. split; [apply runs_connect_graph|].
  intros s' Hc. split; [by eapply connect_graph_connected|].
  destruct (connect_graph_inv _ _ Hc) as (cc & last & rest & c & Hcc & Hrev & Hcl & Hl).
  rewrite Hlen in Hcc.
  destruct (components_of_network (st_v s)) as (cc' & visited & Hcc' & Hcinv).
  rewrite Hcc in Hcc'. injection Hcc' as <-.
  exists c. eapply link_all_links; [|done].
  exact (components_last_separate _ _ _ _ _ _ _ Hcinv Hrev Hcl).
Qed.

End repair_spec.

(** ** Degrees of the labels *)

Lemma count_filter_not_in (icon l : list label) x :
  count x (filter (λ i, i ∉ icon) l) = if decide (x ∈ icon) then 0 else count x l.
Proof.
  induction l as [|y l IH]; [by case_decide|].
  rewrite filter_cons, count_cons. destruct (decide (y ∉ icon)) as [Hy|Hy].
  - rewrite count_cons, IH. repeat case_decide; simplify_eq; try done.
  - rewrite IH. repeat case_decide; simplify_eq; try done.
Qed.

Lemma count_zero `{EqDecision A} (x : A) l : count x l = 0 ↔ x ∉ l.
Proof. rewrite <- count_pos. lia. Qed.

Lemma mjoin_cons (l : list label) (v : list (list label)) :
  mjoin (l :: v) = l ++ mjoin v.
Proof. done. Qed.

Lemma mjoin_lookup_Permutation (v : list (list label)) i inds :
  v !! i = Some inds → mjoin v ≡ₚ inds ++ mjoin (delete i v).
Proof.
  intros Hi. rewrite <- mjoin_cons. apply join_Permutation.
  by apply delete_Permutation.
Qed.

Lemma mjoin_snoc (v : list (list label)) l : mjoin (v ++ [l]) ≡ₚ l ++ mjoin v.
Proof.
  rewrite join_app. simpl. rewrite app_nil_r. apply Permutation_app_comm.
Qed.

Lemma count_mjoin_alter (v : list (list label)) i x y :
  i < length v →
  count x (mjoin (alter (λ inds, inds ++ [y]) i v))
  = count x (mjoin v) + (if decide (y = x) then 1 else 0).
Proof.
  intros Hi. destruct (lookup_lt_is_Some_2 v i Hi) as [inds Hinds].
  assert (alter (λ inds, inds ++ [y]) i v !! i = Some (inds ++ [y])) as Ha
    by (by rewrite list_lookup_alter_eq, Hinds).
  rewrite (count_Permutation _ _ _ (mjoin_lookup_Permutation _ _ _ Ha)).
  rewrite (count_Permutation _ _ _ (mjoin_lookup_Permutation _ _ _ Hinds)).
  assert (delete i (alter (λ inds, inds ++ [y]) i v) = delete i v) as ->.
  { clear. revert i. induction v as [|l v IH]; intros [|i]; simpl; [done..|].
    f_equal. apply IH. }
  rewrite !count_app, count_cons, count_nil. lia.
Qed.

Lemma count_mjoin_two (v : list (list label)) i j a b x :
  i ≠ j → v !! i = Some a → v !! j = Some b → x ∈ a → x ∈ b →
  2 ≤ count x (mjoin v).
Proof.
  intros Hne Ha Hb Hxa Hxb.
  rewrite (count_Permutation _ _ _ (mjoin_lookup_Permutation _ _ _ Ha)).
  rewrite count_app. apply count_pos in Hxa.
  assert (b ∈ delete i v) as Hin.
  { apply list_elem_of_lookup.
    destruct (decide (j < i)).
    - exists j. by rewrite list_lookup_delete_lt.
    - exists (pred j). rewrite list_lookup_delete_ge by lia.
      by replace (S (pred j)) with j by lia. }
  apply list_elem_of_lookup in Hin as [k Hk].
  rewrite (count_Permutation _ _ _ (mjoin_lookup_Permutation _ _ _ Hk)).
  rewrite count_app. apply count_pos in Hxb. lia.
Qed.

(** the leg lists after a contraction: the participants, whose labels are
    [parts], are replaced by one leg list without the labels of [icon] *)
Lemma degrees_ok_contract v order R parts icon :
  mjoin v ≡ₚ parts ++ mjoin R →
  (∀ x, x ∈ icon → x ∉ mjoin R) →
  degrees_ok v order →
  degrees_ok (R ++ [filter (λ i, i ∉ icon) parts]) (renew_order order icon).
Proof.
  intros Hperm Hicon Hdeg x. destruct (Hdeg x) as [Hle Hiff].
  rewrite (count_Permutation _ _ _ (mjoin_snoc _ _)).
  rewrite (count_Permutation _ _ _ Hperm) in Hle, Hiff.
  rewrite count_app in *. rewrite count_filter_not_in.
  unfold renew_order. rewrite list_elem_of_filter.
  destruct (decide (x ∈ icon)) as [Hx|Hx].
  - pose proof (Hicon _ Hx) as Hz. apply count_zero in Hz. rewrite Hz.
    split; [lia|]. split; [by intros [? _] | lia].
  - split; [done|]. rewrite <- Hiff. tauto.
Qed.

Lemma degrees_ok_link v order c d dim_num :
  c < length v → d < length v →
  smallest_unused order dim_num →
  degrees_ok v order → positives_listed v order →
  degrees_ok (linked_v c d (LInt dim_num) v) (order ++ [LInt dim_num])
  ∧ positives_listed (linked_v c d (LInt dim_num) v) (order ++ [LInt dim_num]).
Proof.
  intros Hc Hd (Hpos & Hfresh & _) Hdeg Hlisted.
  assert (∀ x, count x (mjoin (linked_v c d (LInt dim_num) v))
               = count x (mjoin v) + (if decide (LInt dim_num = x) then 2 else 0))
    as Hcount.
  { intros x. unfold linked_v.
    rewrite count_mjoin_alter by (by rewrite length_alter).
    rewrite count_mjoin_alter by done. case_decide; lia. }
  assert (count (LInt dim_num) (mjoin v) = 0) as Hzero.
  { apply count_zero. intros Hin. apply Hfresh. by apply Hlisted. }
  split.
  - intros x. rewrite Hcount, elem_of_app, list_elem_of_singleton.
    destruct (Hdeg x) as [Hle Hiff]. case_decide as Hx.
    + subst x. rewrite Hzero. split; [lia|]. split; [done | by right].
    + rewrite Nat.add_0_r. split; [done|]. rewrite <- Hiff.
      split; [intros [?|?]; [done | congruence] | by left].
  - intros z Hz Hin. rewrite elem_of_app, list_elem_of_singleton.
    destruct (decide (LInt dim_num = LInt z)) as [Heq|Hne]; [right; congruence|].
    left. apply Hlisted; [done|]. apply count_pos. apply count_pos in Hin.
    rewrite Hcount in Hin. rewrite decide_False in Hin by done. lia.
Qed.

(** ** Contracting keeps the graph connected *)

Lemma lookup_delete_unshift {A} (l : list A) a k :
  delete a l !! k = l !! unshift a k.
Proof.
  unfold unshift. case_decide.
  - by apply list_lookup_delete_lt.
  - apply list_lookup_delete_ge. lia.
Qed.

Lemma unshift_shift a i : i ≠ a → unshift a (shift a i) = i.
Proof. unfold shift, unshift. intros. repeat case_decide; lia. Qed.

Lemma shift_unshift a k : shift a (unshift a k) = k.
Proof. unfold shift, unshift. repeat case_decide; lia. Qed.

Lemma unshift_ne a k : unshift a k ≠ a.
Proof. unfold unshift. case_decide; lia. Qed.

Lemma lookup_delete_shift {A} (l : list A) a i :
  i ≠ a → delete a l !! shift a i = l !! i.
Proof. intros Hne. by rewrite lookup_delete_unshift, unshift_shift. Qed.

Lemma connected_map v v' (f : nat → nat) :
  (∀ k, k < length v' → ∃ i, i < length v ∧ f i = k) →
  (∀ i j, adjacent v i j → f i = f j ∨ adjacent v' (f i) (f j)) →
  connected v → connected v'.
Proof.
  intros Hsurj Hadj Hconn k1 k2 Hk1 Hk2.
  destruct (Hsurj _ Hk1) as (i1 & Hi1 & <-).
  destruct (Hsurj _ Hk2) as (i2 & Hi2 & <-).
  specialize (Hconn i1 i2 Hi1 Hi2). clear Hk1 Hk2 Hi1 Hi2.
  induction Hconn as [|i j k Hij _ IH]; [done|].
  destruct (Hadj _ _ Hij) as [->|Hstep]; [done|].
  by eapply rtc_l.
Qed.

(** The participants (the positions satisfying [T]) are merged into one
    new leg list, placed last; [f] sends an old position to the new one. *)
Lemma connected_merge (v R : list (list label)) (parts icon : list label)
    (T : nat → Prop) (f : nat → nat) :
  (∀ i, Decision (T i)) →
  (∀ i, ¬ T i → R !! f i = v !! i) →
  (∀ k, k < length R → ∃ i, ¬ T i ∧ i < length v ∧ f i = k) →
  (∀ i, T i → f i = length R) →
  (∃ i, T i ∧ i < length v) →
  (∀ i inds, T i → v !! i = Some inds → inds ⊆ parts) →
  (∀ x, x ∈ icon → x ∉ mjoin R) →
  connected v → connected (R ++ [filter (λ i, i ∉ icon) parts]).
Proof.
  intros Hdec Hkeep Hsurj Hlast (t & Ht & Htlt) Hparts Hicon.
  set (newv := filter (λ i, i ∉ icon) parts).
  assert (∀ i inds, v !! i = Some inds →
            ∃ inds', (R ++ [newv]) !! f i = Some inds'
                     ∧ ∀ x, x ∈ inds → x ∉ icon → x ∈ inds') as Hlook.
  { intros i inds Hi. destruct (decide (T i)) as [HT|HT].
    - exists newv. rewrite (Hlast _ HT), list_lookup_middle by done.
      split; [done|]. intros x Hx Hn. apply list_elem_of_filter.
      split; [done|]. by eapply Hparts.
    - exists inds. split; [|done].
      assert (R !! f i = Some inds) as HR by (by rewrite Hkeep).
      rewrite lookup_app_l; [done | by eapply lookup_lt_Some]. }
  assert (∀ i inds x, ¬ T i → v !! i = Some inds → x ∈ inds → x ∉ icon)
    as Hsurvive.
  { intros i inds x HT Hi Hx Hin. apply (Hicon _ Hin).
    apply list_elem_of_join. exists inds. split; [done|].
    eapply list_elem_of_lookup_2. by rewrite Hkeep. }
  apply (connected_map v _ f).
  - intros k Hk. rewrite length_app in Hk. simpl in Hk.
    destruct (decide (k < length R)) as [Hlt|Hge].
    + destruct (Hsurj _ Hlt) as (i & _ & ? & ?). eauto.
    + exists t. split; [done|]. rewrite (Hlast _ Ht). lia.
  - intros i j (x & a & b & Ha & Hb & Hxa & Hxb).
    destruct (decide (f i = f j)) as [|Hne]; [by left|]. right.
    assert (x ∉ icon) as Hx.
    { destruct (decide (T i)) as [HTi|HTi]; [|by eapply Hsurvive].
      destruct (decide (T j)) as [HTj|HTj]; [|by eapply Hsurvive].
      destruct Hne. by rewrite !Hlast. }
    destruct (Hlook _ _ Ha) as (a' & Ha' & Hsa).
    destruct (Hlook _ _ Hb) as (b' & Hb' & Hsb).
    exists x, a', b'. split_and!; auto.
Qed.

Section scheduler_connected.
Context `{Backend Tensor}.
Implicit Types s : state Tensor.

Lemma step_loop_inv s s' :
  loop_inv s → step s = (Ok (), s') → loop_inv s'.
Proof.
  intros (Hlen & Hne & Hdeg & Hconn) Hstep.
  destruct (step_inv _ _ Hstep) as (idx & rest & Ho &
    [(a & va & A & ax1 & ax2 & new_A & Ht & Ha & HA & Hc & _ & _ & _ & ->)
    |(a & b & va & vb & A & B & new_A & icon & Ht & Hab & Ha & Hb & HA & HB
        & Hicon & _ & ->)]);
    unfold loop_inv; cbn [st_L st_v st_order].
  - pose proof (mjoin_lookup_Permutation _ _ _ Ha) as Hperm.
    assert (∀ x, x ∈ [idx] → x ∉ mjoin (delete a (st_v s))) as Hic.
    { intros x Hx. apply list_elem_of_singleton in Hx as ->.
      apply count_zero. destruct (Hdeg idx) as [Hle _].
      rewrite (count_Permutation _ _ _ Hperm), count_app in Hle. lia. }
    split_and!.
    + rewrite !length_app, !length_delete by eauto. simpl. lia.
    + intros Hnil. apply (f_equal length) in Hnil.
      rewrite length_app in Hnil. simpl in Hnil. lia.
    + by apply (degrees_ok_contract (st_v s) (st_order s)
                  (delete a (st_v s)) va [idx]).
    + apply (connected_merge (st_v s) _ va [idx] (λ i, i = a)
               (λ i, if decide (i = a) then length (delete a (st_v s))
                     else shift a i)); try done.
      * apply _.
      * intros i Hi. rewrite decide_False by done.
        by apply lookup_delete_shift.
      * intros k Hk. exists (unshift a k).
        pose proof (unshift_ne a k).
        split_and!; [done| |].
        -- apply lookup_lt_is_Some. rewrite <- lookup_delete_unshift.
           by apply lookup_lt_is_Some.
        -- rewrite decide_False by done. apply shift_unshift.
      * intros i ->. by rewrite decide_True.
      * exists a. split; [done | by eapply lookup_lt_Some].
      * intros i inds -> Hi. by simplify_eq.
  - assert (delete b (st_v s) !! a = Some va) as Ha'
      by (by rewrite list_lookup_delete_lt).
    assert (mjoin (st_v s)
            ≡ₚ (va ++ vb) ++ mjoin (delete a (delete b (st_v s)))) as Hperm.
    { rewrite (mjoin_lookup_Permutation _ _ _ Hb).
      rewrite (mjoin_lookup_Permutation _ _ _ Ha').
      rewrite !app_assoc. apply Permutation_app_tail, Permutation_app_comm. }
    assert (∀ x, x ∈ icon → x ∉ mjoin (delete a (delete b (st_v s)))) as Hic.
    { intros x Hx. subst icon.
      apply elem_of_elements, elem_of_intersection in Hx as [Hxa Hxb].
      rewrite elem_of_list_to_set in Hxa, Hxb.
      apply count_pos in Hxa, Hxb.
      apply count_zero. destruct (Hdeg x) as [Hle _].
      rewrite (count_Permutation _ _ _ Hperm), !count_app in Hle. lia. }
    pose proof (length_delete _ _ (mk_is_Some _ _ HB)).
    pose proof (length_delete _ _ (mk_is_Some _ _ Hb)).
    pose proof (lookup_lt_Some _ _ _ HA). pose proof (lookup_lt_Some _ _ _ HB).
    pose proof (lookup_lt_Some _ _ _ Ha). pose proof (lookup_lt_Some _ _ _ Hb).
    split_and!.
    + rewrite !length_app, !length_delete;
        [simpl; lia | apply lookup_lt_is_Some; lia..].
    + intros Hnil. apply (f_equal length) in Hnil.
      rewrite length_app in Hnil. simpl in Hnil. lia.
    + rewrite <- filter_app.
      by apply (degrees_ok_contract (st_v s) (st_order s)
                  (delete a (delete b (st_v s))) (va ++ vb) icon).
    + rewrite <- filter_app.
      apply (connected_merge (st_v s) _ (va ++ vb) icon (λ i, i = a ∨ i = b)
               (λ i, if decide (i = a ∨ i = b)
                     then length (delete a (delete b (st_v s)))
                     else shift a (shift b i))); try done.
      * apply _.
      * intros i Hi. rewrite decide_False by done.
        rewrite lookup_delete_shift, lookup_delete_shift; [done|lia|].
        unfold shift. case_decide; lia.
      * intros k Hk. exists (unshift b (unshift a k)).
        pose proof (unshift_ne a k). pose proof (unshift_ne b (unshift a k)).
        assert (unshift b (unshift a k) ≠ a)
          by (unfold unshift in *; repeat case_decide; lia).
        split_and!; [lia| |].
        -- apply lookup_lt_is_Some. rewrite <- !lookup_delete_unshift.
           by apply lookup_lt_is_Some.
        -- rewrite decide_False by lia.
           by rewrite shift_unshift, shift_unshift.
      * intros i Hi. by rewrite decide_True.
      * exists a. split; [by left | done].
      * intros i inds [->| ->] Hi; simplify_eq; intros x Hx;
          apply elem_of_app; auto.
Qed.

(** Without edges, a connected graph has a single node. *)
Lemma connected_no_shared_label v :
  connected v → degrees_ok v [] → length v ≤ 1.
Proof.
  intros Hconn Hdeg.
  assert (∀ i j, rtc (adjacent v) i j → i = j) as Hsame.
  { induction 1 as [|i k j Hik _ IH]; [done|]. subst k.
    destruct Hik as (x & a & b & Ha & Hb & Hxa & Hxb).
    destruct (decide (i = j)) as [|Hne]; [done|].
    pose proof (count_mjoin_two _ _ _ _ _ _ Hne Ha Hb Hxa Hxb) as H2.
    destruct (Hdeg x) as [Hle Hiff].
    assert (x ∈ []) as Hin by (apply Hiff; lia). by apply elem_of_nil in Hin. }
  destruct (decide (length v ≤ 1)) as [|Hgt]; [done|].
  assert (0 = 1) by (apply Hsame, Hconn; lia). done.
Qed.

Lemma contract_loop_inv fuel s s' :
  loop_inv s → contract fuel s = (Ok (), s') →
  loop_inv s' ∧ st_order s' = [].
Proof.
  revert s. induction fuel as [|fuel IH]; intros s Hinv; cbn [contract].
  - destruct (st_order s) eqn:E; [|done]. by intros [= <-].
  - destruct (st_order s) eqn:E; [by intros [= <-]|].
    intros Hc. apply run_bind_Ok in Hc as ([] & s1 & Hstep & Hc).
    apply (IH s1); [|done]. by eapply step_loop_inv.
Qed.

Lemma contract_one_tensor fuel s s' :
  loop_inv s → contract fuel s = (Ok (), s') →
  length (st_L s') = 1 ∧ length (st_v s') = 1 ∧ st_order s' = [].
Proof.
  intros Hinv Hc.
  destruct (contract_loop_inv _ _ _ Hinv Hc) as [(Hlen & Hne & Hdeg & Hconn) Ho].
  rewrite Ho in Hdeg. pose proof (connected_no_shared_label _ Hconn Hdeg).
  destruct (st_v s') as [|? [|? ?]]; simpl in *; [done | auto | lia].
Qed.

End scheduler_connected.

(** ** From the validator to the scheduler loop *)

Section pipeline.
Context `{Backend Tensor} `{SetPop}.
Implicit Types s : state Tensor.

Lemma validated_degrees (L : list Tensor) v order forder b :
  do_check_indices L v order forder = Ok b → order_covers v order →
  degrees_ok v order ∧ positives_listed v order.
Proof.
  intros Hb [Hcov Hpos]. split; [|done].
  apply do_check_indices_Ok in Hb as [_ Hno].
  assert (∀ e, e ∈ order → count e (mjoin v) = 2) as Hin.
  { intros e He. destruct (decide (count e (mjoin v) = 2)) as [|Hne]; [done|].
    destruct Hno. right. right. left. eauto. }
  intros x. split.
  - destruct (decide (count x (mjoin v) ≤ 2)) as [|Hgt]; [done|].
    assert (x ∈ order) as Hx by (apply Hcov; lia). apply Hin in Hx. lia.
  - split; [apply Hin|]. intros Hc. apply Hcov. lia.
Qed.

Lemma link_all_degrees c rest s s' :
  length (st_L s) = length (st_v s) →
  degrees_ok (st_v s) (st_order s) → positives_listed (st_v s) (st_order s) →
  link_all c rest s = (Ok (), s') →
  length (st_L s') = length (st_v s')
  ∧ degrees_ok (st_v s') (st_order s')
  ∧ positives_listed (st_v s') (st_order s').
Proof.
  revert s. induction rest as [|comp rest IH]; intros s Hlen Hdeg Hpos;
    cbn [link_all].
  - rewrite run_ret. by intros [= <-].
  - intros Hl. apply run_bind_Ok in Hl as ([] & s1 & Hlink & Hl).
    destruct (link_inv _ _ _ _ Hlink)
      as (d & A_c & A_d & vc & vd & A_c' & A_d' & dim & Hd & HAc & HAd & Hvc & Hvd
            & _ & _ & Hsmall & ->).
    apply lookup_lt_Some in Hvc, Hvd.
    destruct (degrees_ok_link _ _ c d dim Hvc Hvd Hsmall Hdeg Hpos) as [Hdeg' Hpos'].
    eapply IH; [| | |exact Hl]; cbn [st_L st_v st_order]; try done.
    unfold linked_v. by rewrite !length_insert, !length_alter.
Qed.

Lemma connect_graph_loop_inv (L : list Tensor) v order forder b calls s1 :
  do_check_indices L v order forder = Ok b → order_covers v order →
  connect_graph (State L v order calls) = (Ok (), s1) → loop_inv s1.
Proof.
  intros Hb Hcov Hc.
  destruct (validated_degrees _ _ _ _ _ Hb Hcov) as [Hdeg Hpos].
  assert (length L = length v) as Hlen.
  { unfold do_check_indices in Hb. by case_decide. }
  pose proof (connect_graph_connected (State L v order calls) _ Hlen Hc) as Hconn.
  destruct (connect_graph_inv _ _ Hc)
    as (cc & last & rest & c & Hcc & Hrev & Hcl & Hl).
  cbn [st_L st_v] in Hcc. rewrite Hlen in Hcc.
  destruct (components_of_network v) as (cc' & visited & Hcc' & Hcinv).
  rewrite Hcc in Hcc'. injection Hcc' as <-.
  destruct (link_all_degrees c rest (State L v order calls) s1 Hlen Hdeg Hpos Hl)
    as (Hlen' & Hdeg' & _).
  destruct (link_all_inv _ _ _ _ Hl) as [[Hsame _] _]. cbn [st_v] in Hsame.
  assert (c < length v) as Hclt.
  { apply (ci_range _ _ _ _ _ Hcinv last); [|done].
    apply elem_of_reverse. rewrite Hrev. by left. }
  split_and!; try done.
  intros Hnil. rewrite Hnil in Hsame. simpl in Hsame. lia.
Qed.

(** C2: the scheduler loop always ends within [len(order)] iterations:
    an iteration either raises or removes from [order] the labels of
    [icon], among them [order[0]] ([icon] is [[order[0]]] for a self-trace
    and the labels shared by the two participants otherwise).  On an input
    that passes validation and connectivity repair, and whose [order]
    lists every label carried by more than one leg and every positive
    integer label, the loop leaves exactly one tensor when it exits. *)
Theorem scheduler_terminates :
  (∀ s fuel, length (st_order s) ≤ fuel → in_budget (contract fuel s).1)
  ∧ (∀ s s', step s = (Ok (), s') →
       ∃ index tcon icon,
         st_order s !! 0 = Some index
         ∧ get_tcon (st_v s) index = Ok tcon
         ∧ ((∃ a, tcon = [a] ∧ icon = [index])
            ∨ (∃ a b va vb, tcon = [a; b]
                 ∧ st_v s !! a = Some va ∧ st_v s !! b = Some vb
                 ∧ ∀ x, x ∈ icon ↔ x ∈ va ∧ x ∈ vb))
         ∧ index ∈ icon
         ∧ st_order s' = renew_order (st_order s) icon
         ∧ length (st_order s') < length (st_order s))
  ∧ (∀ (L : list Tensor) v order forder b calls s1 s2,
       do_check_indices L v order forder = Ok b →
       order_covers v order →
       connect_graph (State L v order calls) = (Ok (), s1) →
       contract (length (st_order s1)) s1 = (Ok (), s2) →
       length (st_L s2) = 1 ∧ length (st_v s2) = 1 ∧ st_order s2 = []).
Proof.
  split_and!.
  - intros s fuel. apply contract_in_budget.
  - intros s s' Hstep.
    assert (∀ index rest icon, index ∈ icon →
              length (renew_order (index :: rest) icon)
              < length (index :: rest)) as Hshrink.
    { intros index rest icon Hin. unfold renew_order. rewrite filter_cons.
      rewrite decide_False by auto. simpl.
      pose proof (length_filter (λ i, i ∉ icon) rest). lia. }
    destruct (step_inv _ _ Hstep) as (idx & rest & Ho &
      [(a & va & A & ax1 & ax2 & new_A & Ht & Ha & _ & _ & _ & _ & _ & ->)
      |(a & b & va & vb & A & B & new_A & icon & Ht & _ & Ha & Hb & _ & _
          & Hicon & _ & ->)]);
      cbn [st_order]; rewrite Ho.
    + exists idx, [a], [idx].
      assert (idx ∈ [idx]) by (by left).
      split_and!; try done; [left; eauto | by apply Hshrink].
    + exists idx, [a; b], icon.
      assert (∀ x, x ∈ icon ↔ x ∈ va ∧ x ∈ vb) as Hi.
      { intros x. subst icon.
        by rewrite elem_of_elements, elem_of_intersection, !elem_of_list_to_set. }
      assert (idx ∈ icon) as Hin.
      { apply Hi. apply get_tcon_Ok_cases in Ht
          as [(? & ? & [=] & _)|(a' & b' & va' & vb' & [= <- <-] & _ & Ha' & Hb'
                & Hia & Hib & _)].
        by simplify_eq. }
      split_and!; try done; [right; eauto 10 | by apply Hshrink].
  - intros L v order forder b calls s1 s2 Hb Hcov Hc Hloop.
    eapply contract_one_tensor; [|done].
    by eapply connect_graph_loop_inv.
Qed.

End pipeline.

(** ** The shape-level backend meets the contracts *)

Lemma length_remove_axes (pos A : list nat) :
  NoDup pos → Forall (λ i, i < length A) pos →
  length (remove_axes pos A) + length pos = length A.
Proof.
  intros Hnd Hlt. unfold remove_axes. rewrite length_fmap.
  pose proof (length_filter_complement (λ p : nat * nat, p.1 ∈ pos) (enumerate A))
    as Hsplit.
  rewrite length_enumerate in Hsplit.
  assert (length (filter (λ p : nat * nat, p.1 ∈ pos) (enumerate A)) = length pos)
    as Hin.
  { rewrite <- (length_fmap fst). apply Permutation_length, NoDup_Permutation.
    - apply (sublist_NoDup _ (enumerate A).*1).
      + rewrite fst_enumerate. apply NoDup_seq.
      + apply fmap_sublist, sublist_filter; apply _.
    - done.
    - intros i. rewrite list_elem_of_fmap. split.
      + intros ([j x] & -> & Hp). by apply list_elem_of_filter in Hp as [? _].
      + intros Hi. rewrite Forall_forall in Hlt.
        destruct (lookup_lt_is_Some_2 A i (Hlt _ Hi)) as [x Hx].
        exists (i, x). split; [done|]. apply list_elem_of_filter.
        split; [done | by apply elem_of_enumerate]. }
  rewrite Hin in Hsplit. lia.
Qed.

Lemma axes_ok_true pos A :
  axes_ok pos A = true → NoDup pos ∧ Forall (λ i, i < length A) pos.
Proof. unfold axes_ok. apply bool_decide_eq_true_1. Qed.

#[export] Instance shape_backend_laws : BackendLaws (Tensor := list nat).
Proof.
  split.
  - intros A B [pos1 pos2] C. cbn [con backend]. unfold shape_con. simpl.
    destruct (axes_ok pos1 A) eqn:E1; [|done].
    destruct (axes_ok pos2 B) eqn:E2; [|done]. simpl.
    case_bool_decide as Hs; [|done]. intros [= <-].
    apply axes_ok_true in E1 as [? ?]. apply axes_ok_true in E2 as [? ?].
    apply (f_equal length) in Hs. unfold sizes in Hs.
    rewrite !length_fmap in Hs. split; [done|].
    unfold rank. cbn [shape backend]. rewrite length_app.
    pose proof (length_remove_axes pos1 A ltac:(done) ltac:(done)).
    pose proof (length_remove_axes pos2 B ltac:(done) ltac:(done)).
    lia.
  - intros A axis1 axis2 C. cbn [trace backend]. unfold shape_trace.
    destruct (axes_ok [axis1; axis2] A) eqn:E1; [|done]. simpl.
    case_bool_decide; [|done]. intros [= <-].
    apply axes_ok_true in E1 as [? ?]. unfold rank. cbn [shape backend].
    pose proof (length_remove_axes [axis1; axis2] A ltac:(done) ltac:(done)).
    simpl in *. lia.
  - intros A axis C. cbn [expand_dims backend]. unfold shape_expand_dims.
    case_bool_decide; [|done]. intros [= <-]. unfold rank. cbn [shape backend].
    rewrite length_app. simpl. lia.
Qed.

(** ** Concrete networks *)

Lemma matmul_order_covers : order_covers matmul_v [LInt 1].
Proof.
  assert (∀ x, LInt 1 ≠ x → count x (mjoin matmul_v) ≤ 1) as Hcount.
  { intros x Hx. unfold matmul_v. simpl. rewrite !count_cons, count_nil.
    repeat case_decide; simplify_eq; lia. }
  split.
  - intros x Hx. destruct (decide (LInt 1 = x)) as [<-|Hne]; [by left|].
    specialize (Hcount _ Hne). lia.
  - intros z Hz Hin. unfold matmul_v in Hin. simpl in Hin.
    rewrite !elem_of_cons, elem_of_nil in Hin.
    destruct Hin as [Hin|[Hin|[Hin|[Hin|[]]]]]; simplify_eq; try lia; by left.
Qed.

Lemma scheduler_terminates_witness :
  do_check_indices matmul_L matmul_v [LInt 1] [LInt (-1); LInt (-2)] = Ok true
  ∧ order_covers matmul_v [LInt 1]
  ∧ connect_graph matmul_state = (Ok (), matmul_state)
  ∧ contract 1 matmul_state = (Ok (), matmul_result)
  ∧ (length (st_L matmul_result) = 1 ∧ length (st_v matmul_result) = 1
     ∧ st_order matmul_result = []).
Proof.
  assert (do_check_indices matmul_L matmul_v [LInt 1] [LInt (-1); LInt (-2)]
          = Ok true) as Hcheck by (vm_compute; reflexivity).
  assert (connect_graph matmul_state = (Ok (), matmul_state)) as Hconnect
    by (vm_compute; reflexivity).
  assert (contract 1 matmul_state = (Ok (), matmul_result)) as Hloop
    by (vm_compute; reflexivity).
  split; [exact Hcheck|]. split; [exact matmul_order_covers|].
  split; [exact Hconnect|]. split; [exact Hloop|].
  exact (proj2 (proj2 (scheduler_terminates (Tensor := list nat)))
           matmul_L matmul_v [LInt 1] [LInt (-1); LInt (-2)] true []
           matmul_state matmul_result
           Hcheck matmul_order_covers Hconnect Hloop).
Defined.

(** The network [zero_v] passes validation (also with the default order)
    and needs no repair, the loop exits at once, and two tensors remain. *)
Lemma scheduler_two_tensors_counterexample :
  preprocess_forder_order PyNone zero_v "order" = Ok []
  ∧ preprocess_forder_order PyNone zero_v "forder" = Ok []
  ∧ do_check_indices zero_L zero_v [] [] = Ok true
  ∧ connect_graph zero_state = (Ok (), zero_state)
  ∧ contract (length (st_order zero_state)) zero_state = (Ok (), zero_state)
  ∧ length (st_L zero_state) ≠ 1.
Proof.
  split_and!; [vm_compute; reflexivity..|]. vm_compute. lia.
Qed.

(** In [collision_v] every repeated label is in [order], but the positive
    label 1, free and carried once, is not: the repair reuses 1 as its
    synthetic label, the contraction over 9 then also removes 1, and the
    loop exits with two tensors. *)
Lemma repair_label_collision_example :
  do_check_indices collision_L collision_v [LInt 9] [LInt 1; LInt 8] = Ok true
  ∧ (∀ x, 2 ≤ count x (mjoin collision_v) → x ∈ [LInt 9])
  ∧ (connect_graph;; order ← get_order; contract (length order)) collision_state
    = (Ok (), collision_result)
  ∧ length (st_L collision_result) = 2.
Proof.
  split; [vm_compute; reflexivity|]. split; [|split; [vm_compute; reflexivity|done]].
  intros x Hx. destruct (decide (LInt 9 = x)) as [<-|Hne]; [by left|].
  unfold collision_v in Hx. simpl in Hx. rewrite !count_cons, count_nil in Hx.
  repeat case_decide; simplify_eq; lia.
Qed.

Lemma network_invariant_preserved_witness :
  do_check_indices matmul_L matmul_v [LInt 1] [LInt (-1); LInt (-2)] = Ok true
  ∧ step matmul_state = (Ok (), matmul_result)
  ∧ network_inv (st_L matmul_state) (st_v matmul_state)
  ∧ network_inv (st_L matmul_result) (st_v matmul_result).
Proof.
  assert (do_check_indices matmul_L matmul_v [LInt 1] [LInt (-1); LInt (-2)]
          = Ok true) as Hcheck by (vm_compute; reflexivity).
  assert (step matmul_state = (Ok (), matmul_result)) as Hstep
    by (vm_compute; reflexivity).
  destruct (network_invariant_preserved (Tensor := list nat))
    as (Hvalid & _ & Hpreserved).
  pose proof (Hvalid _ _ _ _ _ Hcheck) as Hinv.
  split; [exact Hcheck|]. split; [exact Hstep|]. split; [exact Hinv|].
  exact (proj1 (Hpreserved matmul_state matmul_result Hinv Hstep)).
Defined.

Lemma connect_graph_spec_witness :
  length (st_L outer_state) = length (st_v outer_state)
  ∧ in_budget (connect_graph outer_state).1
  ∧ ∀ s', connect_graph outer_state = (Ok (), s') →
      connected (st_v s') ∧ ∃ c, rtc (is_link c) outer_state s'.
Proof.
  split; [reflexivity|]. apply (connect_graph_spec outer_state). reflexivity.
Defined.

Lemma do_check_indices_raises_iff_witness :
  malformed mismatched_L matmul_v [LInt 1] [LInt (-1); LInt (-2)]
  ∧ raises (do_check_indices mismatched_L matmul_v [LInt 1] [LInt (-1); LInt (-2)])
  ∧ ¬ malformed matmul_L matmul_v [LInt 1] [LInt (-1); LInt (-2)]
  ∧ do_check_indices matmul_L matmul_v [LInt 1] [LInt (-1); LInt (-2)] = Ok true.
Proof.
  destruct (do_check_indices_raises_iff mismatched_L matmul_v [LInt 1]
              [LInt (-1); LInt (-2)]) as [Hbad _].
  destruct (do_check_indices_raises_iff matmul_L matmul_v [LInt 1]
              [LInt (-1); LInt (-2)]) as [Hgood Hok].
  assert (¬ malformed matmul_L matmul_v [LInt 1] [LInt (-1); LInt (-2)]) as Hno.
  { intros Hm. apply Hgood in Hm as [e He]. vm_compute in He. discriminate He. }
  split; [exact ncon_malformed_witness_malformed|].
  split; [exact (proj2 Hbad ncon_malformed_witness_malformed)|].
  split; [exact Hno | exact (Hok Hno)].
Defined.

Lemma get_tcon_spec_witness :
  get_tcon matmul_v (LInt 1) = Ok [0; 1]
  ∧ length [0; 1] = length (carriers matmul_v (LInt 1))
  ∧ StronglySorted lt [0; 1]
  ∧ ∀ i, i ∈ [0; 1] ↔ ∃ inds, matmul_v !! i = Some inds ∧ LInt 1 ∈ inds.
Proof.
  assert (get_tcon matmul_v (LInt 1) = Ok [0; 1]) as Ht
    by (vm_compute; reflexivity).
  split; [exact Ht|].
  exact (proj2 (get_tcon_spec matmul_v (LInt 1)) [0; 1] Ht).
Defined.

(** * Further properties of the planner *)

(** ** The helper functions of the scheduler *)

Lemma NoDup_select {A} (P : A → Prop) `{!∀ x, Decision (P x)} (l : list A) :
  NoDup (select P l).
Proof.
  unfold select. apply (sublist_NoDup _ (enumerate l).*1).
  - rewrite fst_enumerate. apply NoDup_seq.
  - apply fmap_sublist, sublist_filter; apply _.
Qed.

Lemma elem_of_positions e (inds : list label) p :
  p ∈ positions e inds ↔ inds !! p = Some e.
Proof.
  change (positions e inds) with (select (λ x, x = e) inds).
  rewrite elem_of_select. naive_solver.
Qed.

Lemma elem_of_icon_positions icon (inds : list label) p :
  p ∈ icon_positions icon inds ↔ ∃ e, e ∈ icon ∧ inds !! p = Some e.
Proof.
  unfold icon_positions. rewrite list_elem_of_join. split.
  - intros (ps & Hp & Hps). apply list_elem_of_fmap in Hps as (e & -> & He).
    apply elem_of_positions in Hp. eauto.
  - intros (e & He & Hp). exists (positions e inds).
    split; [by apply elem_of_positions|]. apply list_elem_of_fmap. eauto.
Qed.

Lemma NoDup_icon_positions icon (inds : list label) :
  NoDup icon → NoDup (icon_positions icon inds).
Proof.
  induction 1 as [|e icon He Hnd IH]; [constructor|].
  change (NoDup (positions e inds ++ icon_positions icon inds)).
  apply NoDup_app. split_and!; [exact (NoDup_select (λ x, x = e) inds)| |done].
  intros p Hp Hq. apply elem_of_positions in Hp.
  apply elem_of_icon_positions in Hq as (e' & He' & Hq). congruence.
Qed.

Lemma icon_positions_Permutation icon (inds : list label) :
  NoDup icon → icon_positions icon inds ≡ₚ select (λ x, x ∈ icon) inds.
Proof.
  intros Hnd. apply NoDup_Permutation.
  - by apply NoDup_icon_positions.
  - apply NoDup_select.
  - intros p. rewrite elem_of_icon_positions, elem_of_select. naive_solver.
Qed.

(** when every label of [icon] is on one leg of [inds], its entry of
    [icon_positions] is the position of that leg *)
Lemma icon_positions_single icon (inds : list label) :
  (∀ e, e ∈ icon → count e inds = 1) →
  Forall2 (λ e p, inds !! p = Some e) icon (icon_positions icon inds).
Proof.
  induction icon as [|e icon IH]; intros Hone; [constructor|].
  change (icon_positions (e :: icon) inds)
    with (positions e inds ++ icon_positions icon inds).
  assert (length (positions e inds) = 1) as Hlen
    by (rewrite length_positions; apply Hone; by left).
  destruct (positions e inds) as [|p [|? ?]] eqn:Ep; try done.
  simpl. constructor.
  - apply elem_of_positions. rewrite Ep. by left.
  - apply IH. intros e' He'. apply Hone. by right.
Qed.

(** X1: [get_icon] raises [IndexError] when fewer than two participants are
    given; otherwise it reads the leg lists of the first two participants
    and returns, without repetition, exactly the labels that occur in
    both. *)
Theorem get_icon_shared_labels (v : list (list label)) (tcon : list nat) :
  (length tcon < 2 → get_icon v tcon = Err E_index)
  ∧ (∀ icon, get_icon v tcon = Ok icon →
       ∃ a b va vb, tcon !! 0 = Some a ∧ tcon !! 1 = Some b
         ∧ v !! a = Some va ∧ v !! b = Some vb
         ∧ NoDup icon ∧ ∀ x, x ∈ icon ↔ x ∈ va ∧ x ∈ vb).
Proof.
  split.
  - intros Hlen. unfold get_icon.
    destruct tcon as [|a [|b tcon]]; simpl in Hlen; [done| |lia].
    cbn. unfold py_get at 1. by destruct (v !! a).
  - intros icon Hi. unfold get_icon in Hi.
    apply bind_Ok in Hi as (a & Ha & Hi). apply bind_Ok in Hi as (va & Hva & Hi).
    apply bind_Ok in Hi as (b & Hb & Hi). apply bind_Ok in Hi as (vb & Hvb & Hi).
    apply py_get_Ok in Ha, Hva, Hb, Hvb. injection Hi as <-.
    exists a, b, va, vb. split_and!; [done..|apply NoDup_elements|].
    intros x.
    by rewrite elem_of_elements, elem_of_intersection, !elem_of_list_to_set.
Qed.

(** X2: for two participants [get_pos] returns, for each of them, the
    positions of the legs that carry a label of [icon], each position once;
    when every label of [icon] is on exactly one leg of each participant,
    the two lists are as long as [icon] and their entries at the same place
    are the positions of the same label, so that [con] pairs the legs that
    carry one label.  For a single participant the second list is empty. *)
Theorem get_pos_pairs_equal_labels (v : list (list label)) a b va vb icon :
  v !! a = Some va → v !! b = Some vb → NoDup icon →
  ∃ pos1 pos2,
    get_pos v [a; b] icon = Ok (pos1, pos2)
    ∧ get_pos v [a] icon = Ok (pos1, [])
    ∧ pos1 ≡ₚ select (λ x, x ∈ icon) va
    ∧ pos2 ≡ₚ select (λ x, x ∈ icon) vb
    ∧ ((∀ e, e ∈ icon → count e va = 1 ∧ count e vb = 1) →
       length pos1 = length icon ∧ length pos2 = length icon
       ∧ ∀ k e, icon !! k = Some e →
           ∃ p q, pos1 !! k = Some p ∧ pos2 !! k = Some q
                  ∧ va !! p = Some e ∧ vb !! q = Some e).
Proof.
  intros Ha Hb Hnd.
  exists (icon_positions icon va), (icon_positions icon vb).
  split_and!.
  - by apply get_pos_pair.
  - by apply get_pos_trace.
  - by apply icon_positions_Permutation.
  - by apply icon_positions_Permutation.
  - intros Hone.
    assert (Forall2 (λ e p, va !! p = Some e) icon (icon_positions icon va)) as H1
      by (apply icon_positions_single; intros e He; by apply Hone).
    assert (Forall2 (λ e p, vb !! p = Some e) icon (icon_positions icon vb)) as H2
      by (apply icon_positions_single; intros e He; by apply Hone).
    split_and!; [symmetry; by eapply Forall2_length..|].
    intros k e Hk.
    destruct (Forall2_lookup_l _ _ _ _ _ H1 Hk) as (p & Hp & Hvp).
    destruct (Forall2_lookup_l _ _ _ _ _ H2 Hk) as (q & Hq & Hvq).
    by exists p, q.
Qed.

Lemma get_pos_pairs_equal_labels_witness :
  ∃ pos1 pos2,
    get_pos matmul_v [0; 1] [LInt 1] = Ok (pos1, pos2)
    ∧ get_pos matmul_v [0] [LInt 1] = Ok (pos1, [])
    ∧ pos1 ≡ₚ select (λ x, x ∈ [LInt 1]) [LInt 1; LInt (-1)]
    ∧ pos2 ≡ₚ select (λ x, x ∈ [LInt 1]) [LInt 1; LInt (-2)]
    ∧ ((∀ e, e ∈ [LInt 1] →
          count e [LInt 1; LInt (-1)] = 1 ∧ count e [LInt 1; LInt (-2)] = 1) →
       length pos1 = length [LInt 1] ∧ length pos2 = length [LInt 1]
       ∧ ∀ k e, [LInt 1] !! k = Some e →
           ∃ p q, pos1 !! k = Some p ∧ pos2 !! k = Some q
                  ∧ [LInt 1; LInt (-1)] !! p = Some e
                  ∧ [LInt 1; LInt (-2)] !! q = Some e).
Proof.
  apply (get_pos_pairs_equal_labels matmul_v 0 1
           [LInt 1; LInt (-1)] [LInt 1; LInt (-2)] [LInt 1]).
  - reflexivity.
  - reflexivity.
  - apply NoDup_singleton.
Defined.

Lemma get_icon_shared_labels_witness :
  get_icon matmul_v [0] = Err E_index
  ∧ ∃ a b va vb, [0; 1] !! 0 = Some a ∧ [0; 1] !! 1 = Some b
      ∧ matmul_v !! a = Some va ∧ matmul_v !! b = Some vb
      ∧ NoDup [LInt 1] ∧ ∀ x, x ∈ [LInt 1] ↔ x ∈ va ∧ x ∈ vb.
Proof.
  split.
  - apply (proj1 (get_icon_shared_labels matmul_v [0])). simpl. lia.
  - apply (proj2 (get_icon_shared_labels matmul_v [0; 1])). vm_compute. reflexivity.
Defined.

(** *** Labels on two legs have a valid participant set *)

Lemma count_mjoin_carriers (v : list (list label)) x :
  count x (mjoin v) = count x (mjoin (carriers v x)).
Proof.
  unfold carriers. induction v as [|l v IH]; [done|].
  rewrite filter_cons, mjoin_cons, count_app, IH. case_decide as Hx.
  - by rewrite mjoin_cons, count_app.
  - apply count_zero in Hx. by rewrite Hx.
Qed.

Lemma length_le_count_mjoin (cs : list (list label)) x :
  Forall (λ inds, x ∈ inds) cs → length cs ≤ count x (mjoin cs).
Proof.
  induction 1 as [|l cs Hx _ IH]; [done|].
  rewrite mjoin_cons, count_app. apply count_pos in Hx. simpl. lia.
Qed.

Lemma get_tcon_count_two (v : list (list label)) index :
  count index (mjoin v) = 2 → ∃ tcon, get_tcon v index = Ok tcon.
Proof.
  intros Hc. rewrite count_mjoin_carriers in Hc.
  assert (Forall (λ inds, index ∈ inds) (carriers v index)) as Hall.
  { apply Forall_forall. intros inds Hin.
    by apply list_elem_of_filter in Hin as [? _]. }
  pose proof (length_le_count_mjoin _ _ Hall) as Hle. rewrite Hc in Hle.
  unfold get_tcon. rewrite get_tcon_select.
  pose proof (length_select (λ inds, index ∈ inds) v) as Hlen.
  pose proof (select_singleton (λ inds, index ∈ inds) v) as Hone.
  fold (carriers v index) in Hlen, Hone.
  destruct (carriers v index) as [|c1 cs] eqn:Ecs; [done|].
  set (tcon := select (λ inds, index ∈ inds) v) in *.
  simpl in Hle, Hlen.
  rewrite decide_False by lia. rewrite decide_False by lia.
  case_decide as H1; [|by eexists].
  destruct tcon as [|t0 [|? ?]] eqn:Et; try done.
  destruct (Hone t0 eq_refl) as (inds & Hi & Hcs). injection Hcs as -> ->.
  cbn. unfold py_get. rewrite Hi. cbn.
  rewrite mjoin_cons, count_app in Hc. simpl in Hc. rewrite count_nil in Hc.
  rewrite decide_False by lia. by eexists.
Qed.

(** X3: on a network that the validator accepts, the participant lookup of
    the scheduler succeeds for every label of [order]: none of the three
    structure errors of [get_tcon] can occur on the input network. *)
Theorem validated_get_tcon `{Backend Tensor} (L : list Tensor) v order forder b :
  do_check_indices L v order forder = Ok b →
  ∀ e, e ∈ order → ∃ tcon, get_tcon v e = Ok tcon ∧ 1 ≤ length tcon ≤ 2.
Proof.
  intros Hb e He. apply do_check_indices_Ok in Hb as [_ Hno].
  assert (count e (mjoin v) = 2) as Hc.
  { destruct (decide (count e (mjoin v) = 2)) as [|Hne]; [done|].
    destruct Hno. right. right. left. eauto. }
  destruct (get_tcon_count_two _ _ Hc) as [tcon Ht]. exists tcon. split; [done|].
  apply get_tcon_Ok_cases in Ht
    as [(a & va & -> & _)|(a & c & va & vb & -> & _)]; simpl; lia.
Qed.

Lemma validated_get_tcon_witness :
  ∃ tcon, get_tcon matmul_v (LInt 1) = Ok tcon ∧ 1 ≤ length tcon ≤ 2.
Proof.
  apply (validated_get_tcon matmul_L matmul_v [LInt 1] [LInt (-1); LInt (-2)] true).
  - vm_compute. reflexivity.
  - apply list_elem_of_singleton. reflexivity.
Defined.

(** ** One iteration of the scheduler, run forwards *)

Section run_forwards.
Context {Tensor : Type}.
Implicit Types s : state Tensor.

Lemma run_get_order_bind {B} (f : list label → M Tensor B) s :
  (get_order ≫= f) s = f (st_order s) s.
Proof. done. Qed.

Lemma run_get_v_bind {B} (f : list (list label) → M Tensor B) s :
  (get_v ≫= f) s = f (st_v s) s.
Proof. done. Qed.

Lemma run_get_L_bind {B} (f : list Tensor → M Tensor B) s :
  (get_L ≫= f) s = f (st_L s) s.
Proof. done. Qed.

Lemma run_lift_bind {A B} (a : A) (f : A → M Tensor B) s :
  (lift (Ok a) ≫= f) s = f a s.
Proof. done. Qed.

Lemma run_put_L_bind {B} L (f : unit → M Tensor B) s :
  (put_L L ≫= f) s = f () (State L (st_v s) (st_order s) (st_calls s)).
Proof. done. Qed.

Lemma run_put_v_bind {B} v (f : unit → M Tensor B) s :
  (put_v v ≫= f) s = f () (State (st_L s) v (st_order s) (st_calls s)).
Proof. done. Qed.

Lemma run_invoke_bind {B} c (r : option Tensor) (f : Tensor → M Tensor B) s :
  (invoke c r ≫= f) s =
  match r with
  | Some T => f T (State (st_L s) (st_v s) (st_order s) (st_calls s ++ [c]))
  | None => (Err E_backend, State (st_L s) (st_v s) (st_order s) (st_calls s ++ [c]))
  end.
Proof. rewrite run_bind. unfold invoke. by destruct r. Qed.

Lemma run_ret_bind {A B} (a : A) (f : A → M Tensor B) s :
  (mret a ≫= f) s = f a s.
Proof. done. Qed.

Lemma run_bind_assoc {A B C} (m : M Tensor A) (f : A → M Tensor B)
    (g : B → M Tensor C) s :
  ((m ≫= f) ≫= g) s = (m ≫= λ a, f a ≫= g) s.
Proof. rewrite !run_bind. by destruct (m s) as [[?|?] ?]. Qed.

End run_forwards.

Ltac run_fwd :=
  repeat (first [ rewrite run_bind_assoc
                | rewrite run_get_order_bind | rewrite run_get_v_bind
                | rewrite run_get_L_bind | rewrite run_lift_bind
                | rewrite run_put_L_bind | rewrite run_put_v_bind
                | rewrite run_ret_bind ];
          cbv beta; cbn [st_L st_v st_order st_calls]).

Section scheduler_run.
Context `{Backend Tensor}.
Implicit Types s : state Tensor.

Lemma del_tensor_run {B} i (f : unit → M Tensor B) s :
  i < length (st_L s) → i < length (st_v s) →
  (del_tensor i ≫= f) s
  = f () (State (delete i (st_L s)) (delete i (st_v s)) (st_order s) (st_calls s)).
Proof.
  intros HL Hv. rewrite run_bind.
  by rewrite (proj2 (del_tensor_Ok i s _) (conj HL (conj Hv eq_refl))).
Qed.

Lemma step_run_trace s idx rest a va A ax1 ax2 :
  st_order s = idx :: rest → get_tcon (st_v s) idx = Ok [a] →
  st_v s !! a = Some va → st_L s !! a = Some A →
  icon_positions [idx] va !! 0 = Some ax1 →
  icon_positions [idx] va !! 1 = Some ax2 →
  step s =
  match trace A ax1 ax2 with
  | Some new_A =>
      (Ok (), State (delete a (st_L s) ++ [new_A])
                    (delete a (st_v s) ++ [filter (λ i, i ∉ [idx]) va])
                    (renew_order (st_order s) [idx])
                    (st_calls s ++ [CallTrace A ax1 ax2]))
  | None => (Err E_backend, record_call (CallTrace A ax1 ax2) s)
  end.
Proof.
  intros Ho Ht Ha HA H1 H2. unfold step. run_fwd.
  rewrite Ho. change (py_get (idx :: rest) 0) with (Ok idx). run_fwd.
  rewrite Ht. run_fwd. cbn [length]. rewrite decide_True by done. run_fwd.
  rewrite (get_pos_trace _ a va) by done. run_fwd.
  rewrite bool_decide_eq_true_2 by done.
  change (py_get [a] 0) with (Ok a). run_fwd.
  rewrite (proj2 (py_get_Ok _ _ _) HA). run_fwd.
  rewrite (proj2 (py_get_Ok _ _ _) H1). run_fwd.
  rewrite (proj2 (py_get_Ok _ _ _) H2). run_fwd.
  unfold call_trace. rewrite run_invoke_bind.
  destruct (trace A ax1 ax2) as [new_A|]; [|done]. run_fwd.
  rewrite (find_newv_trace _ a va) by done. run_fwd.
  change (sorted_reverse [a]) with [a]. cbn [del_tensors]. run_fwd.
  pose proof (lookup_lt_Some _ _ _ Ha) as Hlv.
  pose proof (lookup_lt_Some _ _ _ HA) as HlL.
  rewrite del_tensor_run by (cbn [st_L st_v]; rewrite length_app; lia).
  run_fwd. unfold put_order. cbn [st_L st_v st_order st_calls].
  rewrite Ho, !delete_app_lt by done. done.
Qed.

Lemma step_run_pair s idx rest a b va vb A B :
  st_order s = idx :: rest → get_tcon (st_v s) idx = Ok [a; b] → a < b →
  st_v s !! a = Some va → st_v s !! b = Some vb →
  st_L s !! a = Some A → st_L s !! b = Some B →
  let icon := elements (list_to_set va ∩ list_to_set vb : gset label) in
  let pos := (icon_positions icon va, icon_positions icon vb) in
  step s =
  match con A B pos with
  | Some new_A =>
      (Ok (), State (delete a (delete b (st_L s)) ++ [new_A])
                    (delete a (delete b (st_v s))
                       ++ [filter (λ i, i ∉ icon) va ++ filter (λ i, i ∉ icon) vb])
                    (renew_order (st_order s) icon)
                    (st_calls s ++ [CallCon A B pos]))
  | None => (Err E_backend, record_call (CallCon A B pos) s)
  end.
Proof.
  intros Ho Ht Hab Ha Hb HA HB icon pos. unfold step. run_fwd.
  rewrite Ho. change (py_get (idx :: rest) 0) with (Ok idx). run_fwd.
  rewrite Ht. run_fwd. cbn [length]. rewrite decide_False by lia.
  rewrite (get_icon_pair _ a b va vb) by done. fold icon. run_fwd.
  rewrite (get_pos_pair _ a b va vb) by done. run_fwd.
  rewrite bool_decide_eq_false_2 by lia.
  change (py_get [a; b] 0) with (Ok a). run_fwd.
  rewrite (proj2 (py_get_Ok _ _ _) HA). run_fwd.
  change (py_get [a; b] 1) with (Ok b). run_fwd.
  rewrite (proj2 (py_get_Ok _ _ _) HB). run_fwd.
  unfold call_con. rewrite run_invoke_bind. fold pos.
  destruct (con A B pos) as [new_A|]; [|done]. run_fwd.
  rewrite (find_newv_pair _ a b va vb) by done. run_fwd.
  rewrite sorted_reverse_pair by done. cbn [del_tensors]. run_fwd.
  pose proof (lookup_lt_Some _ _ _ Ha) as Hla.
  pose proof (lookup_lt_Some _ _ _ Hb) as Hlb.
  pose proof (lookup_lt_Some _ _ _ HA) as HlA.
  pose proof (lookup_lt_Some _ _ _ HB) as HlB.
  rewrite del_tensor_run by (cbn [st_L st_v]; rewrite length_app; lia).
  run_fwd. rewrite !(delete_app_lt _ _ b) by done.
  pose proof (length_delete _ _ (mk_is_Some _ _ HB)).
  pose proof (length_delete _ _ (mk_is_Some _ _ Hb)).
  rewrite del_tensor_run by (cbn [st_L st_v]; rewrite length_app; lia).
  run_fwd. unfold put_order. cbn [st_L st_v st_order st_calls].
  rewrite Ho. rewrite !delete_app_lt; [done| |]; lia.
Qed.

End scheduler_run.

(** ** Progress of the scheduler *)

Lemma length_renew_order index rest icon :
  index ∈ icon → length (renew_order (index :: rest) icon) ≤ length rest.
Proof.
  intros Hin. unfold renew_order. rewrite filter_cons.
  rewrite decide_False by auto. apply length_filter.
Qed.

Lemma positions_sorted e (inds : list label) :
  StronglySorted lt (positions e inds).
Proof. exact (select_sorted (λ x, x = e) inds). Qed.

Section scheduler_progress.
Context `{Backend Tensor}.
Implicit Types s : state Tensor.

(** what an iteration does on a state whose labels have the degrees that
    [order] announces: it calls [trace] on the two legs of [order[0]], or
    [con] on the legs shared by its two holders, and raises exactly when
    the backend does *)
Lemma step_run s idx rest :
  length (st_L s) = length (st_v s) → degrees_ok (st_v s) (st_order s) →
  st_order s = idx :: rest →
  (∃ a va A ax1 ax2,
      st_v s !! a = Some va ∧ st_L s !! a = Some A
      ∧ positions idx va = [ax1; ax2]
      ∧ step s =
        match trace A ax1 ax2 with
        | Some new_A =>
            (Ok (), State (delete a (st_L s) ++ [new_A])
                          (delete a (st_v s) ++ [filter (λ i, i ∉ [idx]) va])
                          (renew_order (st_order s) [idx])
                          (st_calls s ++ [CallTrace A ax1 ax2]))
        | None => (Err E_backend, record_call (CallTrace A ax1 ax2) s)
        end)
  ∨ (∃ a b va vb A B icon,
      a < b ∧ st_v s !! a = Some va ∧ st_v s !! b = Some vb
      ∧ st_L s !! a = Some A ∧ st_L s !! b = Some B
      ∧ icon = elements (list_to_set va ∩ list_to_set vb : gset label)
      ∧ idx ∈ icon
      ∧ (∀ e, e ∈ icon → count e va = 1 ∧ count e vb = 1)
      ∧ step s =
        match con A B (icon_positions icon va, icon_positions icon vb) with
        | Some new_A =>
            (Ok (), State (delete a (delete b (st_L s)) ++ [new_A])
                          (delete a (delete b (st_v s))
                             ++ [filter (λ i, i ∉ icon) va
                                 ++ filter (λ i, i ∉ icon) vb])
                          (renew_order (st_order s) icon)
                          (st_calls s ++ [CallCon A B (icon_positions icon va,
                                                       icon_positions icon vb)]))
        | None =>
            (Err E_backend,
             record_call (CallCon A B (icon_positions icon va,
                                       icon_positions icon vb)) s)
        end).
Proof.
  intros Hlen Hdeg Ho.
  assert (count idx (mjoin (st_v s)) = 2) as Hc.
  { apply (Hdeg idx). rewrite Ho. by left. }
  destruct (get_tcon_count_two _ _ Hc) as [tcon Ht].
  destruct (get_tcon_Ok_cases _ _ _ Ht)
    as [(a & va & -> & Ha & Hca & _)
       |(a & b & va & vb & -> & Hab & Ha & Hb & Hia & Hib & _)].
  - left.
    destruct (lookup_lt_is_Some_2 (st_L s) a) as [A HA];
      [rewrite Hlen; by eapply lookup_lt_Some|].
    pose proof (length_positions idx va) as Hlp. rewrite Hca in Hlp.
    destruct (positions idx va) as [|ax1 [|ax2 [|? ?]]] eqn:Ep; try done.
    exists a, va, A, ax1, ax2. split_and!; [done..|].
    apply (step_run_trace s idx rest a va A ax1 ax2); try done.
    + unfold icon_positions. simpl. by rewrite Ep.
    + unfold icon_positions. simpl. by rewrite Ep.
  - right.
    destruct (lookup_lt_is_Some_2 (st_L s) a) as [A HA];
      [rewrite Hlen; by eapply lookup_lt_Some|].
    destruct (lookup_lt_is_Some_2 (st_L s) b) as [B HB];
      [rewrite Hlen; by eapply lookup_lt_Some|].
    exists a, b, va, vb, A, B,
      (elements (list_to_set va ∩ list_to_set vb : gset label)).
    split_and!; try done.
    + apply elem_of_elements, elem_of_intersection.
      by rewrite !elem_of_list_to_set.
    + intros e He.
      apply elem_of_elements, elem_of_intersection in He as [Hea Heb].
      rewrite elem_of_list_to_set in Hea, Heb. apply count_pos in Hea, Heb.
      assert (delete b (st_v s) !! a = Some va) as Ha'
        by (by rewrite list_lookup_delete_lt).
      destruct (Hdeg e) as [Hle _].
      rewrite (count_Permutation _ _ _ (mjoin_lookup_Permutation _ _ _ Hb)) in Hle.
      rewrite count_app in Hle.
      rewrite (count_Permutation _ _ _ (mjoin_lookup_Permutation _ _ _ Ha')) in Hle.
      rewrite count_app in Hle. lia.
    + by apply (step_run_pair s idx rest a b va vb A B).
Qed.

End scheduler_progress.

Section scheduler_effects.
Context `{Backend Tensor}.
Implicit Types s : state Tensor.

(** X4: an iteration of the scheduler loop that does not raise makes
    exactly one backend call, whose result becomes the last tensor of [L]:
    a [trace], which leaves the number of tensors and of leg lists as it
    was, or a [con], which reduces both by one. *)
Theorem step_one_backend_call s s' :
  step s = (Ok (), s') →
  ∃ c new_A,
    st_calls s' = st_calls s ++ [c] ∧ answer c = Some new_A
    ∧ last (st_L s') = Some new_A
    ∧ ((is_trace_call c = true
        ∧ length (st_L s') = length (st_L s)
        ∧ length (st_v s') = length (st_v s))
       ∨ (is_con_call c = true
          ∧ S (length (st_L s')) = length (st_L s)
          ∧ S (length (st_v s')) = length (st_v s))).
Proof.
  intros Hstep.
  destruct (step_inv _ _ Hstep) as (idx & rest & Ho &
    [(a & va & A & ax1 & ax2 & new_A & Ht & Ha & HA & Hc & _ & _ & Htr & ->)
    |(a & b & va & vb & A & B & new_A & icon & Ht & Hab & Ha & Hb & HA & HB
        & Hicon & Hcon & ->)]);
    cbn [st_L st_v st_calls].
  - exists (CallTrace A ax1 ax2), new_A.
    split_and!; [done | done | apply last_snoc |]. left.
    pose proof (lookup_lt_Some _ _ _ Ha). pose proof (lookup_lt_Some _ _ _ HA).
    rewrite !length_app, !length_delete by eauto. simpl. split_and!; [done|lia..].
  - exists (CallCon A B (icon_positions icon va, icon_positions icon vb)), new_A.
    split_and!; [done | done | apply last_snoc |]. right.
    pose proof (length_delete _ _ (mk_is_Some _ _ HB)).
    pose proof (length_delete _ _ (mk_is_Some _ _ Hb)).
    pose proof (lookup_lt_Some _ _ _ HA). pose proof (lookup_lt_Some _ _ _ HB).
    pose proof (lookup_lt_Some _ _ _ Ha). pose proof (lookup_lt_Some _ _ _ Hb).
    rewrite !length_app, !length_delete by (apply lookup_lt_is_Some; lia).
    simpl. split_and!; [done|lia..].
Qed.

(** X5: on a state with as many leg lists as tensors, in which every
    label is on at most two legs and [order] lists exactly the labels on
    two, an iteration of the scheduler loop raises only if the backend
    operation it calls raises, and then leaves [L], [v] and [order] as they
    were; none of the structure or index errors of the helper functions can
    occur. *)
Theorem step_raises_only_backend s :
  length (st_L s) = length (st_v s) → degrees_ok (st_v s) (st_order s) →
  st_order s ≠ [] →
  ∃ c, is_con_call c || is_trace_call c = true
    ∧ match answer c with
      | Some new_A =>
          ∃ s', step s = (Ok (), s') ∧ st_calls s' = st_calls s ++ [c]
      | None => step s = (Err E_backend, record_call c s)
      end.
Proof.
  intros Hlen Hdeg Hne. destruct (st_order s) as [|idx rest] eqn:Ho; [done|].
  rewrite <- Ho in Hdeg.
  destruct (step_run s idx rest Hlen Hdeg Ho)
    as [(a & va & A & ax1 & ax2 & _ & _ & _ & ->)
       |(a & b & va & vb & A & B & icon & _ & _ & _ & _ & _ & _ & _ & _ & ->)].
  - exists (CallTrace A ax1 ax2). split; [done|]. cbn [answer].
    destruct (trace A ax1 ax2); [|done]. by eexists.
  - exists (CallCon A B (icon_positions icon va, icon_positions icon vb)).
    split; [done|]. cbn [answer].
    destruct (con A B _); [|done]. by eexists.
Qed.

Lemma step_call_valid s :
  network_inv (st_L s) (st_v s) → degrees_ok (st_v s) (st_order s) →
  st_order s ≠ [] →
  ∃ c, st_calls (step s).2 = st_calls s ++ [c] ∧ axes_valid c.
Proof.
  intros [Hlen Hrank] Hdeg Hne.
  destruct (st_order s) as [|idx rest] eqn:Ho; [done|]. rewrite <- Ho in Hdeg.
  destruct (step_run s idx rest Hlen Hdeg Ho)
    as [(a & va & A & ax1 & ax2 & Ha & HA & Hp & ->)
       |(a & b & va & vb & A & B & icon & _ & Ha & Hb & HA & HB & Hicon & _
           & Hone & ->)].
  - exists (CallTrace A ax1 ax2). split; [by destruct (trace A ax1 ax2)|].
    cbn [axes_valid]. pose proof (positions_sorted idx va) as Hs.
    rewrite Hp in Hs. apply StronglySorted_inv in Hs as [_ Hlt].
    apply Forall_cons in Hlt as [Hlt _]. split; [done|].
    rewrite <- (Hrank _ _ _ HA Ha).
    assert (ax2 ∈ positions idx va) as Hin by (rewrite Hp; set_solver).
    apply elem_of_positions in Hin. by eapply lookup_lt_Some.
  - exists (CallCon A B (icon_positions icon va, icon_positions icon vb)).
    split; [by destruct (con A B _)|]. cbn [axes_valid fst snd].
    assert (NoDup icon) as Hnd by (subst icon; apply NoDup_elements).
    assert (Forall2 (λ e p, va !! p = Some e) icon (icon_positions icon va)) as H1
      by (apply icon_positions_single; intros e He; by apply Hone).
    assert (Forall2 (λ e p, vb !! p = Some e) icon (icon_positions icon vb)) as H2
      by (apply icon_positions_single; intros e He; by apply Hone).
    apply Forall2_length in H1, H2.
    split_and!; [congruence | by apply NoDup_icon_positions..| |].
    + apply Forall_forall. intros p Hp.
      apply elem_of_icon_positions in Hp as (e & _ & Hp).
      rewrite <- (Hrank _ _ _ HA Ha). by eapply lookup_lt_Some.
    + apply Forall_forall. intros p Hp.
      apply elem_of_icon_positions in Hp as (e & _ & Hp).
      rewrite <- (Hrank _ _ _ HB Hb). by eapply lookup_lt_Some.
Qed.

(** X6: on a state that satisfies the network invariant and in which
    [order] lists exactly the labels on two legs, the call that an
    iteration makes, whether it succeeds or not, names axes that exist and
    are distinct: [trace] gets two different axes of its tensor, and [con]
    gets equally many, pairwise different axes of each tensor. *)
Theorem step_axes_valid s :
  network_inv (st_L s) (st_v s) → degrees_ok (st_v s) (st_order s) →
  st_order s ≠ [] →
  ∃ c, st_calls (step s).2 = st_calls s ++ [c] ∧ axes_valid c.
Proof. apply step_call_valid. Qed.

Lemma contract_only_backend fuel s :
  loop_inv s → length (st_order s) ≤ fuel →
  raises_only_backend (contract fuel s).1.
Proof.
  revert s. induction fuel as [|fuel IH]; intros s Hinv Hfuel; cbn [contract].
  - destruct (st_order s); [by intros e [=] | simpl in Hfuel; lia].
  - destruct (st_order s) as [|idx rest] eqn:Ho; [by intros e [=]|].
    rewrite run_bind.
    pose proof Hinv as (Hlen & _ & Hdeg & _).
    destruct (step_run s idx rest Hlen Hdeg Ho)
      as [(a & va & A & ax1 & ax2 & _ & _ & _ & Hstep)
         |(a & b & va & vb & A & B & icon & _ & _ & _ & _ & _ & _ & Hin & _
             & Hstep)].
    + destruct (trace A ax1 ax2) as [new_A|].
      * pose proof (step_loop_inv _ _ Hinv Hstep) as Hinv'.
        rewrite Hstep. apply IH; [done|]. cbn [st_order]. rewrite Ho.
        pose proof (length_renew_order idx rest [idx]) as Hle.
        simpl in Hfuel. etrans; [apply Hle; set_solver | lia].
      * rewrite Hstep. by intros e [= <-].
    + destruct (con A B _) as [new_A|].
      * pose proof (step_loop_inv _ _ Hinv Hstep) as Hinv'.
        rewrite Hstep. apply IH; [done|]. cbn [st_order]. rewrite Ho.
        pose proof (length_renew_order idx rest icon Hin) as Hle.
        simpl in Hfuel. lia.
      * rewrite Hstep. by intros e [= <-].
Qed.

(** X7: once the labels have the degrees that [order] announces and the
    tensor graph is connected, the whole scheduler loop raises only what
    the backend raises. *)
Theorem contract_raises_only_backend fuel s :
  loop_inv s → length (st_order s) ≤ fuel →
  raises_only_backend (contract fuel s).1.
Proof. apply contract_only_backend. Qed.

(** X8: a run of the scheduler loop that does not raise makes at most
    [len(order)] backend calls, each a [trace] or a [con], and the number
    of tensors it removes from [L] is the number of its [con] calls. *)
Theorem contract_calls fuel s s' :
  contract fuel s = (Ok (), s') →
  ∃ cs, st_calls s' = st_calls s ++ cs
    ∧ Forall (λ c, is_con_call c || is_trace_call c = true) cs
    ∧ length cs ≤ length (st_order s)
    ∧ length (st_L s') + length (filter (λ c, is_con_call c = true) cs)
      = length (st_L s).
Proof.
  revert s. induction fuel as [|fuel IH]; intros s; cbn [contract].
  - destruct (st_order s); [|done]. intros [= <-]. exists [].
    rewrite app_nil_r. split_and!; [done | constructor | simpl; lia | simpl; lia].
  - destruct (st_order s) as [|idx rest] eqn:Ho.
    { intros [= <-]. exists [].
      rewrite app_nil_r. split_and!; [done | constructor | simpl; lia..]. }
    intros Hc. apply run_bind_Ok in Hc as ([] & s1 & Hstep & Hc).
    destruct (IH _ Hc) as (cs & Hcalls & Hall & Hlen & HL).
    destruct (step_inv _ _ Hstep) as (idx' & rest' & Ho' &
      [(a & va & A & ax1 & ax2 & new_A & Ht & Ha & HA & _ & _ & _ & _ & ->)
      |(a & b & va & vb & A & B & new_A & icon & Ht & Hab & Ha & Hb & HA & HB
          & Hicon & _ & ->)]);
      rewrite Ho in Ho'; injection Ho' as <- <-;
      cbn [st_L st_v st_order st_calls] in *.
    + exists (CallTrace A ax1 ax2 :: cs).
      pose proof (length_renew_order idx rest [idx]) as Hle.
      pose proof (lookup_lt_Some _ _ _ HA).
      rewrite length_app, length_delete in HL by eauto. simpl in HL.
      split_and!.
      * by rewrite Hcalls, <- app_assoc.
      * by constructor.
      * simpl. etrans; [apply le_n_S, Hlen|].
        apply le_n_S. rewrite Ho. apply Hle. set_solver.
      * rewrite filter_cons. rewrite decide_False by done. lia.
    + exists (CallCon A B (icon_positions icon va, icon_positions icon vb) :: cs).
      assert (idx ∈ icon) as Hin.
      { apply get_tcon_Ok_cases in Ht
          as [(? & ? & [=] & _)|(a' & b' & va' & vb' & [= <- <-] & _ & Ha' & Hb'
                & Hia & Hib & _)].
        simplify_eq. apply elem_of_elements, elem_of_intersection.
        by rewrite !elem_of_list_to_set. }
      pose proof (length_renew_order idx rest icon Hin) as Hle.
      pose proof (length_delete _ _ (mk_is_Some _ _ HB)).
      pose proof (lookup_lt_Some _ _ _ HA). pose proof (lookup_lt_Some _ _ _ HB).
      rewrite length_app, length_delete in HL by (apply lookup_lt_is_Some; lia).
      simpl in HL.
      split_and!.
      * by rewrite Hcalls, <- app_assoc.
      * by constructor.
      * simpl. rewrite Ho in Hlen. lia.
      * rewrite filter_cons. rewrite decide_True by done. simpl. lia.
Qed.

End scheduler_effects.

Lemma matmul_degrees : degrees_ok matmul_v [LInt 1].
Proof.
  eapply (validated_degrees matmul_L matmul_v [LInt 1] [LInt (-1); LInt (-2)] true).
  - vm_compute. reflexivity.
  - exact matmul_order_covers.
Qed.

Lemma matmul_loop_inv : loop_inv matmul_state.
Proof.
  apply (connect_graph_loop_inv matmul_L matmul_v [LInt 1]
           [LInt (-1); LInt (-2)] true []).
  - vm_compute. reflexivity.
  - exact matmul_order_covers.
  - vm_compute. reflexivity.
Qed.

Lemma matmul_network_inv : network_inv matmul_L matmul_v.
Proof.
  apply (validated_network_inv matmul_L matmul_v [LInt 1]
           [LInt (-1); LInt (-2)] true).
  vm_compute. reflexivity.
Qed.

Lemma step_one_backend_call_witness :
  ∃ c new_A,
    st_calls matmul_result = st_calls matmul_state ++ [c] ∧ answer c = Some new_A
    ∧ last (st_L matmul_result) = Some new_A
    ∧ ((is_trace_call c = true
        ∧ length (st_L matmul_result) = length (st_L matmul_state)
        ∧ length (st_v matmul_result) = length (st_v matmul_state))
       ∨ (is_con_call c = true
          ∧ S (length (st_L matmul_result)) = length (st_L matmul_state)
          ∧ S (length (st_v matmul_result)) = length (st_v matmul_state))).
Proof.
  apply (step_one_backend_call matmul_state matmul_result).
  vm_compute. reflexivity.
Defined.

Lemma step_raises_only_backend_witness :
  ∃ c, is_con_call c || is_trace_call c = true
    ∧ match answer c with
      | Some new_A =>
          ∃ s', step matmul_state = (Ok (), s')
                ∧ st_calls s' = st_calls matmul_state ++ [c]
      | None => step matmul_state = (Err E_backend, record_call c matmul_state)
      end.
Proof.
  apply (step_raises_only_backend matmul_state).
  - reflexivity.
  - exact matmul_degrees.
  - discriminate.
Defined.

Lemma step_axes_valid_witness :
  ∃ c, st_calls (step matmul_state).2 = st_calls matmul_state ++ [c]
       ∧ axes_valid c.
Proof.
  apply (step_axes_valid matmul_state).
  - exact matmul_network_inv.
  - exact matmul_degrees.
  - discriminate.
Defined.

Lemma contract_raises_only_backend_witness :
  raises_only_backend (contract 1 matmul_state).1.
Proof.
  apply (contract_raises_only_backend 1 matmul_state).
  - exact matmul_loop_inv.
  - simpl. lia.
Defined.

Lemma contract_calls_witness :
  ∃ cs, st_calls matmul_result = st_calls matmul_state ++ cs
    ∧ Forall (λ c, is_con_call c || is_trace_call c = true) cs
    ∧ length cs ≤ length (st_order matmul_state)
    ∧ length (st_L matmul_result) + length (filter (λ c, is_con_call c = true) cs)
      = length (st_L matmul_state).
Proof.
  apply (contract_calls 1 matmul_state matmul_result).
  vm_compute. reflexivity.
Defined.

(** ** The traversal finds the connected components *)

Section traversal_complete.
Context `{SetPop}.
Implicit Types v : list (list label).

Lemma visit_closed_preserved fuel v b b' :
  visit_closed v b → visit fuel v b = Ok b' →
  visit_closed v b' ∧ bfs_to_visit b' = ∅.
Proof.
  revert b. induction fuel as [|fuel IH]; intros b Hcl; simpl;
    destruct (set_pop (bfs_to_visit b)) as [i|] eqn:Hpop; try done.
  - intros [= <-]. split; [done | by apply set_pop_None].
  - intros Hv. apply bind_Ok in Hv as (inds & Hi & Hv). apply py_get_Ok in Hi.
    apply IH in Hv; [done|]. clear IH Hv.
    intros i' j Hi' Hadj.
    cbn [bfs_unvisited bfs_visited bfs_component bfs_to_visit] in *.
    destruct (decide (j ∈ bfs_visited b ∪ {[i]})) as [|Hj]; [set_solver|].
    apply elem_of_union. right.
    apply elem_of_union in Hi' as [Hi'|Hi'].
    + specialize (Hcl _ _ Hi' Hadj). set_solver.
    + apply elem_of_singleton in Hi' as ->.
      apply elem_of_union. right. rewrite elem_of_list_to_set.
      apply list_elem_of_filter. split; [done|].
      destruct Hadj as (x & inds_i & inds_j & Hii & Hij & Hxi & Hxj).
      apply elem_of_neighs. exists inds_j, x. split_and!; [done| |done].
      congruence.
  - intros [= <-]. split; [done | by apply set_pop_None].
Qed.

(** one round of the outer loop: the traversal from [next_visit] ends, and
    what it returns extends the list of components *)
Lemma components_round v U unvisited visited cc next_visit :
  (∀ i, i ∈ U → i < length v) →
  components_inv v U unvisited visited cc → next_visit ∈ unvisited →
  ∃ b, visit (S (length v)) v
         (Bfs (unvisited ∖ {[next_visit]}) visited ∅ {[next_visit]}) = Ok b
    ∧ bfs_visited b = visited ∪ bfs_component b
    ∧ bfs_component b ## visited
    ∧ bfs_unvisited b ⊂ unvisited
    ∧ components_inv v U (bfs_unvisited b) (bfs_visited b)
        (cc ++ [bfs_component b]).
Proof.
  intros HU Hinv Hpop. destruct Hinv.
  assert (visit_inv v next_visit visited U (unvisited ∖ {[next_visit]})
            (Bfs (unvisited ∖ {[next_visit]}) visited ∅ {[next_visit]}))
    as Hvinv.
  { split; cbn [bfs_unvisited bfs_visited bfs_component bfs_to_visit].
    - set_solver.
    - set_solver.
    - set_solver.
    - intros i Hi. assert (i = next_visit) as -> by set_solver. done.
    - intros i Hi. assert (i = next_visit) as -> by set_solver.
      apply HU. set_solver.
    - intros j Hj. specialize (ci_cover0 j Hj).
      destruct (decide (j = next_visit)); set_solver.
    - set_solver.
    - set_solver.
    - set_solver. }
  destruct (visit_spec (S (length v)) v next_visit visited U _ _ Hvinv)
    as (b & Hb & Hbinv & Hdone).
  { cbn [bfs_visited]. rewrite <- size_nodes.
    etrans; [apply subseteq_size; apply subseteq_difference_l; reflexivity|].
    lia. }
  exists b. destruct Hbinv. rewrite Hdone in *.
  assert (next_visit ∈ bfs_component b) as Hstart by set_solver.
  split_and!; [done | done | done | set_solver |].
  split.
  - done.
  - rewrite vi_visited0, ci_visited0. rewrite union_list_app_L.
    rewrite union_list_singleton_L. done.
  - set_solver.
  - set_solver.
  - intros comp i j Hcomp Hi Hj.
    apply elem_of_app in Hcomp as [Hcomp|Hcomp]; [eauto|].
    apply list_elem_of_singleton in Hcomp as ->.
    eapply rtc_trans; [apply path_sym|]; apply vi_reach0; set_solver.
  - intros comp i Hcomp Hi.
    apply elem_of_app in Hcomp as [Hcomp|Hcomp]; [eauto|].
    apply list_elem_of_singleton in Hcomp as ->. apply vi_range0. set_solver.
  - intros a c A C Ha Hc Hne.
    assert (∀ k X, cc !! k = Some X → X ## bfs_component b) as Hold.
    { intros k X Hk. assert (X ⊆ visited).
      { rewrite ci_visited0. intros x Hx. apply elem_of_union_list.
        exists X. split; [by eapply list_elem_of_lookup_2 | done]. }
      set_solver. }
    destruct (decide (a < length cc)), (decide (c < length cc)).
    + rewrite lookup_app_l in Ha, Hc by done. eauto.
    + rewrite lookup_app_l in Ha by done.
      rewrite lookup_app_r in Hc by lia.
      apply list_lookup_singleton_Some in Hc as [_ <-]. eauto.
    + rewrite lookup_app_l in Hc by done.
      rewrite lookup_app_r in Ha by lia.
      apply list_lookup_singleton_Some in Ha as [_ <-].
      symmetry. eauto.
    + rewrite lookup_app_r in Ha, Hc by lia.
      apply list_lookup_singleton_Some in Ha as [? _].
      apply list_lookup_singleton_Some in Hc as [? _]. lia.
  - intros comp Hcomp.
    apply elem_of_app in Hcomp as [Hcomp|Hcomp]; [eauto|].
    apply list_elem_of_singleton in Hcomp as ->. set_solver.
Qed.

Lemma components_closed fuel v U unvisited visited cc cc' :
  (∀ i, i ∈ U → i < length v) →
  components_inv v U unvisited visited cc →
  Forall (closed_component v) cc →
  components fuel v unvisited visited cc = Ok cc' →
  Forall (closed_component v) cc'.
Proof.
  intros HU. revert unvisited visited cc.
  induction fuel as [|fuel IH]; intros unvisited visited cc Hinv Hcl.
  - simpl. destruct (set_pop unvisited); [done|]. by intros [= <-].
  - rewrite components_S.
    destruct (set_pop unvisited) as [next_visit|] eqn:Hpop;
      [|by intros [= <-]].
    apply set_pop_Some in Hpop.
    destruct (components_round _ _ _ _ _ _ HU Hinv Hpop)
      as (b & Hb & Hvis & Hnew & _ & Hinv').
    rewrite Hb. cbn [mbind res_bind]. apply IH; [done|].
    apply Forall_app. split; [done|]. constructor; [|constructor].
    apply visit_closed_preserved in Hb as [Hbcl Hdone].
    2:{ intros i j Hi. cbn [bfs_component] in Hi. set_solver. }
    intros i j Hi Hadj. specialize (Hbcl _ _ Hi Hadj).
    rewrite Hdone, Hvis in Hbcl.
    apply elem_of_union in Hbcl as [Hj|Hj]; [|set_solver].
    apply elem_of_union in Hj as [Hj|Hj]; [|done].
    rewrite (ci_visited _ _ _ _ _ Hinv) in Hj, Hnew.
    apply elem_of_union_list in Hj as (comp & Hcomp & Hj).
    rewrite Forall_forall in Hcl.
    pose proof (Hcl _ Hcomp j i Hj (adjacent_sym _ _ _ Hadj)) as Hi'.
    exfalso. apply (Hnew i Hi). apply elem_of_union_list. eauto.
Qed.

Lemma closed_component_path v comp i j :
  closed_component v comp → i ∈ comp → rtc (adjacent v) i j → j ∈ comp.
Proof.
  intros Hcl Hi Hpath. induction Hpath as [|i k j Hik _ IH]; [done|].
  apply IH. by eapply Hcl.
Qed.

(** X9: the traversal of [connect_graph] ends and returns the connected
    components of the tensor graph: non-empty, pairwise disjoint sets of
    tensor positions such that two tensors are in the same set exactly
    when a path of shared labels joins them. *)
Theorem components_are_connected_components v :
  ∃ cc,
    components (length v) v (list_to_set (seq 0 (length v))) ∅ [] = Ok cc
    ∧ (∀ comp, comp ∈ cc → comp ≠ ∅)
    ∧ (∀ a b A B, cc !! a = Some A → cc !! b = Some B → a ≠ b → A ## B)
    ∧ ∀ i j, i < length v → j < length v →
        ((∃ comp, comp ∈ cc ∧ i ∈ comp ∧ j ∈ comp) ↔ rtc (adjacent v) i j).
Proof.
  destruct (components_of_network v) as (cc & visited & Hcc & Hinv).
  assert (Forall (closed_component v) cc) as Hcl.
  { eapply (components_closed _ v (nodes v)); [| |constructor|exact Hcc].
    - intros i. by rewrite elem_of_nodes.
    - split; set_solver. }
  exists cc. split_and!; [done|apply Hinv|apply Hinv|].
  intros i j Hi Hj. split.
  - intros (comp & Hcomp & Hic & Hjc). by eapply (ci_connected _ _ _ _ _ Hinv).
  - intros Hpath.
    assert (i ∈ ⋃ cc) as Hin.
    { rewrite <- (ci_visited _ _ _ _ _ Hinv). apply elem_of_nodes in Hi.
      pose proof (ci_cover _ _ _ _ _ Hinv i Hi). set_solver. }
    apply elem_of_union_list in Hin as (comp & Hcomp & Hic).
    exists comp. split_and!; [done..|].
    rewrite Forall_forall in Hcl. by eapply closed_component_path; eauto.
Qed.

Lemma components_connected_single v :
  v ≠ [] → connected v →
  ∃ comp, components (length v) v (list_to_set (seq 0 (length v))) ∅ []
          = Ok [comp] ∧ comp ≠ ∅.
Proof.
  intros Hne Hconn.
  destruct (components_of_network v) as (cc & visited & Hcc & Hinv).
  assert (Forall (closed_component v) cc) as Hcl.
  { eapply (components_closed _ v (nodes v)); [| |constructor|exact Hcc].
    - intros i. by rewrite elem_of_nodes.
    - split; set_solver. }
  rewrite Hcc. destruct cc as [|A [|B cc]].
  - exfalso. assert (0 ∈ nodes v) as H0.
    { apply elem_of_nodes. destruct v; [done | simpl; lia]. }
    pose proof (ci_cover _ _ _ _ _ Hinv 0 H0) as Hc.
    rewrite (ci_visited _ _ _ _ _ Hinv) in Hc. set_solver.
  - exists A. split; [done|]. apply (ci_nonempty _ _ _ _ _ Hinv). by left.
  - exfalso.
    assert (A ≠ ∅) as HA by (apply (ci_nonempty _ _ _ _ _ Hinv); set_solver).
    assert (B ≠ ∅) as HB by (apply (ci_nonempty _ _ _ _ _ Hinv); set_solver).
    apply set_choose_L in HA as [i Hi]. apply set_choose_L in HB as [j Hj].
    assert (i < length v) as Hil
      by (apply (ci_range _ _ _ _ _ Hinv A); [set_solver | done]).
    assert (j < length v) as Hjl
      by (apply (ci_range _ _ _ _ _ Hinv B); [set_solver | done]).
    apply Forall_cons in Hcl as [HclA _].
    pose proof (closed_component_path _ _ _ _ HclA Hi (Hconn _ _ Hil Hjl)) as HjA.
    assert (A ## B) as Hd
      by (apply (ci_separate _ _ _ _ _ Hinv 0 1); [done..|lia]).
    set_solver.
Qed.

End traversal_complete.

(** ** More on the connectivity repair *)

Section repair_effects.
Context `{Backend Tensor} `{SetPop}.
Implicit Types s : state Tensor.

(** X10: on a non-empty network whose tensor graph is already connected,
    [connect_graph] changes nothing: no backend call, no new label. *)
Theorem connect_graph_connected_noop s :
  length (st_L s) = length (st_v s) → st_v s ≠ [] → connected (st_v s) →
  connect_graph s = (Ok (), s).
Proof.
  intros Hlen Hne Hconn. unfold connect_graph. run_fwd. rewrite Hlen.
  destruct (components_connected_single _ Hne Hconn) as (comp & -> & Hcomp).
  run_fwd. change (reverse [comp]) with [comp]. cbv iota.
  destruct (set_pop comp) as [c|] eqn:Hpop.
  - run_fwd. done.
  - by apply set_pop_None in Hpop.
Qed.

(** X11: without tensors [connect_graph] raises [IndexError], popping from
    the empty list of components, and leaves the state as it was. *)
Theorem connect_graph_no_tensors s :
  st_L s = [] → connect_graph s = (Err E_index, s).
Proof.
  intros HL. unfold connect_graph. run_fwd. rewrite HL.
  cbn [length seq list_to_set components].
  destruct (set_pop ∅) as [i|] eqn:Hpop.
  - apply set_pop_Some in Hpop. set_solver.
  - by run_fwd.
Qed.

Lemma link_all_appends c rest s s' :
  link_all c rest s = (Ok (), s') →
  ∃ (dims : list Z) cs,
    st_order s' = st_order s ++ (LInt <$> dims)
    ∧ length dims = length rest ∧ NoDup dims
    ∧ (∀ z, z ∈ dims → (0 < z)%Z ∧ LInt z ∉ st_order s)
    ∧ st_calls s' = st_calls s ++ cs
    ∧ length cs = 2 * length rest
    ∧ Forall (λ c, is_expand_dims_call c = true) cs
    ∧ length (st_L s') = length (st_L s).
Proof.
  revert s. induction rest as [|comp rest IH]; intros s; cbn [link_all].
  - rewrite run_ret. intros [= <-]. exists [], [].
    rewrite !app_nil_r. split_and!; try done; [constructor | set_solver].
  - intros Hl. apply run_bind_Ok in Hl as ([] & s1 & Hlink & Hl).
    destruct (IH _ Hl) as (dims & cs & Ho & Hlen & Hnd & Hfresh & Hcalls & Hcs
                             & Hall & HL).
    destruct (link_inv _ _ _ _ Hlink)
      as (d & A_c & A_d & vc & vd & A_c' & A_d' & dim & Hd & HAc & HAd & Hvc & Hvd
            & _ & _ & (Hpos & Hnew & _) & ->).
    cbn [st_L st_v st_order st_calls] in *.
    exists (dim :: dims),
      (CallExpandDims A_c (length vc) :: CallExpandDims A_d (length vd) :: cs).
    split_and!.
    + by rewrite Ho, <- app_assoc.
    + simpl. by rewrite Hlen.
    + constructor; [|done]. intros Hin. apply Hfresh in Hin as [_ Hin].
      apply Hin. set_solver.
    + intros z Hz. apply elem_of_cons in Hz as [->|Hz]; [done|].
      apply Hfresh in Hz as [? Hz]. split; [done|]. set_solver.
    + by rewrite Hcalls, <- !app_assoc.
    + simpl. rewrite Hcs. lia.
    + by repeat constructor.
    + by rewrite HL, !length_insert.
Qed.

(** X12: when [connect_graph] returns, [order] is the old [order]
    followed by one new label per component other than the last one; the
    new labels are positive integers that were not in [order], all
    different; two [expand_dims] calls were made per new label and no other
    call; [L] has as many tensors as before and every leg list still
    carries its old labels. *)
Theorem connect_graph_appends_fresh_labels s s' :
  connect_graph s = (Ok (), s') →
  ∃ cc (dims : list Z) cs,
    components (length (st_L s)) (st_v s)
      (list_to_set (seq 0 (length (st_L s)))) ∅ [] = Ok cc
    ∧ S (length dims) = length cc
    ∧ st_order s' = st_order s ++ (LInt <$> dims)
    ∧ NoDup dims
    ∧ (∀ z, z ∈ dims → (0 < z)%Z ∧ LInt z ∉ st_order s)
    ∧ st_calls s' = st_calls s ++ cs
    ∧ length cs = 2 * length dims
    ∧ Forall (λ c, is_expand_dims_call c = true) cs
    ∧ length (st_L s') = length (st_L s)
    ∧ extends (st_v s) (st_v s').
Proof.
  intros Hc.
  destruct (connect_graph_inv _ _ Hc) as (cc & last & rest & c & Hcc & Hrev & Hcl & Hl).
  destruct (link_all_appends _ _ _ _ Hl)
    as (dims & cs & Ho & Hlen & Hnd & Hfresh & Hcalls & Hcs & Hall & HL).
  destruct (link_all_inv _ _ _ _ Hl) as [Hext _].
  exists cc, dims, cs. split_and!; try done.
  - rewrite <- (length_reverse cc), Hrev. simpl. by rewrite Hlen.
  - by rewrite Hcs, Hlen.
Qed.

End repair_effects.

Lemma connect_graph_connected_noop_witness :
  connect_graph matmul_state = (Ok (), matmul_state).
Proof.
  apply (connect_graph_connected_noop matmul_state).
  - reflexivity.
  - discriminate.
  - apply matmul_loop_inv.
Defined.

Lemma connect_graph_no_tensors_witness :
  connect_graph (State ([] : list (list nat)) [] [] []) = (Err E_index, State [] [] [] []).
Proof.
  apply (connect_graph_no_tensors (State ([] : list (list nat)) [] [] [])).
  reflexivity.
Defined.

Lemma connect_graph_appends_fresh_labels_witness :
  ∃ s', connect_graph outer_state = (Ok (), s')
    ∧ ∃ cc (dims : list Z) cs,
        components (length (st_L outer_state)) (st_v outer_state)
          (list_to_set (seq 0 (length (st_L outer_state)))) ∅ [] = Ok cc
        ∧ S (length dims) = length cc
        ∧ st_order s' = st_order outer_state ++ (LInt <$> dims)
        ∧ NoDup dims
        ∧ (∀ z, z ∈ dims → (0 < z)%Z ∧ LInt z ∉ st_order outer_state)
        ∧ st_calls s' = st_calls outer_state ++ cs
        ∧ length cs = 2 * length dims
        ∧ Forall (λ c, is_expand_dims_call c = true) cs
        ∧ length (st_L s') = length (st_L outer_state)
        ∧ extends (st_v outer_state) (st_v s').
Proof.
  assert (∃ s', connect_graph outer_state = (Ok (), s')) as [s' Hs]
    by (eexists; vm_compute; reflexivity).
  exists s'. split; [exact Hs|].
  exact (connect_graph_appends_fresh_labels outer_state s' Hs).
Defined.

(** ** The repair raises only what the backend raises *)

Lemma raises_only_backend_Ok {A} (a : A) : raises_only_backend (Ok a).
Proof. by intros e [=]. Qed.

Lemma raises_only_backend_Err {A} : raises_only_backend (Err E_backend : res A).
Proof. by intros e [= <-]. Qed.

Section repair_progress.
Context `{Backend Tensor} `{SetPop}.
Implicit Types s : state Tensor.

Lemma append_leg_run {B} i x inds (f : unit → M Tensor B) s :
  st_v s !! i = Some inds →
  (append_leg i x ≫= f) s
  = f () (State (st_L s) (<[i := inds ++ [x]]> (st_v s)) (st_order s) (st_calls s)).
Proof.
  intros Hi. rewrite run_bind.
  by rewrite (proj2 (append_leg_Ok i x s _) (ex_intro _ inds (conj Hi eq_refl))).
Qed.

Lemma raises_only_backend_bind {A B} (m : M Tensor A) (f : A → M Tensor B) s :
  raises_only_backend (m s).1 →
  (∀ a s', m s = (Ok a, s') → raises_only_backend (f a s').1) →
  raises_only_backend ((m ≫= f) s).1.
Proof.
  intros Hm Hf. rewrite run_bind. destruct (m s) as [[a|e] s'] eqn:E.
  - by apply Hf.
  - intros e' [= <-]. by apply Hm.
Qed.

Lemma link_raises_only_backend c comp s :
  length (st_L s) = length (st_v s) → c < length (st_v s) →
  comp ≠ ∅ → (∀ d, d ∈ comp → d < length (st_v s)) →
  raises_only_backend (link c comp s).1.
Proof.
  intros Hlen Hc Hne Hrange. unfold link.
  destruct (set_pop comp) as [d|] eqn:Hpop; [|by apply set_pop_None in Hpop].
  apply set_pop_Some, Hrange in Hpop.
  destruct (lookup_lt_is_Some_2 (st_v s) c Hc) as [vc Hvc].
  destruct (lookup_lt_is_Some_2 (st_v s) d Hpop) as [vd Hvd].
  destruct (lookup_lt_is_Some_2 (st_L s) c) as [A_c HAc]; [lia|].
  destruct (lookup_lt_is_Some_2 (st_L s) d) as [A_d HAd]; [lia|].
  run_fwd.
  rewrite (proj2 (py_get_Ok _ _ _) HAc). run_fwd.
  rewrite (proj2 (py_get_Ok _ _ _) HAd). run_fwd.
  rewrite (proj2 (py_get_Ok _ _ _) Hvc). cbn [fmap res_fmap]. run_fwd.
  rewrite (proj2 (py_get_Ok _ _ _) Hvd). cbn [fmap res_fmap]. run_fwd.
  unfold call_expand_dims. rewrite run_invoke_bind.
  destruct (expand_dims A_c (length vc)) as [A_c'|];
    [|apply raises_only_backend_Err].
  run_fwd. unfold py_set. rewrite decide_True by lia. run_fwd.
  rewrite run_invoke_bind.
  destruct (expand_dims A_d (length vd)) as [A_d'|];
    [|apply raises_only_backend_Err].
  run_fwd. rewrite decide_True by (rewrite length_insert; lia). run_fwd.
  destruct (fresh_dim_spec (st_order s)) as (dim & -> & _). run_fwd.
  rewrite (append_leg_run c _ vc) by done. cbn [st_L st_v st_order st_calls].
  destruct (lookup_lt_is_Some_2 (<[c:=vc ++ [LInt dim]]> (st_v s)) d)
    as [vd' Hvd']; [by rewrite length_insert|].
  rewrite (append_leg_run d _ vd') by done. run_fwd.
  apply raises_only_backend_Ok.
Qed.

Lemma link_all_raises_only_backend c rest s :
  length (st_L s) = length (st_v s) → c < length (st_v s) →
  (∀ comp, comp ∈ rest → comp ≠ ∅ ∧ ∀ d, d ∈ comp → d < length (st_v s)) →
  raises_only_backend (link_all c rest s).1.
Proof.
  revert s. induction rest as [|comp rest IH]; intros s Hlen Hc Hrest;
    cbn [link_all].
  - apply raises_only_backend_Ok.
  - destruct (Hrest comp) as [Hne Hrange]; [by left|].
    apply raises_only_backend_bind; [by apply link_raises_only_backend|].
    intros [] s1 Hlink.
    destruct (link_inv _ _ _ _ Hlink)
      as (d & A_c & A_d & vc & vd & A_c' & A_d' & dim & _ & _ & _ & _ & _
            & _ & _ & _ & ->).
    assert (length (linked_v c d (LInt dim) (st_v s)) = length (st_v s)) as Hsame
      by (unfold linked_v; by rewrite !length_alter).
    apply IH; cbn [st_L st_v].
    + by rewrite !length_insert, Hsame.
    + by rewrite Hsame.
    + intros comp' Hin. rewrite Hsame. apply Hrest. by right.
Qed.

Lemma connect_graph_only_backend s :
  length (st_L s) = length (st_v s) → st_v s ≠ [] →
  raises_only_backend (connect_graph s).1.
Proof.
  intros Hlen Hne. unfold connect_graph. run_fwd. rewrite Hlen.
  destruct (components_of_network (st_v s)) as (cc & visited & -> & Hinv).
  run_fwd.
  assert (∀ comp, comp ∈ reverse cc →
            comp ≠ ∅ ∧ ∀ d, d ∈ comp → d < length (st_v s)) as Hcomps.
  { intros comp Hin. rewrite elem_of_reverse in Hin. split.
    - by apply (ci_nonempty _ _ _ _ _ Hinv).
    - intros d Hd. by apply (ci_range _ _ _ _ _ Hinv comp). }
  destruct (reverse cc) as [|last rest] eqn:Hrev.
  - exfalso. assert (cc = []) as ->.
    { rewrite <- (reverse_involutive cc), Hrev. done. }
    assert (0 ∈ nodes (st_v s)) as Hzero.
    { apply elem_of_nodes. destruct (st_v s); [done | simpl; lia]. }
    pose proof (ci_cover _ _ _ _ _ Hinv 0 Hzero) as Hc.
    rewrite (ci_visited _ _ _ _ _ Hinv) in Hc. set_solver.
  - destruct (Hcomps last) as [Hlast Hrange]; [by left|].
    destruct (set_pop last) as [c|] eqn:Hpop; [|by apply set_pop_None in Hpop].
    run_fwd. apply link_all_raises_only_backend; [done| |].
    + by apply Hrange, set_pop_Some.
    + intros comp Hin. apply Hcomps. by right.
Qed.

(** X13: on a non-empty network with as many leg lists as tensors,
    [connect_graph] raises only what [expand_dims] raises: the traversal
    and the bookkeeping of the links cannot fail. *)
Theorem connect_graph_raises_only_backend s :
  length (st_L s) = length (st_v s) → st_v s ≠ [] →
  raises_only_backend (connect_graph s).1.
Proof. apply connect_graph_only_backend. Qed.

End repair_progress.

Lemma connect_graph_raises_only_backend_witness :
  raises_only_backend (connect_graph outer_state).1.
Proof.
  apply (connect_graph_raises_only_backend outer_state).
  - reflexivity.
  - discriminate.
Defined.

(** ** What a contraction does to the labels *)

Section label_counts.
Context `{Backend Tensor}.
Implicit Types s : state Tensor.

Lemma step_counts s s' :
  step s = (Ok (), s') →
  ∃ icon parts R,
    st_order s' = renew_order (st_order s) icon
    ∧ mjoin (st_v s) ≡ₚ parts ++ mjoin R
    ∧ st_v s' = R ++ [filter (λ i, i ∉ icon) parts]
    ∧ ∀ x, x ∈ icon → 2 ≤ count x parts.
Proof.
  intros Hstep.
  destruct (step_inv _ _ Hstep) as (idx & rest & Ho &
    [(a & va & A & ax1 & ax2 & new_A & Ht & Ha & HA & Hc & _ & _ & _ & ->)
    |(a & b & va & vb & A & B & new_A & icon & Ht & Hab & Ha & Hb & HA & HB
        & Hicon & _ & ->)]);
    cbn [st_v st_order].
  - exists [idx], va, (delete a (st_v s)). split_and!; [done| |done|].
    + by apply mjoin_lookup_Permutation.
    + intros x Hx. apply list_elem_of_singleton in Hx as ->. lia.
  - exists icon, (va ++ vb), (delete a (delete b (st_v s))).
    assert (delete b (st_v s) !! a = Some va) as Ha'
      by (by rewrite list_lookup_delete_lt).
    split_and!; [done| |by rewrite filter_app|].
    + rewrite (mjoin_lookup_Permutation _ _ _ Hb).
      rewrite (mjoin_lookup_Permutation _ _ _ Ha').
      rewrite !app_assoc. apply Permutation_app_tail, Permutation_app_comm.
    + intros x Hx. subst icon.
      apply elem_of_elements, elem_of_intersection in Hx as [Hxa Hxb].
      rewrite elem_of_list_to_set in Hxa, Hxb. apply count_pos in Hxa, Hxb.
      rewrite count_app. lia.
Qed.

Lemma step_free_label_kept s s' :
  step s = (Ok (), s') →
  ∀ x, count x (mjoin (st_v s)) = 1 → count x (mjoin (st_v s')) = 1.
Proof.
  intros Hstep x.
  destruct (step_counts _ _ Hstep) as (icon & parts & R & _ & Hperm & -> & Hicon).
  rewrite (count_Permutation _ _ _ (mjoin_snoc _ _)).
  rewrite (count_Permutation _ _ _ Hperm), !count_app, count_filter_not_in.
  destruct (decide (x ∈ icon)) as [Hx|Hx]; [|done].
  specialize (Hicon _ Hx). lia.
Qed.

(** X14: an iteration of the scheduler loop that does not raise gives no
    label a further leg, and leaves alone the labels it does not contract:
    a label carried by exactly one leg is carried by exactly one leg
    afterwards, and a label that is still in [order] afterwards is carried
    by as many legs as before. *)
Theorem step_keeps_other_labels s s' :
  step s = (Ok (), s') →
  ∀ x, count x (mjoin (st_v s')) ≤ count x (mjoin (st_v s))
     ∧ (count x (mjoin (st_v s)) = 1 → count x (mjoin (st_v s')) = 1)
     ∧ (x ∈ st_order s' → count x (mjoin (st_v s')) = count x (mjoin (st_v s))).
Proof.
  intros Hstep x.
  destruct (step_counts _ _ Hstep) as (icon & parts & R & -> & Hperm & -> & Hicon).
  rewrite (count_Permutation _ _ _ (mjoin_snoc _ _)).
  rewrite (count_Permutation _ _ _ Hperm), !count_app, count_filter_not_in.
  unfold renew_order. rewrite list_elem_of_filter.
  destruct (decide (x ∈ icon)) as [Hx|Hx].
  - specialize (Hicon _ Hx). split_and!; [lia | lia | by intros [? _]].
  - split_and!; [lia | done | done].
Qed.

Lemma contract_free_once fuel s s' forder :
  contract fuel s = (Ok (), s') →
  free_once (st_v s) forder → free_once (st_v s') forder.
Proof.
  revert s. induction fuel as [|fuel IH]; intros s; cbn [contract].
  - destruct (st_order s); [|done]. by intros [= <-].
  - destruct (st_order s); [by intros [= <-]|].
    intros Hc Hfree. apply run_bind_Ok in Hc as ([] & s1 & Hstep & Hc).
    apply (IH s1); [done|]. intros x Hx.
    by apply (step_free_label_kept s s1 Hstep x), Hfree.
Qed.

End label_counts.

Lemma step_keeps_other_labels_witness :
  count (LInt (-1)) (mjoin (st_v matmul_result))
  ≤ count (LInt (-1)) (mjoin (st_v matmul_state))
  ∧ (count (LInt (-1)) (mjoin (st_v matmul_state)) = 1 →
     count (LInt (-1)) (mjoin (st_v matmul_result)) = 1)
  ∧ (LInt (-1) ∈ st_order matmul_result →
     count (LInt (-1)) (mjoin (st_v matmul_result))
     = count (LInt (-1)) (mjoin (st_v matmul_state))).
Proof.
  apply (step_keeps_other_labels matmul_state matmul_result).
  vm_compute. reflexivity.
Defined.

(** ** The whole pipeline raises only what the backend raises *)

Lemma map_res_total {A B} (f : A → res B) l :
  (∀ x, x ∈ l → ∃ y, f x = Ok y) → ∃ k, map_res f l = Ok k.
Proof.
  induction l as [|x l IH]; intros Hf; [by eexists|].
  destruct (Hf x) as [y Hy]; [by left|].
  destruct IH as [k Hk]; [intros; apply Hf; by right|].
  exists (y :: k). simpl. by rewrite Hy, Hk.
Qed.

Section pipeline_progress.
Context `{Backend Tensor} `{SetPop}.
Implicit Types s : state Tensor.

Lemma validated_free_once (L : list Tensor) v order forder b :
  do_check_indices L v order forder = Ok b → free_once v forder.
Proof.
  intros Hb x Hx. apply do_check_indices_Ok in Hb as [_ Hno].
  destruct (decide (count x (mjoin v) = 1)) as [|Hne]; [done|].
  destruct Hno. do 4 right. eauto.
Qed.

Lemma link_all_free_once c rest s s' forder :
  positives_listed (st_v s) (st_order s) →
  link_all c rest s = (Ok (), s') →
  free_once (st_v s) forder → free_once (st_v s') forder.
Proof.
  revert s. induction rest as [|comp rest IH]; intros s Hpos; cbn [link_all].
  - rewrite run_ret. by intros [= <-].
  - intros Hl Hfree. apply run_bind_Ok in Hl as ([] & s1 & Hlink & Hl).
    destruct (link_inv _ _ _ _ Hlink)
      as (d & A_c & A_d & vc & vd & A_c' & A_d' & dim & Hd & HAc & HAd & Hvc & Hvd
            & _ & _ & (Hdpos & Hnew & _) & ->).
    apply lookup_lt_Some in Hvc, Hvd.
    assert (∀ x, count x (mjoin (linked_v c d (LInt dim) (st_v s)))
                 = count x (mjoin (st_v s))
                   + (if decide (LInt dim = x) then 2 else 0)) as Hcount.
    { intros x. unfold linked_v.
      rewrite count_mjoin_alter by (by rewrite length_alter).
      rewrite count_mjoin_alter by done. case_decide; lia. }
    eapply IH; [|exact Hl|]; cbn [st_v st_order].
    + intros z Hz Hin. rewrite elem_of_app, list_elem_of_singleton.
      destruct (decide (LInt dim = LInt z)) as [Heq|Hne]; [right; congruence|].
      left. apply Hpos; [done|]. apply count_pos. apply count_pos in Hin.
      rewrite Hcount in Hin. rewrite decide_False in Hin by done. lia.
    + intros x Hx. rewrite Hcount. specialize (Hfree _ Hx).
      rewrite decide_False; [lia|]. intros <-. apply Hnew, Hpos; [done|].
      apply count_pos. lia.
Qed.

Lemma ncon_body_raises_only_backend (L : list Tensor) v order forder check calls :
  v ≠ [] → do_check_indices L v order forder = Ok true → order_covers v order →
  raises_only_backend (ncon_body forder check (State L v order calls)).1.
Proof.
  intros Hne Hb Hcov. unfold ncon_body.
  assert (length L = length v) as Hlen.
  { unfold do_check_indices in Hb. by case_decide. }
  apply raises_only_backend_bind.
  { destruct check; [|apply raises_only_backend_Ok].
    rewrite validate_read_only. cbn [st_L st_v st_order fst]. rewrite Hb.
    apply raises_only_backend_Ok. }
  intros b s0 Hs0.
  assert (s0 = State L v order calls) as ->.
  { destruct check; [rewrite validate_read_only in Hs0|rewrite run_ret in Hs0];
      by injection Hs0. }
  clear Hs0. apply raises_only_backend_bind.
  { by apply connect_graph_only_backend. }
  intros [] s1 Hc.
  pose proof (connect_graph_loop_inv _ _ _ _ _ _ _ Hb Hcov Hc) as Hinv.
  assert (free_once (st_v s1) forder) as Hfree.
  { destruct (connect_graph_inv _ _ Hc) as (cc & last & rest & c & _ & _ & _ & Hl).
    eapply link_all_free_once; [|exact Hl|]; cbn [st_v st_order].
    - apply Hcov.
    - by eapply validated_free_once. }
  rewrite run_get_order_bind. apply raises_only_backend_bind.
  { by apply contract_only_backend. }
  intros [] s2 Hloop.
  destruct (contract_one_tensor _ _ _ Hinv Hloop) as (HL2 & Hv2 & _).
  pose proof (contract_free_once _ _ _ _ Hloop Hfree) as Hfree2.
  rewrite run_get_v_bind.
  destruct (st_v s2) as [|vlast [|? ?]] eqn:Ev; try done.
  destruct (st_L s2) as [|A [|? ?]] eqn:EL; try done.
  change (py_get [vlast] 0) with (Ok vlast). rewrite run_lift_bind.
  rewrite run_get_L_bind, EL.
  change (py_get [A] 0) with (Ok A). rewrite run_lift_bind.
  unfold permute_final.
  destruct (map_res_total (λ i, list_index i vlast) forder) as [perm Hperm].
  { intros x Hx. specialize (Hfree2 _ Hx). simpl in Hfree2.
    rewrite app_nil_r in Hfree2.
    destruct (list_index x vlast) as [p|e] eqn:E; [by eexists|].
    apply list_index_Err in E as [_ E]. apply count_zero in E. lia. }
  rewrite Hperm, run_lift_bind. unfold call_permute, invoke. cbn [fst].
  destruct (permute A perm); [apply raises_only_backend_Ok|].
  apply raises_only_backend_Err.
Qed.

(** X15: on a non-empty network that the validator accepts and whose
    [order] lists every label carried by more than one leg and every
    positive integer label, [ncon] raises only what a backend operation
    raises, with or without [check_indices]: the repair, the scheduler
    loop, the lookups [v[0]] and [L[0]] and the search of the free labels
    in the last leg list cannot fail. *)
Theorem ncon_raises_only_backend (L : list Tensor) v order forder check :
  v ≠ [] → do_check_indices L v order forder = Ok true → order_covers v order →
  raises_only_backend (ncon L v (PySeq order) (PySeq forder) check).1.
Proof.
  intros Hne Hb Hcov. rewrite ncon_unfold.
  assert (preprocess_indices v = Ok v) as ->.
  { unfold preprocess_indices. by destruct v. }
  cbn [preprocess_forder_order].
  pose proof (ncon_body_raises_only_backend L v order forder check [] Hne Hb Hcov)
    as Hbody.
  by destruct (ncon_body forder check (State L v order [])).
Qed.


End pipeline_progress.

Lemma ncon_raises_only_backend_witness :
  raises_only_backend
    (ncon matmul_L matmul_v (PySeq [LInt 1]) (PySeq [LInt (-1); LInt (-2)]) true).1.
Proof.
  apply (ncon_raises_only_backend matmul_L matmul_v [LInt 1]
           [LInt (-1); LInt (-2)] true).
  - discriminate.
  - vm_compute. reflexivity.
  - exact matmul_order_covers.
Defined.


(** ** The shapes of the arguments *)

Section argument_shapes.
Context `{Backend Tensor} `{SetPop}.

(** X17: when the preparation of [v] succeeds, its result is a non-empty
    list of leg lists and a fixed point of the preparation; [ncon] on the
    arguments as passed is [ncon] on the prepared tensors and leg lists.
    A single tensor with a flat list of labels is thus contracted as the
    one-tensor network made of them. *)
Theorem ncon_canonical_arguments (L : Dynamic.py_tensors Tensor) v v'
    order forder check :
  Dynamic.preprocess_indices v = Ok v' →
  v' ≠ []
  ∧ Dynamic.preprocess_indices (Dynamic.PyNested v') = Ok v'
  ∧ (∀ l, v = Dynamic.PyFlat l → v' = [l])
  ∧ Dynamic.ncon L v order forder check
    = ncon (Dynamic.preprocess_tensors L) v' order forder check.
Proof.
  intros Hv.
  assert (v' ≠ [] ∧ ∀ l, v = Dynamic.PyFlat l → v' = [l]) as [Hne Hflat].
  { destruct v as [|[|x l]|[|l v]]; cbn in Hv; try discriminate;
      injection Hv as <-; (split; [done|]); by intros ? [= <-]. }
  assert (preprocess_indices v' = Ok v') as Htyped.
  { unfold preprocess_indices. by destruct v'. }
  split_and!; [done| |done|].
  - by destruct v'.
  - unfold Dynamic.ncon, ncon. by rewrite Hv, Htyped.
Qed.

(** X18: the preparation of [v] raises exactly when [v] is not a
    non-string iterable ([ValueError]) or is empty, flat or nested
    ([IndexError]); [ncon] then raises that exception whatever the other
    arguments are, before the network state exists.  So a tensor without
    legs cannot be passed with the flat [v = []]. *)
Theorem ncon_rejects_indices (L : Dynamic.py_tensors Tensor) v
    order forder check :
  (raises (Dynamic.preprocess_indices v) ↔
     v = Dynamic.PyScalar ∨ v = Dynamic.PyFlat [] ∨ v = Dynamic.PyNested [])
  ∧ (∀ e, Dynamic.preprocess_indices v = Err e →
       Dynamic.ncon L v order forder check = (Err e, None)
       ∧ (e = E_not_iterable "v" ↔ v = Dynamic.PyScalar)
       ∧ (e = E_index ↔ v ≠ Dynamic.PyScalar)).
Proof.
  split.
  - unfold raises. destruct v as [|[|x l]|[|l v]]; cbn.
    + split; [auto | by eexists].
    + split; [auto | by eexists].
    + split; [by intros [e [=]] | by intros [|[|]]].
    + split; [auto | by eexists].
    + split; [by intros [e [=]] | by intros [|[|]]].
  - intros e He. split; [unfold Dynamic.ncon; by rewrite He|].
    destruct v as [|[|x l]|[|l v]]; cbn in He; try discriminate;
      injection He as <-; split; split; try done; by intros [].
Qed.

End argument_shapes.

Lemma ncon_canonical_arguments_witness :
  [[LInt 1; LInt 1]] ≠ []
  ∧ Dynamic.preprocess_indices (Dynamic.PyNested [[LInt 1; LInt 1]])
    = Ok [[LInt 1; LInt 1]]
  ∧ (∀ l, Dynamic.PyFlat [LInt 1; LInt 1] = Dynamic.PyFlat l →
          [[LInt 1; LInt 1]] = [l])
  ∧ Dynamic.ncon (Dynamic.PyTensor [2; 2]) (Dynamic.PyFlat [LInt 1; LInt 1])
      PyNone PyNone true
    = ncon (Dynamic.preprocess_tensors (Dynamic.PyTensor [2; 2]))
        [[LInt 1; LInt 1]] PyNone PyNone true.
Proof.
  apply (ncon_canonical_arguments (Dynamic.PyTensor [2; 2])
           (Dynamic.PyFlat [LInt 1; LInt 1])).
  reflexivity.
Defined.

Lemma ncon_rejects_indices_witness :
  Dynamic.ncon (Dynamic.PyTensor ([] : list nat)) (Dynamic.PyFlat [])
    PyNone PyNone true = (Err E_index, None)
  ∧ (E_index = E_not_iterable "v" ↔ Dynamic.PyFlat [] = Dynamic.PyScalar)
  ∧ (E_index = E_index ↔ Dynamic.PyFlat [] ≠ Dynamic.PyScalar).
Proof.
  apply (proj2 (ncon_rejects_indices (Dynamic.PyTensor ([] : list nat))
                  (Dynamic.PyFlat []) PyNone PyNone true)).
  reflexivity.
Defined.

(** ** The validator looks at the labels listed, not at how they are listed *)

Section validator_sets.
Context `{Backend Tensor}.

Lemma malformed_label_sets (L : list Tensor) v order forder order' forder' :
  (∀ x, x ∈ order ↔ x ∈ order') → (∀ x, x ∈ forder ↔ x ∈ forder') →
  malformed L v order forder → malformed L v order' forder'.
Proof.
  intros Ho Hf [Hm|[Hm|[(e & He & Hm)|[(e & p0 & p1 & He & Hm)|(e & He & Hm)]]]].
  - by left.
  - right. by left.
  - right. right. left. exists e. split; [by apply Ho | done].
  - right. right. right. left. exists e, p0, p1. split; [by apply Ho | done].
  - do 4 right. exists e. split; [by apply Hf | done].
Qed.

Lemma do_check_indices_Ok_iff (L : list Tensor) v order forder :
  do_check_indices L v order forder = Ok true ↔ ¬ malformed L v order forder.
Proof.
  split.
  - intros Hb. by apply do_check_indices_Ok in Hb as [_ ?].
  - intros Hno. destruct (do_check_indices L v order forder) as [b|e] eqn:E.
    + by apply do_check_indices_Ok in E as [-> _].
    + by apply do_check_indices_Err in E.
Qed.

(** X19: whether the validator accepts depends on [order] and [forder]
    only through the sets of labels they list: the sequence of the labels
    and repetitions among them do not matter. *)
Theorem do_check_indices_label_sets (L : list Tensor) v order forder
    order' forder' :
  (∀ x, x ∈ order ↔ x ∈ order') → (∀ x, x ∈ forder ↔ x ∈ forder') →
  (do_check_indices L v order forder = Ok true
   ↔ do_check_indices L v order' forder' = Ok true).
Proof.
  intros Ho Hf. rewrite !do_check_indices_Ok_iff.
  split; intros Hno Hm; apply Hno;
    eapply malformed_label_sets; try exact Hm; intros x;
    by rewrite ?Ho, ?Hf.
Qed.

End validator_sets.

Lemma do_check_indices_label_sets_witness :
  do_check_indices matmul_L matmul_v [LInt 1] [LInt (-1); LInt (-2)] = Ok true
  ↔ do_check_indices matmul_L matmul_v [LInt 1; LInt 1]
      [LInt (-2); LInt (-1); LInt (-2)] = Ok true.
Proof.
  apply (do_check_indices_label_sets matmul_L matmul_v);
    intros x; rewrite !elem_of_cons, !elem_of_nil; tauto.
Defined.

(** ** The default orders *)



(** X20: on a network whose labels are all integers the default order
    and the default free order exist, and every label of the network is
    in exactly one of them or is the integer 0, which is in neither. *)
Theorem default_orders_partition v :
  all_ints v →
  ∃ zs fs,
    create_order v = Ok (LInt <$> zs) ∧ create_forder v = Ok (LInt <$> fs)
    ∧ ∀ x, x ∈ mjoin v →
        (x = LInt 0 ∧ (x ∉ LInt <$> zs) ∧ (x ∉ LInt <$> fs))
        ∨ (x ∈ LInt <$> zs ∧ x ∉ LInt <$> fs)
        ∨ ((x ∉ LInt <$> zs) ∧ x ∈ LInt <$> fs).
Proof.
  intros Hints.
  destruct (create_order_spec v Hints) as (zs & Ho & _ & Hzs).
  destruct (create_forder_spec v Hints) as (fs & Hf & _ & Hfs).
  exists zs, fs. split_and!; [done..|]. intros x Hx.
  destruct (Hints _ Hx) as [z ->].
  assert (∀ l : list Z, LInt z ∈ LInt <$> l ↔ z ∈ l) as Hin.
  { intros l. rewrite list_elem_of_fmap. split; [by intros (? & [= <-] & ?)|eauto]. }
  rewrite !Hin, Hzs, Hfs.
  destruct (Z.lt_trichotomy z 0) as [Hz|[->|Hz]].
  - right. right. split; [lia | done].
  - left. split_and!; [done | lia..].
  - right. left. split; [done | lia].
Qed.


Lemma default_orders_partition_witness :
  ∃ zs fs,
    create_order matmul_v = Ok (LInt <$> zs)
    ∧ create_forder matmul_v = Ok (LInt <$> fs)
    ∧ ∀ x, x ∈ mjoin matmul_v →
        (x = LInt 0 ∧ (x ∉ LInt <$> zs) ∧ (x ∉ LInt <$> fs))
        ∨ (x ∈ LInt <$> zs ∧ x ∉ LInt <$> fs)
        ∨ ((x ∉ LInt <$> zs) ∧ x ∈ LInt <$> fs).
Proof.
  apply (default_orders_partition matmul_v).
  apply indices_are_ints_true. reflexivity.
Defined.


Section defaults_pipeline.
Context `{Backend Tensor} `{SetPop}.

Lemma preprocess_default_order v order :
  preprocess_forder_order PyNone v "order" = Ok order →
  all_ints v ∧ ∃ zs, order = LInt <$> zs ∧ is_default_order v zs.
Proof.
  unfold preprocess_forder_order.
  destruct (indices_are_ints v) eqn:Ei; [|done]. cbn [negb].
  apply indices_are_ints_true in Ei. rewrite decide_True by done.
  destruct (create_order_spec v Ei) as (zs & -> & Hzs). intros [= <-]. eauto.
Qed.

Lemma preprocess_default_forder v forder :
  preprocess_forder_order PyNone v "forder" = Ok forder →
  ∃ fs, forder = LInt <$> fs ∧ is_default_forder v fs.
Proof.
  unfold preprocess_forder_order.
  destruct (indices_are_ints v) eqn:Ei; [|done]. cbn [negb].
  apply indices_are_ints_true in Ei.
  rewrite decide_False by done. rewrite decide_True by done.
  destruct (create_forder_spec v Ei) as (fs & -> & Hfs). intros [= <-]. eauto.
Qed.

Lemma default_order_covers (L : list Tensor) v order forder :
  preprocess_forder_order PyNone v "order" = Ok order →
  preprocess_forder_order PyNone v "forder" = Ok forder →
  do_check_indices L v order forder = Ok true →
  count (LInt 0) (mjoin v) ≤ 1 → order_covers v order.
Proof.
  intros Ho Hf Hb Hzero.
  apply preprocess_default_order in Ho as (Hints & zs & -> & _ & Hzs).
  apply preprocess_default_forder in Hf as (fs & -> & _ & Hfs).
  pose proof (validated_free_once _ _ _ _ _ Hb) as Hfree.
  split.
  - intros x Hx. assert (x ∈ mjoin v) as Hin by (apply count_pos; lia).
    destruct (Hints _ Hin) as [z ->].
    destruct (Z.lt_trichotomy z 0) as [Hz|[->|Hz]].
    + assert (LInt z ∈ LInt <$> fs) as Hzf
        by (apply list_elem_of_fmap; exists z; split; [done | by apply Hfs]).
      apply Hfree in Hzf. lia.
    + lia.
    + apply list_elem_of_fmap. exists z. split; [done | by apply Hzs].
  - intros z Hz Hin. apply list_elem_of_fmap. exists z.
    split; [done | by apply Hzs].
Qed.

(** X22: with integer labels and [order] and [forder] left to their
    defaults, on a non-empty network that the validator accepts and in
    which the label 0 is on at most one leg, the default order lists every
    label carried by two legs; the scheduler loop then leaves exactly one
    tensor, and [ncon] raises only what a backend operation raises. *)
Theorem ncon_defaults_complete (L : list Tensor) v order forder :
  v ≠ [] →
  preprocess_forder_order PyNone v "order" = Ok order →
  preprocess_forder_order PyNone v "forder" = Ok forder →
  do_check_indices L v order forder = Ok true →
  count (LInt 0) (mjoin v) ≤ 1 →
  order_covers v order
  ∧ (∀ check, raises_only_backend (ncon L v PyNone PyNone check).1)
  ∧ ∀ s1 s2,
      connect_graph (State L v order []) = (Ok (), s1) →
      contract (length (st_order s1)) s1 = (Ok (), s2) →
      length (st_L s2) = 1 ∧ length (st_v s2) = 1.
Proof.
  intros Hne Ho Hf Hb Hzero.
  pose proof (default_order_covers L v order forder Ho Hf Hb Hzero) as Hcov.
  split_and!; [done| |].
  - intros check. rewrite ncon_unfold.
    assert (preprocess_indices v = Ok v) as ->.
    { unfold preprocess_indices. by destruct v. }
    rewrite Ho, Hf.
    pose proof (ncon_body_raises_only_backend L v order forder check [] Hne Hb Hcov)
      as Hbody.
    by destruct (ncon_body forder check (State L v order [])).
  - intros s1 s2 Hc Hloop.
    pose proof (connect_graph_loop_inv _ _ _ _ _ _ _ Hb Hcov Hc) as Hinv.
    destruct (contract_one_tensor _ _ _ Hinv Hloop) as (? & ? & _). done.
Qed.

End defaults_pipeline.

Lemma ncon_defaults_complete_witness :
  order_covers matmul_v [LInt 1]
  ∧ (∀ check,
       raises_only_backend (ncon matmul_L matmul_v PyNone PyNone check).1)
  ∧ ∀ s1 s2,
      connect_graph (State matmul_L matmul_v [LInt 1] []) = (Ok (), s1) →
      contract (length (st_order s1)) s1 = (Ok (), s2) →
      length (st_L s2) = 1 ∧ length (st_v s2) = 1.
Proof.
  apply (ncon_defaults_complete matmul_L matmul_v [LInt 1] [LInt (-1); LInt (-2)]).
  - discriminate.
  - vm_compute. reflexivity.
  - vm_compute. reflexivity.
  - vm_compute. reflexivity.
  - vm_compute. lia.
Defined.

(** ** The final permutation *)

Lemma NoDup_bounded_Permutation (l : list nat) n :
  NoDup l → (∀ x, x ∈ l → x < n) → length l = n → l ≡ₚ seq 0 n.
Proof.
  intros Hnd Hlt Hlen. apply submseteq_length_Permutation.
  - apply NoDup_submseteq; [done|]. intros x Hx. apply elem_of_seq.
    specialize (Hlt _ Hx). lia.
  - rewrite length_seq. lia.
Qed.

Section arranger_permutation.
Context `{Backend Tensor}.

Lemma permute_final_run (A : Tensor) (v forder : list label)
    (s : state Tensor) :
  NoDup v → forder ≡ₚ v →
  ∃ perm,
    permute_final A v forder s
    = (match permute A perm with Some T => Ok T | None => Err E_backend end,
       record_call (CallPermute A perm) s)
    ∧ perm ≡ₚ seq 0 (length v)
    ∧ (∀ k p, perm !! k = Some p → v !! p = forder !! k)
    ∧ (forder = v → perm = seq 0 (length v)).
Proof.
  intros Hnd Hp.
  destruct (map_res_total (λ i, list_index i v) forder) as [perm Hperm].
  { intros x Hx. rewrite Hp in Hx.
    destruct (list_index x v) as [p|e] eqn:E; [by eexists|].
    by apply list_index_Err in E as [_ E]. }
  exists perm.
  pose proof (proj1 (map_res_Ok _ _ _) Hperm) as Hall.
  assert (∀ k p, perm !! k = Some p → v !! p = forder !! k) as Hlook.
  { intros k p Hk.
    destruct (Forall2_lookup_r _ _ _ _ _ Hall Hk) as (x & Hx & Hi).
    apply list_index_Ok in Hi as [Hi _]. congruence. }
  assert (length perm = length v) as Hlen.
  { rewrite <- (Forall2_length _ _ _ Hall). by apply Permutation_length. }
  split_and!.
  - unfold permute_final. by rewrite run_bind, Hperm.
  - apply NoDup_bounded_Permutation; [| |done].
    + apply NoDup_alt. intros i j p Hi Hj.
      pose proof (Hlook _ _ Hi) as Hfi. pose proof (Hlook _ _ Hj) as Hfj.
      assert (is_Some (v !! p)) as [x Hx].
      { rewrite Hfi. apply lookup_lt_is_Some.
        rewrite (Forall2_length _ _ _ Hall). by eapply lookup_lt_Some. }
      rewrite Hx in Hfi, Hfj.
      assert (NoDup forder) as Hndf by (by rewrite Hp).
      by eapply (proj1 (NoDup_alt forder) Hndf).
    + intros p Hin. apply list_elem_of_lookup in Hin as [k Hk].
      pose proof (Hlook _ _ Hk) as Hf.
      apply lookup_lt_is_Some. rewrite Hf. apply lookup_lt_is_Some.
      rewrite (Forall2_length _ _ _ Hall). by eapply lookup_lt_Some.
  - done.
  - intros ->. apply (list_eq_same_length _ _ (length v)); [by rewrite length_seq|done|].
    intros k p q Hk Hpk Hq. apply lookup_seq in Hq as [-> _]. simpl.
    pose proof (Hlook _ _ Hpk) as Hv.
    destruct (lookup_lt_is_Some_2 v k Hk) as [x Hx]. rewrite Hx in Hv.
    by eapply (proj1 (NoDup_alt v) Hnd).
Qed.

(** X23: when [forder] lists the labels of the last leg list, each once,
    [permute_final] passes to [permute] a permutation of the axes of the
    tensor, whose entry [k] is the axis that carries [forder[k]]; it is
    the identity when [forder] is the leg list itself. *)
Theorem permute_final_permutation (A : Tensor) (v forder : list label)
    (s : state Tensor) :
  NoDup v → forder ≡ₚ v →
  ∃ perm,
    permute_final A v forder s
    = (match permute A perm with Some T => Ok T | None => Err E_backend end,
       record_call (CallPermute A perm) s)
    ∧ perm ≡ₚ seq 0 (length v)
    ∧ (∀ k p, perm !! k = Some p → v !! p = forder !! k)
    ∧ (forder = v → perm = seq 0 (length v)).
Proof. apply permute_final_run. Qed.

End arranger_permutation.

Lemma permute_final_permutation_witness :
  ∃ perm,
    permute_final [3; 4] [LInt (-1); LInt (-2)] [LInt (-2); LInt (-1)] matmul_result
    = (match permute [3; 4] perm with Some T => Ok T | None => Err E_backend end,
       record_call (CallPermute [3; 4] perm) matmul_result)
    ∧ perm ≡ₚ seq 0 (length [LInt (-1); LInt (-2)])
    ∧ (∀ k p, perm !! k = Some p →
         [LInt (-1); LInt (-2)] !! p = [LInt (-2); LInt (-1)] !! k)
    ∧ ([LInt (-2); LInt (-1)] = [LInt (-1); LInt (-2)] →
       perm = seq 0 (length [LInt (-1); LInt (-2)])).
Proof.
  apply (permute_final_permutation [3; 4] [LInt (-1); LInt (-2)]
           [LInt (-2); LInt (-1)] matmul_result).
  - apply NoDup_cons. split; [|apply NoDup_singleton].
    intros Hin. apply list_elem_of_singleton in Hin. discriminate Hin.
  - apply perm_swap.
Defined.

(** ** The axes passed to the backend *)

Lemma NoDup_count (l : list label) :
  (∀ x, x ∈ l → count x l = 1) → NoDup l.
Proof.
  induction l as [|y l IH]; intros Hone; [constructor|].
  pose proof (Hone y ltac:(by left)) as Hy. rewrite count_cons in Hy.
  rewrite decide_True in Hy by done.
  constructor.
  - apply count_zero. lia.
  - apply IH. intros x Hx. pose proof (Hone x ltac:(by right)) as Hc.
    rewrite count_cons in Hc. apply count_pos in Hx. case_decide; lia.
Qed.

Section calls_valid.
Context `{Backend Tensor} `{SetPop} `{!BackendLaws}.
Implicit Types s : state Tensor.

Lemma contract_calls_valid fuel s s' :
  network_inv (st_L s) (st_v s) → loop_inv s →
  contract fuel s = (Ok (), s') →
  network_inv (st_L s') (st_v s')
  ∧ ∃ cs, st_calls s' = st_calls s ++ cs ∧ Forall axes_valid cs.
Proof.
  revert s. induction fuel as [|fuel IH]; intros s Hnet Hinv; cbn [contract].
  - destruct (st_order s); [|done]. intros [= <-]. split; [done|].
    exists []. by rewrite app_nil_r.
  - destruct (st_order s) as [|idx rest] eqn:Ho.
    { intros [= <-]. split; [done|]. exists []. by rewrite app_nil_r. }
    intros Hc. apply run_bind_Ok in Hc as ([] & s1 & Hstep & Hc).
    destruct (step_call_valid s Hnet) as (c & Hcall & Hvalid).
    { apply Hinv. }
    { by rewrite Ho. }
    rewrite Hstep in Hcall. cbn [snd] in Hcall.
    destruct (IH s1) as (Hnet' & cs & Hcalls & Hall); [|by eapply step_loop_inv|done|].
    { by eapply step_network_inv. }
    split; [done|]. exists (c :: cs). split; [|by constructor].
    by rewrite Hcalls, Hcall, <- app_assoc.
Qed.

Lemma link_all_calls_valid c rest s s' :
  network_inv (st_L s) (st_v s) → (∀ comp, comp ∈ rest → c ∉ comp) →
  link_all c rest s = (Ok (), s') →
  ∃ cs, st_calls s' = st_calls s ++ cs ∧ Forall axes_valid cs.
Proof.
  revert s. induction rest as [|comp rest IH]; intros s Hnet Hc; cbn [link_all].
  - rewrite run_ret. intros [= <-]. exists []. by rewrite app_nil_r.
  - intros Hl. apply run_bind_Ok in Hl as ([] & s1 & Hlink & Hl).
    assert (network_inv (st_L s1) (st_v s1)) as Hnet1.
    { eapply link_network_inv; [done | apply Hc; by left | done]. }
    destruct (IH s1 Hnet1) as (cs & Hcalls & Hall); [intros; apply Hc; by right|done|].
    destruct (link_inv _ _ _ _ Hlink)
      as (d & A_c & A_d & vc & vd & A_c' & A_d' & dim & _ & HAc & HAd & Hvc & Hvd
            & _ & _ & _ & ->).
    cbn [st_calls] in Hcalls.
    exists (CallExpandDims A_c (length vc) :: CallExpandDims A_d (length vd) :: cs).
    split; [by rewrite Hcalls, <- !app_assoc|].
    destruct Hnet as [_ Hrank].
    constructor; [by eapply Hrank|]. constructor; [by eapply Hrank|done].
Qed.

Lemma link_all_labels_listed c rest s s' forder :
  link_all c rest s = (Ok (), s') →
  labels_listed (st_v s) (st_order s) forder →
  labels_listed (st_v s') (st_order s') forder.
Proof.
  revert s. induction rest as [|comp rest IH]; intros s; cbn [link_all].
  - rewrite run_ret. by intros [= <-].
  - intros Hl Hlisted. apply run_bind_Ok in Hl as ([] & s1 & Hlink & Hl).
    apply (IH s1); [done|].
    destruct (link_inv _ _ _ _ Hlink)
      as (d & A_c & A_d & vc & vd & A_c' & A_d' & dim & _ & _ & _ & Hvc & Hvd
            & _ & _ & _ & ->).
    apply lookup_lt_Some in Hvc, Hvd. cbn [st_v st_order].
    intros x Hx. apply count_pos in Hx. unfold linked_v in Hx.
    rewrite count_mjoin_alter in Hx by (by rewrite length_alter).
    rewrite count_mjoin_alter in Hx by done.
    rewrite elem_of_app, list_elem_of_singleton.
    destruct (decide (LInt dim = x)) as [<-|Hne]; [left; by right|].
    destruct (Hlisted x) as [?|?]; [apply count_pos; lia | by left; left | by right].
Qed.

Lemma contract_labels_listed fuel s s' forder :
  loop_inv s → contract fuel s = (Ok (), s') →
  labels_listed (st_v s) (st_order s) forder →
  labels_listed (st_v s') (st_order s') forder.
Proof.
  revert s. induction fuel as [|fuel IH]; intros s Hinv; cbn [contract].
  - destruct (st_order s) eqn:Ho; [|done]. intros [= <-]. by rewrite Ho.
  - destruct (st_order s) eqn:Ho; [intros [= <-]; by rewrite Ho|]. rewrite <- Ho.
    intros Hc Hlisted. apply run_bind_Ok in Hc as ([] & s1 & Hstep & Hc).
    apply (IH s1); [by eapply step_loop_inv | done |].
    destruct (step_counts _ _ Hstep) as (icon & parts & R & Ho' & Hperm & Hv' & Hicon).
    destruct Hinv as (_ & _ & Hdeg & _).
    intros x Hx. apply count_pos in Hx. rewrite Hv' in Hx.
    rewrite (count_Permutation _ _ _ (mjoin_snoc _ _)) in Hx.
    rewrite count_app, count_filter_not_in in Hx.
    destruct (Hdeg x) as [Hle _].
    rewrite (count_Permutation _ _ _ Hperm), count_app in Hle.
    assert (x ∉ icon) as Hnot.
    { intros Hin. specialize (Hicon _ Hin).
      rewrite decide_True in Hx by done. lia. }
    rewrite decide_False in Hx by done.
    destruct (Hlisted x) as [Hxo|Hxf]; [| |by right].
    + apply count_pos. rewrite (count_Permutation _ _ _ Hperm), count_app. lia.
    + left. rewrite Ho'. unfold renew_order. by apply list_elem_of_filter.
Qed.

(** a run of [ncon] that returns, on a well-formed and completely listed
    network: the state [s2] at the exit of the scheduler loop and the final
    call *)
Lemma ncon_run (L : list Tensor) v order forder check T s :
  do_check_indices L v order forder = Ok true → order_covers v order →
  NoDup forder → labels_listed v order forder →
  ncon L v (PySeq order) (PySeq forder) check = (Ok T, Some s) →
  ∃ s2 A vlast perm,
    st_L s2 = [A] ∧ st_v s2 = [vlast] ∧ st_order s2 = []
    ∧ forder ≡ₚ vlast ∧ length vlast = rank A
    ∧ Forall axes_valid (st_calls s2)
    ∧ perm ≡ₚ seq 0 (length vlast)
    ∧ (∀ k p, perm !! k = Some p → vlast !! p = forder !! k)
    ∧ permute A perm = Some T
    ∧ s = record_call (CallPermute A perm) s2.
Proof.
  intros Hb Hcov Hndf Hlisted Hrun. rewrite ncon_unfold in Hrun.
  destruct (preprocess_indices v) as [v'|] eqn:Ev; [|done].
  apply preprocess_indices_Ok in Ev as ->.
  cbn [preprocess_forder_order] in Hrun.
  destruct (ncon_body forder check (State L v order [])) as [r s0] eqn:Hbody.
  injection Hrun as -> ->. unfold ncon_body in Hbody.
  apply run_bind_Ok in Hbody as (b & s0 & Hval & Hbody).
  assert (s0 = State L v order []) as ->.
  { destruct check; [rewrite validate_read_only in Hval|rewrite run_ret in Hval];
      by injection Hval. }
  clear Hval.
  apply run_bind_Ok in Hbody as ([] & s1 & Hc & Hbody).
  apply run_bind_Ok in Hbody as (o & ? & Ho & Hbody). run_get Ho.
  apply run_bind_Ok in Hbody as ([] & s2 & Hloop & Hbody).
  apply run_bind_Ok in Hbody as (v2 & ? & Hv2 & Hbody). run_get Hv2.
  apply run_bind_Ok in Hbody as (vlast & ? & Hvlast & Hbody). run_lift Hvlast.
  apply run_bind_Ok in Hbody as (L2 & ? & HL2 & Hbody). run_get HL2.
  apply run_bind_Ok in Hbody as (A & ? & HA & Hbody). run_lift HA.
  apply py_get_Ok in Hvlast, HA.
  (* the repair *)
  pose proof (validated_network_inv _ _ _ _ _ Hb) as Hnet.
  pose proof (connect_graph_loop_inv _ _ _ _ _ _ _ Hb Hcov Hc) as Hinv.
  pose proof (connect_graph_network_inv (State L v order []) s1 Hnet Hc) as Hnet1.
  destruct (connect_graph_inv _ _ Hc) as (cc & last & rest & c & Hcc & Hrev & Hcl & Hl).
  cbn [st_L st_v] in Hcc. rewrite (proj1 Hnet) in Hcc.
  destruct (components_of_network v) as (cc' & visited & Hcc' & Hcinv).
  rewrite Hcc in Hcc'. injection Hcc' as <-.
  destruct (link_all_calls_valid c rest (State L v order []) s1 Hnet
              (components_last_separate _ _ _ _ _ _ _ Hcinv Hrev Hcl) Hl)
    as (cs1 & Hcalls1 & Hall1).
  assert (free_once (st_v s1) forder) as Hfree1.
  { eapply link_all_free_once; [|exact Hl|]; cbn [st_v st_order].
    - apply Hcov.
    - by eapply validated_free_once. }
  pose proof (link_all_labels_listed c rest (State L v order []) s1 forder
                Hl Hlisted) as Hlisted1.
  (* the scheduler loop *)
  destruct (contract_calls_valid _ _ _ Hnet1 Hinv Hloop)
    as (Hnet2 & cs2 & Hcalls2 & Hall2).
  destruct (contract_one_tensor _ _ _ Hinv Hloop) as (HL2 & Hv2 & Ho2).
  pose proof (contract_free_once _ _ _ _ Hloop Hfree1) as Hfree2.
  pose proof (contract_labels_listed _ _ _ forder Hinv Hloop Hlisted1) as Hlisted2.
  destruct (st_v s2) as [|vlast' [|? ?]] eqn:Ev2; try done.
  destruct (st_L s2) as [|A' [|? ?]] eqn:EL2; try done.
  injection Hvlast as ->. injection HA as ->.
  assert (∀ x, x ∈ forder → count x vlast = 1) as Hone.
  { intros x Hx. specialize (Hfree2 x Hx). simpl in Hfree2.
    by rewrite app_nil_r in Hfree2. }
  assert (∀ x, x ∈ vlast ↔ x ∈ forder) as Hsame.
  { intros x. split.
    - intros Hx. destruct (Hlisted2 x) as [Hn|?]; [| |done].
      + simpl. apply elem_of_app. by left.
      + rewrite Ho2 in Hn. by apply elem_of_nil in Hn.
    - intros Hx. apply count_pos. rewrite (Hone _ Hx). lia. }
  assert (NoDup vlast) as Hndv.
  { apply NoDup_count. intros x Hx. by apply Hone, Hsame. }
  assert (forder ≡ₚ vlast) as Hperm.
  { apply NoDup_Permutation; [done..|]. intros x. by rewrite Hsame. }
  (* the final permutation *)
  destruct (permute_final_run A vlast forder s2 Hndv Hperm)
    as (perm & Hrun & Hpp & Hlook & _).
  rewrite Hrun in Hbody. injection Hbody as Hres <-.
  destruct Hnet2 as [_ Hrank].
  exists s2, A, vlast, perm. rewrite Ev2, EL2.
  split_and!; try done.
  - by apply (Hrank 0 A vlast).
  - rewrite Hcalls2, Hcalls1. cbn [st_calls]. rewrite app_nil_l.
    by apply Forall_app.
  - by destruct (permute A perm) as [T'|]; simplify_eq.
Qed.

(** X24: on a network that the validator accepts, whose [order] lists
    every label carried by more than one leg and every positive integer
    label, and whose [forder] lists every other label, each once, every
    backend call of a run of [ncon] that returns names axes that exist and
    are distinct: [expand_dims] gets the position after the last axis,
    [trace] two different axes, [con] equally many different axes of each
    tensor, and [permute] a permutation of all the axes.  It relies on the
    rank contracts of [expand_dims], [trace] and [con]. *)
Theorem ncon_calls_valid (L : list Tensor) v order forder check T s :
  do_check_indices L v order forder = Ok true → order_covers v order →
  NoDup forder → labels_listed v order forder →
  ncon L v (PySeq order) (PySeq forder) check = (Ok T, Some s) →
  Forall axes_valid (st_calls s).
Proof.
  intros Hb Hcov Hndf Hlisted Hrun.
  destruct (ncon_run _ _ _ _ _ _ _ Hb Hcov Hndf Hlisted Hrun)
    as (s2 & A & vlast & perm & _ & _ & _ & _ & Hrank & Hcalls & Hperm & _ & _ & ->).
  unfold record_call. cbn [st_calls]. apply Forall_app. split; [done|].
  constructor; [|constructor]. cbn [axes_valid]. by rewrite <- Hrank.
Qed.

(** X25: under the same conditions, when [ncon] returns, the scheduler
    loop has left one tensor with one axis per label of [forder]; the
    result is what [permute] returns for that tensor and a permutation
    whose entry [k] is the axis carrying [forder[k]]; this call is the last
    one, and [L], [v] and [order] are left as the loop left them. *)
Theorem ncon_result_axes (L : list Tensor) v order forder check T s :
  do_check_indices L v order forder = Ok true → order_covers v order →
  NoDup forder → labels_listed v order forder →
  ncon L v (PySeq order) (PySeq forder) check = (Ok T, Some s) →
  ∃ A vlast perm,
    st_L s = [A] ∧ st_v s = [vlast] ∧ st_order s = []
    ∧ rank A = length forder
    ∧ last (st_calls s) = Some (CallPermute A perm)
    ∧ permute A perm = Some T
    ∧ length perm = length forder
    ∧ ∀ k x, forder !! k = Some x →
        ∃ p, perm !! k = Some p ∧ vlast !! p = Some x.
Proof.
  intros Hb Hcov Hndf Hlisted Hrun.
  destruct (ncon_run _ _ _ _ _ _ _ Hb Hcov Hndf Hlisted Hrun)
    as (s2 & A & vlast & perm & HL & Hv & Ho & Hfv & Hrank & _ & Hperm & Hlook
          & HT & ->).
  exists A, vlast, perm. unfold record_call. cbn [st_L st_v st_order st_calls].
  assert (length perm = length forder) as Hlen.
  { rewrite (Permutation_length Hperm), length_seq.
    symmetry. by apply Permutation_length. }
  split_and!; try done.
  - rewrite <- Hrank. symmetry. by apply Permutation_length.
  - apply last_snoc.
  - intros k x Hk.
    destruct (lookup_lt_is_Some_2 perm k) as [p Hp];
      [rewrite Hlen; by eapply lookup_lt_Some|].
    exists p. split; [done|]. by rewrite (Hlook _ _ Hp).
Qed.

End calls_valid.

(** ** Which exception the validator raises *)



Section validator_errors.
Context `{Backend Tensor}.


End validator_errors.

Lemma matmul_labels_listed :
  labels_listed matmul_v [LInt 1] [LInt (-1); LInt (-2)].
Proof.
  intros x Hx. unfold matmul_v in Hx. simpl in Hx.
  rewrite !elem_of_cons, elem_of_nil in Hx. rewrite !elem_of_cons.
  destruct Hx as [->|[->|[->|[->|[]]]]]; auto.
Qed.

Lemma matmul_forder_NoDup : NoDup [LInt (-1); LInt (-2)].
Proof.
  apply NoDup_cons. split; [|apply NoDup_singleton].
  intros Hin. apply list_elem_of_singleton in Hin. discriminate Hin.
Qed.

Lemma ncon_calls_valid_witness :
  ∃ T s,
    ncon matmul_L matmul_v (PySeq [LInt 1]) (PySeq [LInt (-1); LInt (-2)]) true
    = (Ok T, Some s)
    ∧ Forall axes_valid (st_calls s).
Proof.
  assert (∃ T s, ncon matmul_L matmul_v (PySeq [LInt 1])
                   (PySeq [LInt (-1); LInt (-2)]) true = (Ok T, Some s))
    as (T & s & Hrun) by (do 2 eexists; vm_compute; reflexivity).
  exists T, s. split; [exact Hrun|].
  apply (ncon_calls_valid matmul_L matmul_v [LInt 1] [LInt (-1); LInt (-2)]
           true T s).
  - vm_compute. reflexivity.
  - exact matmul_order_covers.
  - exact matmul_forder_NoDup.
  - exact matmul_labels_listed.
  - exact Hrun.
Defined.

Lemma ncon_result_axes_witness :
  ∃ T s,
    ncon matmul_L matmul_v (PySeq [LInt 1]) (PySeq [LInt (-1); LInt (-2)]) true
    = (Ok T, Some s)
    ∧ ∃ A vlast perm,
        st_L s = [A] ∧ st_v s = [vlast] ∧ st_order s = []
        ∧ rank A = length [LInt (-1); LInt (-2)]
        ∧ last (st_calls s) = Some (CallPermute A perm)
        ∧ permute A perm = Some T
        ∧ length perm = length [LInt (-1); LInt (-2)]
        ∧ ∀ k x, [LInt (-1); LInt (-2)] !! k = Some x →
            ∃ p, perm !! k = Some p ∧ vlast !! p = Some x.
Proof.
  assert (∃ T s, ncon matmul_L matmul_v (PySeq [LInt 1])
                   (PySeq [LInt (-1); LInt (-2)]) true = (Ok T, Some s))
    as (T & s & Hrun) by (do 2 eexists; vm_compute; reflexivity).
  exists T, s. split; [exact Hrun|].
  apply (ncon_result_axes matmul_L matmul_v [LInt 1] [LInt (-1); LInt (-2)]
           true T s).
  - vm_compute. reflexivity.
  - exact matmul_order_covers.
  - exact matmul_forder_NoDup.
  - exact matmul_labels_listed.
  - exact Hrun.
Defined.

Lemma components_are_connected_components_witness :
  ∃ cc,
    components (length matmul_v) matmul_v
      (list_to_set (seq 0 (length matmul_v))) ∅ [] = Ok cc
    ∧ (∀ comp, comp ∈ cc → comp ≠ ∅)
    ∧ (∀ a b A B, cc !! a = Some A → cc !! b = Some B → a ≠ b → A ## B)
    ∧ ∀ i j, i < length matmul_v → j < length matmul_v →
        ((∃ comp, comp ∈ cc ∧ i ∈ comp ∧ j ∈ comp)
         ↔ rtc (adjacent matmul_v) i j).
Proof. exact (components_are_connected_components matmul_v). Defined.


(** ** Termination *)

Section termination.
Context `{Backend Tensor} `{SetPop}.

(** X27: [ncon] ends on every input, whether it returns or raises: the
    traversal loops of [connect_graph] visit each tensor at most once, also
    when [L] and [v] differ in length, the search for a fresh label ends
    within [len(order)] increments, and the scheduler loop within
    [len(order)] iterations, so that the iteration budgets of the model
    are never exhausted. *)
Theorem ncon_terminates (L : list Tensor) v order forder check_indices :
  in_budget (ncon L v order forder check_indices).1
  ∧ (∀ o, in_budget (fresh_dim o))
  ∧ (∀ s : state Tensor, in_budget (connect_graph s).1).
Proof.
  split_and!.
  - apply ncon_in_budget.
  - apply in_budget_fresh_dim.
  - apply runs_connect_graph.
Qed.

End termination.

(** ** The checks of the participant lookup remain reachable *)

(** X28: the validator does not make the structure errors of [get_tcon]
    unreachable: there is a network that it accepts and whose [order]
    lists every label carried by more than one leg, on which [ncon] raises
    the error "more than two tensors share a contraction index", because
    the labels made up by [connect_graph] are fresh for [order] only and
    collide with positive free labels.  (Shape-level backend, [set.pop()]
    taking the smallest element.) *)
Theorem validated_network_structure_error :
  ∃ (L : list (list nat)) v order forder,
    do_check_indices L v order forder = Ok true
    ∧ (∀ x, 2 ≤ count x (mjoin v) → x ∈ order)
    ∧ (ncon L v (PySeq order) (PySeq forder) true).1 = Err E_tcon_many.
Proof.
  exists [[5]; [5]; [5]], [[LInt 1]; [LInt 2]; [LInt 3]], [],
    [LInt 1; LInt 2; LInt 3].
  split; [vm_compute; reflexivity|]. split; [|vm_compute; reflexivity].
  intros x Hx. simpl in Hx. rewrite !count_cons, count_nil in Hx.
  repeat case_decide; simplify_eq; lia.
Qed.

(** ** What the choices of [set.pop()] cannot change *)

Lemma components_NoDup v U visited cc :
  components_inv v U ∅ visited cc → NoDup cc.
Proof.
  intros Hinv. apply NoDup_alt. intros a b A Ha Hb.
  destruct (decide (a = b)) as [|Hne]; [done|].
  pose proof (ci_separate _ _ _ _ _ Hinv _ _ _ _ Ha Hb Hne) as Hd.
  assert (A ≠ ∅) as HA
    by (apply (ci_nonempty _ _ _ _ _ Hinv); by eapply list_elem_of_lookup_2).
  apply set_choose_L in HA as [i Hi]. set_solver.
Qed.

Lemma components_same_sets v vis1 vis2 cc1 cc2 :
  components_inv v (nodes v) ∅ vis1 cc1 →
  components_inv v (nodes v) ∅ vis2 cc2 →
  Forall (closed_component v) cc1 → Forall (closed_component v) cc2 →
  ∀ comp, comp ∈ cc1 → comp ∈ cc2.
Proof.
  intros H1 H2 Hcl1 Hcl2 comp Hcomp. rewrite Forall_forall in Hcl1, Hcl2.
  assert (comp ≠ ∅) as Hne by (by apply (ci_nonempty _ _ _ _ _ H1)).
  apply set_choose_L in Hne as [i Hi].
  assert (i ∈ ⋃ cc2) as Hin.
  { rewrite <- (ci_visited _ _ _ _ _ H2).
    assert (i ∈ nodes v) as Hn
      by (apply elem_of_nodes; by apply (ci_range _ _ _ _ _ H1 comp)).
    pose proof (ci_cover _ _ _ _ _ H2 i Hn). set_solver. }
  apply elem_of_union_list in Hin as (comp' & Hcomp' & Hi').
  assert (comp = comp') as ->; [|done].
  apply set_eq. intros j. split; intros Hj.
  - apply (closed_component_path v comp' i j); [by apply Hcl2 | done |].
    by apply (ci_connected _ _ _ _ _ H1 comp).
  - apply (closed_component_path v comp i j); [by apply Hcl1 | done |].
    by apply (ci_connected _ _ _ _ _ H2 comp').
Qed.

Section choice_independence.
Context `{Backend Tensor}.
Implicit Types s : state Tensor.

Lemma components_choice_length (P1 P2 : SetPop) v cc1 cc2 :
  @components P1 (length v) v (list_to_set (seq 0 (length v))) ∅ [] = Ok cc1 →
  @components P2 (length v) v (list_to_set (seq 0 (length v))) ∅ [] = Ok cc2 →
  cc1 ≡ₚ cc2.
Proof.
  intros E1 E2.
  destruct (@components_of_network P1 v) as (cc1' & vis1 & E1' & Hinv1).
  destruct (@components_of_network P2 v) as (cc2' & vis2 & E2' & Hinv2).
  rewrite E1 in E1'. injection E1' as <-.
  rewrite E2 in E2'. injection E2' as <-.
  assert (Forall (closed_component v) cc1) as Hcl1.
  { eapply (@components_closed P1 _ v (nodes v)); [| |constructor|exact E1].
    - intros i. by rewrite elem_of_nodes.
    - split; set_solver. }
  assert (Forall (closed_component v) cc2) as Hcl2.
  { eapply (@components_closed P2 _ v (nodes v)); [| |constructor|exact E2].
    - intros i. by rewrite elem_of_nodes.
    - split; set_solver. }
  apply NoDup_Permutation; [by eapply components_NoDup..|].
  intros comp. split; by eapply components_same_sets.
Qed.

Lemma link_all_order_same (P1 P2 : SetPop) c1 c2 rest1 rest2 s1 s2 s1' s2' :
  length rest1 = length rest2 → st_order s1 = st_order s2 →
  @link_all _ _ P1 c1 rest1 s1 = (Ok (), s1') →
  @link_all _ _ P2 c2 rest2 s2 = (Ok (), s2') →
  st_order s1' = st_order s2'.
Proof.
  revert rest2 s1 s2.
  induction rest1 as [|comp1 rest1 IH]; intros [|comp2 rest2] s1 s2 Hlen Ho;
    try done; cbn [link_all].
  - rewrite !run_ret. by intros [= <-] [= <-].
  - intros Hl1 Hl2.
    apply run_bind_Ok in Hl1 as ([] & t1 & Hlink1 & Hl1).
    apply run_bind_Ok in Hl2 as ([] & t2 & Hlink2 & Hl2).
    apply (IH rest2 t1 t2); [by injection Hlen| |done..].
    destruct (link_inv _ _ _ _ Hlink1)
      as (? & ? & ? & ? & ? & ? & ? & dim1 & _ & _ & _ & _ & _ & _ & _ & Hd1 & ->).
    destruct (link_inv _ _ _ _ Hlink2)
      as (? & ? & ? & ? & ? & ? & ? & dim2 & _ & _ & _ & _ & _ & _ & _ & Hd2 & ->).
    cbn [st_order]. rewrite Ho in Hd1 |- *.
    by rewrite (smallest_unused_unique _ _ _ Hd1 Hd2).
Qed.

(** X29: the elements that [set.pop()] happens to return decide which
    tensors [connect_graph] links, not how many links it makes nor which
    labels it makes up: two runs of [connect_graph] on the same state, with
    any two ways of popping, find the same components up to their
    sequence, and when both return they leave the same [order] and have
    made the same number of backend calls. *)
Theorem connect_graph_choice_independent (P1 P2 : SetPop) s s1 s2 :
  length (st_L s) = length (st_v s) →
  @connect_graph _ _ P1 s = (Ok (), s1) →
  @connect_graph _ _ P2 s = (Ok (), s2) →
  st_order s1 = st_order s2
  ∧ length (st_calls s1) = length (st_calls s2)
  ∧ ∃ cc1 cc2,
      @components P1 (length (st_v s)) (st_v s)
        (list_to_set (seq 0 (length (st_v s)))) ∅ [] = Ok cc1
      ∧ @components P2 (length (st_v s)) (st_v s)
          (list_to_set (seq 0 (length (st_v s)))) ∅ [] = Ok cc2
      ∧ cc1 ≡ₚ cc2.
Proof.
  intros Hlen H1 H2.
  destruct (connect_graph_inv _ _ H1)
    as (cc1 & last1 & rest1 & c1 & Hcc1 & Hrev1 & _ & Hl1).
  destruct (connect_graph_inv _ _ H2)
    as (cc2 & last2 & rest2 & c2 & Hcc2 & Hrev2 & _ & Hl2).
  rewrite Hlen in Hcc1, Hcc2.
  pose proof (components_choice_length P1 P2 _ _ _ Hcc1 Hcc2) as Hperm.
  assert (length rest1 = length rest2) as Hrest.
  { apply Permutation_length in Hperm.
    rewrite <- (length_reverse cc1), <- (length_reverse cc2), Hrev1, Hrev2 in Hperm.
    simpl in Hperm. lia. }
  split_and!.
  - by eapply (link_all_order_same P1 P2).
  - destruct (link_all_appends _ _ _ _ Hl1) as (? & cs1 & _ & _ & _ & _ & -> & Hn1 & _).
    destruct (link_all_appends _ _ _ _ Hl2) as (? & cs2 & _ & _ & _ & _ & -> & Hn2 & _).
    rewrite !length_app. lia.
  - by exists cc1, cc2.
Qed.

End choice_independence.

Lemma pop_max_SetPop : SetPop.
Proof.
  refine {| set_pop := pop_max; set_pop_Some := _; set_pop_None := _ |}.
  - intros s x Hx. unfold pop_max in Hx. apply head_Some_elem_of in Hx.
    rewrite merge_sort_Permutation in Hx. by apply elem_of_elements in Hx.
  - intros s Hs. unfold pop_max in Hs. apply head_None in Hs.
    apply leibniz_equiv, elements_empty_inv.
    apply Permutation_nil_r. rewrite <- Hs. by rewrite merge_sort_Permutation.
Defined.

Lemma connect_graph_choice_independent_witness :
  ∃ s1 s2 : state (list nat),
    @connect_graph _ _ pop_min_SetPop outer_state = (Ok (), s1)
    ∧ @connect_graph _ _ pop_max_SetPop outer_state = (Ok (), s2)
    ∧ st_calls s1 ≠ st_calls s2
    ∧ st_order s1 = st_order s2
    ∧ length (st_calls s1) = length (st_calls s2)
    ∧ ∃ cc1 cc2,
        @components pop_min_SetPop (length (st_v outer_state)) (st_v outer_state)
          (list_to_set (seq 0 (length (st_v outer_state)))) ∅ [] = Ok cc1
        ∧ @components pop_max_SetPop (length (st_v outer_state))
            (st_v outer_state)
            (list_to_set (seq 0 (length (st_v outer_state)))) ∅ [] = Ok cc2
        ∧ cc1 ≡ₚ cc2.
Proof.
  assert (∃ s1, @connect_graph _ _ pop_min_SetPop outer_state = (Ok (), s1)
                ∧ st_calls s1 = [CallExpandDims [5; 4] 2; CallExpandDims [2; 3] 2])
    as (s1 & H1 & Hc1) by (eexists; split; vm_compute; reflexivity).
  assert (∃ s2, @connect_graph _ _ pop_max_SetPop outer_state = (Ok (), s2)
                ∧ st_calls s2 = [CallExpandDims [2; 3] 2; CallExpandDims [5; 4] 2])
    as (s2 & H2 & Hc2) by (eexists; split; vm_compute; reflexivity).
  exists s1, s2. split; [exact H1|]. split; [exact H2|].
  split; [rewrite Hc1, Hc2; discriminate|].
  exact (connect_graph_choice_independent pop_min_SetPop pop_max_SetPop
           outer_state s1 s2 eq_refl H1 H2).
Defined.
